(** * onelint, package [one]: language registry, parse pipeline, rule dispatch

    A shallow embedding of [pkg/one/language.go] and [pkg/one/analyze.go].
    Go values are modelled as follows.
    - [string] is Rocq's [string]; [[]byte] is [list Byte.byte].
    - a [map[string][]Rule] is a [gmap string (list R)]; reading a missing key
      gives Go's zero value, the empty slice.
    - a function returning a pointer and an [error] returns a pair of options, so that
      the fact that exactly one of the two is nil is a statement to prove.
    - collaborators outside the package (the parsing engine, the file system)
      and the scope resolver are Section variables.
    - the [Rule] interface is a type class over the type of rules; a callback
      is a function from its arguments to the analyzer methods it calls.
    - a method that changes the analyzer returns the new analyzer; dispatch
      also returns the events it went through (which callback ran on which
      rule and node, which method a callback called), for the statements
      that count or order them.
    - module [Stateful] embeds the analyzer a second time, for rules that
      keep state: methods and callbacks take and return the state of the
      program outside the analyzer, a callback is the sequence of its steps,
      and a call of the nil func is a fault. *)

From Stdlib Require Import Ascii String List Bool Arith Lia.
From stdpp Require Import base option list strings gmap.
Import ListNotations.

Local Open Scope string_scope.
Local Open Scope list_scope.

(* ===================================================================== *)
(** * Language registry (language.go) *)
(* ===================================================================== *)

(** [type Language int] with its [iota] constants. *)
Inductive Language : Type :=
| LangUnknown
| LangPy
| LangJs   (* vanilla JS and JSX *)
| LangTs   (* TypeScript (not TSX) *)
| LangTsx. (* TypeScript with JSX extension *)

(** The tree-sitter grammars the file imports: [treeSitterPy],
    [treeSitterTsx] and [treeSitterTs].  A [*sitter.Language] handle is
    identified by the grammar package whose [GetLanguage] produced it. *)
Inductive SitterLanguage : Type :=
| treeSitterPy
| treeSitterTsx
| treeSitterTs.

(** [func (lang Language) Grammar()], returning a pointer to a
    [sitter.Language]; [None] is [nil]. *)
Definition Grammar (lang : Language) : option SitterLanguage :=
  match lang with
  | LangPy => Some treeSitterPy
  | LangJs => Some treeSitterTsx
  | LangTs => Some treeSitterTs
  | LangTsx => Some treeSitterTsx
  | _ => None
  end.

(** [os.IsPathSeparator] on a Unix host. *)
Definition IsPathSeparator (c : ascii) : bool := Ascii.eqb c "/"%char.

(** The loop of Go's [filepath.Ext]: starting at [i = len(path)-1] and while
    [i >= 0] and [path[i]] is no path separator, return [path[i:]] as soon as
    [path[i]] is a dot; return the empty string when the loop ends.
    [before] holds [path[0..i]] reversed (its head is [path[i]]) and [after]
    holds [path[i+1:]]. *)
Fixpoint ext_loop (before after : list ascii) : string :=
  match before with
  | [] => EmptyString
  | c :: before' =>
      if IsPathSeparator c then EmptyString
      else if Ascii.eqb c "."%char then string_of_list_ascii (c :: after)
      else ext_loop before' (c :: after)
  end.

Definition Ext (path : string) : string :=
  ext_loop (rev (list_ascii_of_string path)) [].

(** [func LanguageFromFilePath(path string) Language] *)
Definition LanguageFromFilePath (path : string) : Language :=
  let ext := Ext path in
  if String.eqb ext ".py" then LangPy
  else if String.eqb ext ".js" || String.eqb ext ".jsx" then LangJs
  else if String.eqb ext ".ts" then LangTs
  else if String.eqb ext ".tsx" then LangTsx
  else LangUnknown.

(** The mapping as the specification words it: a fixed table from extension
    to tag, anything else being Unknown. *)
Definition extension_table : list (string * Language) :=
  [ (".py", LangPy); (".js", LangJs); (".jsx", LangJs);
    (".ts", LangTs); (".tsx", LangTsx) ].

Fixpoint table_lookup (table : list (string * Language)) (ext : string) : Language :=
  match table with
  | [] => LangUnknown
  | (e, lang) :: rest => if String.eqb ext e then lang else table_lookup rest ext
  end.

Definition resolveLanguage_spec (ext : string) : Language :=
  table_lookup extension_table ext.

(* ===================================================================== *)
(** * Values shared by the parse pipeline and the analyzer *)
(* ===================================================================== *)

Definition bytes : Type := list Byte.byte.

(** A Go [error], identified by the message it carries. *)
Inductive error : Type :=
| ErrorString (msg : string).

(** [fmt.Errorf(format, arg)] for a format that ends in one [%s] verb:
    [prefix] is the format up to the verb. *)
Definition Errorf (prefix arg : string) : error := ErrorString (prefix +:+ arg).

(** [sitter.Range], by its byte offsets. *)
Record SitterRange : Type := {
  StartByte : N;
  EndByte : N
}.

(** [sitter.Node]: the node's type string, its range and its children in
    source order. *)
#[warnings="-register-all"]
Inductive SitterNode : Type :=
| MkNode (typ : string) (rng : SitterRange) (children : list SitterNode).

Definition Type_ (node : SitterNode) : string :=
  match node with MkNode typ _ _ => typ end.

Definition Children (node : SitterNode) : list SitterNode :=
  match node with MkNode _ _ children => children end.

Definition Range_ (node : SitterNode) : SitterRange :=
  match node with MkNode _ rng _ => rng end.

(** [type Issue struct]; the fields [Range] and [Node] carry the struct's
    name as a prefix because Rocq has one name space for types and fields. *)
Record Issue : Type := {
  Message : string;
  Issue_Range : SitterRange;
  Issue_Node : option SitterNode
}.

(** The calls a rule callback makes on the analyzer it is handed. *)
Inductive Call (R : Type) : Type :=
| CallReport (issue : Issue)
| CallAddRule (rule : R).
Arguments CallReport {R} issue.
Arguments CallAddRule {R} rule.

Section Package.

(** The scope hierarchy of a file.  Its declaration and its constructor
    [MakeScopeTree] live in a file of the package that is not modelled; both
    are taken as parameters. *)
Context {ScopeTree : Type}.
Variable MakeScopeTree : Language -> SitterNode -> bytes -> option ScopeTree.

(** The parsing engine, [sitter.ParseCtx(ctx, source, grammar)]: it answers
    with a root node or with an error. *)
Variable ParseCtx : bytes -> option SitterLanguage -> SitterNode + error.

(** The file system, [os.ReadFile(path)]: contents or an error. *)
Variable ReadFile : string -> bytes + error.

(* ===================================================================== *)
(** * Parse pipeline (language.go) *)
(* ===================================================================== *)

(** [type ParseResult struct] *)
Record ParseResult : Type := {
  Ast : SitterNode;
  Source : bytes;
  FilePath : string;
  TsLanguage : option SitterLanguage;
  ParseResult_Language : Language;
  ParseResult_ScopeTree : option ScopeTree
}.

(** [func Parse(filePath, source, language, grammar)] *)
Definition Parse (filePath : string) (source : bytes) (language : Language)
    (grammar : option SitterLanguage) : option ParseResult * option error :=
  match ParseCtx source grammar with
  | inr _ => (None, Some (Errorf "failed to parse " filePath))
  | inl ast =>
      let scopeTree := MakeScopeTree language ast source in
      let parseResult := {|
        Ast := ast;
        Source := source;
        FilePath := filePath;
        TsLanguage := grammar;
        ParseResult_Language := language;
        ParseResult_ScopeTree := scopeTree
      |} in
      (Some parseResult, None)
  end.

(** [func ParseFile(filePath)].  Next to the Go result the model returns the
    paths handed to [os.ReadFile], in call order. *)
Definition ParseFile (filePath : string)
    : (option ParseResult * option error) * list string :=
  let lang := LanguageFromFilePath filePath in
  let grammar := Grammar lang in
  match grammar with
  | None => ((None, Some (Errorf "unsupported file type: " filePath)), [])
  | Some _ =>
      match ReadFile filePath with
      | inr err => ((None, Some err), [filePath])
      | inl source => (Parse filePath source lang grammar, [filePath])
      end
  end.

(* ===================================================================== *)
(** * Rules and the analyzer (analyze.go) *)
(* ===================================================================== *)

(** What code outside the package reaches of an [Analyzer] through its
    pointer: the exported fields.  The other fields are private to the
    package. *)
Record Exported : Type := {
  Exported_Language : Language;
  Exported_ParseResult : ParseResult
}.

(** [VisitFn], a [func(rule Rule, analyzer *Analyzer, node *sitter.Node)]
    (declared, like [Rule], in a file of the package that is not modelled).
    The callback has no result; what it does to the analyzer is the sequence
    of method calls it makes, [Report] and [AddRule], which may depend on the
    rule, on the exported fields and on the node.  A callback that calls back
    into the traversal ([Analyze], [OnEnterNode], [OnLeaveNode]) or assigns
    the exported fields of the analyzer is outside the model. *)
Definition VisitFn (R : Type) : Type := R -> Exported -> SitterNode -> list (Call R).

(** The [Rule] interface, by the methods [analyze.go] calls.  [OnEnter] and
    [OnLeave] return a pointer to a [VisitFn]: [None] is the nil pointer, and
    a pointer that is not nil points to a function.  The methods are pure: a
    rule answers the same at registration and at dispatch.  Rules that keep
    state, whose answers may change between two calls and whose pointers may
    point to the nil func, are the rules of module [Stateful] below. *)
Class Rule (R : Type) : Type := {
  NodeType : R -> string;
  OnEnter : R -> option (VisitFn R);
  OnLeave : R -> option (VisitFn R)
}.

Context {R : Type} `{Rule R}.

(** [type Analyzer struct] *)
Record Analyzer : Type := {
  Analyzer_Language : Language;
  Analyzer_ParseResult : ParseResult;
  rules : list R;
  entryRulesForNode : gmap string (list R);
  exitRulesForNode : gmap string (list R);
  issuesRaised : list Issue
}.

Definition exported (ana : Analyzer) : Exported := {|
  Exported_Language := Analyzer_Language ana;
  Exported_ParseResult := Analyzer_ParseResult ana
|}.

(** [m[key]] on a Go map of slices: the nil slice for a missing key. *)
Definition index_get (m : gmap string (list R)) (key : string) : list R :=
  default [] (m !! key).

(** Assignments to one field of [*ana]. *)
Definition set_rules (v : list R) (ana : Analyzer) : Analyzer := {|
  Analyzer_Language := Analyzer_Language ana;
  Analyzer_ParseResult := Analyzer_ParseResult ana;
  rules := v;
  entryRulesForNode := entryRulesForNode ana;
  exitRulesForNode := exitRulesForNode ana;
  issuesRaised := issuesRaised ana
|}.

Definition set_entryRulesForNode (v : gmap string (list R)) (ana : Analyzer) : Analyzer := {|
  Analyzer_Language := Analyzer_Language ana;
  Analyzer_ParseResult := Analyzer_ParseResult ana;
  rules := rules ana;
  entryRulesForNode := v;
  exitRulesForNode := exitRulesForNode ana;
  issuesRaised := issuesRaised ana
|}.

Definition set_exitRulesForNode (v : gmap string (list R)) (ana : Analyzer) : Analyzer := {|
  Analyzer_Language := Analyzer_Language ana;
  Analyzer_ParseResult := Analyzer_ParseResult ana;
  rules := rules ana;
  entryRulesForNode := entryRulesForNode ana;
  exitRulesForNode := v;
  issuesRaised := issuesRaised ana
|}.

Definition set_issuesRaised (v : list Issue) (ana : Analyzer) : Analyzer := {|
  Analyzer_Language := Analyzer_Language ana;
  Analyzer_ParseResult := Analyzer_ParseResult ana;
  rules := rules ana;
  entryRulesForNode := entryRulesForNode ana;
  exitRulesForNode := exitRulesForNode ana;
  issuesRaised := v
|}.

(** [func (ana *Analyzer) AddRule(rule Rule)] *)
Definition AddRule (ana : Analyzer) (rule : R) : Analyzer :=
  let ana := set_rules (rules ana ++ [rule]) ana in
  let typ := NodeType rule in
  let ana :=
    match OnEnter rule with
    | Some _ =>
        set_entryRulesForNode
          (<[typ := index_get (entryRulesForNode ana) typ ++ [rule]]> (entryRulesForNode ana)) ana
    | None => ana
    end in
  match OnLeave rule with
  | Some _ =>
      set_exitRulesForNode
        (<[typ := index_get (exitRulesForNode ana) typ ++ [rule]]> (exitRulesForNode ana)) ana
  | None => ana
  end.

(** [func NewAnalyzer(file *ParseResult, rules []Rule)]; [file] is
    dereferenced at once, so it is a [ParseResult] and not a nil pointer. *)
Definition NewAnalyzer (file : ParseResult) (rules0 : list R) : Analyzer :=
  let ana := {|
    Analyzer_Language := ParseResult_Language file;
    Analyzer_ParseResult := file;
    rules := [];
    entryRulesForNode := ∅;
    exitRulesForNode := ∅;
    issuesRaised := []
  |} in
  fold_left AddRule rules0 ana.

(** [func (ana *Analyzer) Report(issue *Issue)] *)
Definition Report (ana : Analyzer) (issue : Issue) : Analyzer :=
  set_issuesRaised (issuesRaised ana ++ [issue]) ana.

(** ** Dispatch *)

Inductive Phase : Type := Enter | Leave.

(** What a run leaves behind for an observer: which callback was invoked on
    which rule and node, and which analyzer method a callback called. *)
Inductive Event : Type :=
| Invoked (phase : Phase) (rule : R) (node : SitterNode)
| Called (call : Call R).

(** A run: the analyzer it ends in and the events it emitted, oldest first. *)
Definition Run : Type := (Analyzer * list Event)%type.

Definition andThen (first : Run) (next : Analyzer -> Run) : Run :=
  (fst (next (fst first)), snd first ++ snd (next (fst first))).

(** One method call made by a callback. *)
Definition perform (ana : Analyzer) (call : Call R) : Analyzer :=
  match call with
  | CallReport issue => Report ana issue
  | CallAddRule rule => AddRule ana rule
  end.

(** The call of the function [visitFn] points to, on [rule], [ana], [node]. *)
Definition invoke (phase : Phase) (visitFn : VisitFn R) (rule : R) (ana : Analyzer)
    (node : SitterNode) : Run :=
  let calls := visitFn rule (exported ana) node in
  (fold_left perform calls ana, Invoked phase rule node :: map Called calls).

(** [for _, rule := range rules { body }]: the slice is read once, before the
    first iteration. *)
Fixpoint range_loop (body : R -> Analyzer -> Run) (rules0 : list R) (ana : Analyzer) : Run :=
  match rules0 with
  | [] => (ana, [])
  | rule :: rest => andThen (body rule ana) (range_loop body rest)
  end.

(** [func (ana *Analyzer) OnEnterNode(node *sitter.Node) bool] *)
Definition OnEnterNode (ana : Analyzer) (node : SitterNode) : bool * Run :=
  let nodeType := Type_ node in
  let rules0 := index_get (entryRulesForNode ana) nodeType in
  let run :=
    range_loop (fun rule ana =>
      let visitFn := OnEnter rule in
      match visitFn with
      | Some visitFn => invoke Enter visitFn rule ana node
      | None => (ana, [])
      end) rules0 ana in
  (true, run).

(** [func (ana *Analyzer) OnLeaveNode(node *sitter.Node)] *)
Definition OnLeaveNode (ana : Analyzer) (node : SitterNode) : Run :=
  let nodeType := Type_ node in
  let rules0 := index_get (exitRulesForNode ana) nodeType in
  range_loop (fun rule ana =>
    let visitFn := OnLeave rule in
    match visitFn with
    | Some visitFn => invoke Leave visitFn rule ana node
    | None => (ana, [])
    end) rules0 ana.

(** Modelled from the spec: [WalkTree], the traversal engine, is defined in a
    file of the package that is not modelled.  Section 4.4: on-enter is called
    once per node before its children and decides whether to descend; the
    children are visited left to right; on-leave is called once per node after
    all of its children and their subtrees. *)
Fixpoint WalkTree (node : SitterNode) (walker : Analyzer) : Run :=
  match node with
  | MkNode _ _ children =>
      let entered := OnEnterNode walker node in
      let goInside := fst entered in
      let inside :=
        if goInside then
          andThen (snd entered)
            ((fix walkChildren (cs : list SitterNode) (a : Analyzer) : Run :=
                match cs with
                | [] => (a, [])
                | child :: cs' => andThen (WalkTree child a) (walkChildren cs')
                end) children)
        else snd entered in
      andThen inside (fun a => OnLeaveNode a node)
  end.

(** [func (ana *Analyzer) Analyze() []*Issue]: the returned slice, with the
    run of the walk. *)
Definition Analyze (ana : Analyzer) : list Issue * Run :=
  let run := WalkTree (Ast (Analyzer_ParseResult ana)) ana in
  (issuesRaised (fst run), run).

(** [func FromFile(filePath string, baseRules []Rule)], returning a pointer
    to an [Analyzer] and an [error], with the paths read as in [ParseFile].
    [NewAnalyzer] dereferences the ParseResult it is handed, so reaching it
    with a nil one is a fault, [None]. *)
Definition FromFile (filePath : string) (baseRules : list R)
    : option ((option Analyzer * option error) * list string) :=
  let parsed := ParseFile filePath in
  let res := fst (fst parsed) in
  let err := snd (fst parsed) in
  match err with
  | Some err => Some ((None, Some err), snd parsed)
  | None =>
      match res with
      | Some res => Some ((Some (NewAnalyzer res baseRules), None), snd parsed)
      | None => None
      end
  end.

(** ** Vocabulary of the statements *)

(** [rule.OnEnter()] or [rule.OnLeave()], by phase. *)
Definition callback (phase : Phase) (rule : R) : option (VisitFn R) :=
  match phase with
  | Enter => OnEnter rule
  | Leave => OnLeave rule
  end.

Definition index_of (phase : Phase) (ana : Analyzer) : gmap string (list R) :=
  match phase with
  | Enter => entryRulesForNode ana
  | Leave => exitRulesForNode ana
  end.

(** The loop shared by [OnEnterNode] and [OnLeaveNode], by phase. *)
Definition dispatch (phase : Phase) (ana : Analyzer) (node : SitterNode) : Run :=
  range_loop (fun rule ana =>
    match callback phase rule with
    | Some visitFn => invoke phase visitFn rule ana node
    | None => (ana, [])
    end) (index_get (index_of phase ana) (Type_ node)) ana.

(** A rule is interested in nodes of type [typ] at [phase] when it defines the
    callback of that phase and declares [typ] as its node type. *)
Definition interested (phase : Phase) (typ : string) (rule : R) : bool :=
  match callback phase rule with
  | Some _ => String.eqb (NodeType rule) typ
  | None => false
  end.

Definition phase_eqb (p q : Phase) : bool :=
  match p, q with
  | Enter, Enter | Leave, Leave => true
  | _, _ => false
  end.

(** The callback invocations of one phase in a run, oldest first. *)
Fixpoint invocations (phase : Phase) (events : list Event) : list (R * SitterNode) :=
  match events with
  | [] => []
  | Invoked phase' rule node :: rest =>
      if phase_eqb phase phase' then (rule, node) :: invocations phase rest
      else invocations phase rest
  | Called _ :: rest => invocations phase rest
  end.

(** The issues handed to [Report] in a run, in call order. *)
Fixpoint reported (events : list Event) : list Issue :=
  match events with
  | [] => []
  | Called (CallReport issue) :: rest => issue :: reported rest
  | _ :: rest => reported rest
  end.

(** The rules handed to [AddRule] in a run, in call order. *)
Fixpoint registered (events : list Event) : list R :=
  match events with
  | [] => []
  | Called (CallAddRule rule) :: rest => rule :: registered rest
  | _ :: rest => registered rest
  end.

(** The method calls made in a run, in call order. *)
Fixpoint calls (events : list Event) : list (Call R) :=
  match events with
  | [] => []
  | Called call :: rest => call :: calls rest
  | Invoked _ _ _ :: rest => calls rest
  end.

Definition is_report (call : Call R) : bool :=
  match call with
  | CallReport _ => true
  | CallAddRule _ => false
  end.

(** A rule whose callbacks call no method but [Report]. *)
Definition reports_only (rule : R) : Prop :=
  forall phase visitFn view node,
    callback phase rule = Some visitFn ->
    forallb is_report (visitFn rule view node) = true.

(** The nodes of a tree in the order [WalkTree] enters them. *)
Fixpoint preorder (node : SitterNode) : list SitterNode :=
  match node with
  | MkNode _ _ children => node :: flat_map preorder children
  end.

(** The walk of a list of siblings, left to right: the inner loop of
    [WalkTree]. *)
Fixpoint walk_all (nodes : list SitterNode) (walker : Analyzer) : Run :=
  match nodes with
  | [] => (walker, [])
  | child :: rest => andThen (WalkTree child walker) (walk_all rest)
  end.

(** The index holds, for every phase and node type, the registered rules
    interested in it, in registration order. *)
Definition indexed (ana : Analyzer) : Prop :=
  forall phase typ,
    index_get (index_of phase ana) typ = List.filter (interested phase typ) (rules ana).

(** A run replays on its start: the analyzer it ends in is the start after
    the method calls of its events, in order. *)
Definition replays (run : Run) (start : Analyzer) : Prop :=
  fst run = fold_left perform (calls (snd run)) start.

(** Two analyzers that differ at most in their rule list: they hold the
    same exported fields, the same index and the same issues. *)
Definition same_dispatch (a b : Analyzer) : Prop :=
  exported a = exported b
  /\ entryRulesForNode a = entryRulesForNode b
  /\ exitRulesForNode a = exitRulesForNode b
  /\ issuesRaised a = issuesRaised b.

(** Two runs that emit the same events and end in such analyzers. *)
Definition same_runs (first second : Run) : Prop :=
  snd first = snd second /\ same_dispatch (fst first) (fst second).

(** The invocations a walk over [nodes] owes to the registered rules
    [rules0]: node by node, every rule interested in the node's type, in
    registration order. *)
Definition visits (phase : Phase) (rules0 : list R) (nodes : list SitterNode)
    : list (R * SitterNode) :=
  flat_map (fun node =>
    map (fun rule => (rule, node)) (List.filter (interested phase (Type_ node)) rules0)) nodes.

Definition nodes_of_type (typ : string) (nodes : list SitterNode) : nat :=
  length (List.filter (fun node => String.eqb (Type_ node) typ) nodes).

(** Counting needs to tell rules apart; Go compares interface values. *)
Context `{EqDecision R}.

Definition registrations (rule : R) (rules0 : list R) : nat :=
  length (List.filter (fun rule' => bool_decide (rule' = rule)) rules0).

Definition times_invoked (rule : R) (invoked : list (R * SitterNode)) : nat :=
  length (List.filter (fun p => bool_decide (fst p = rule)) invoked).

(** A host program: a sequence of calls of the analyzer's methods. *)
Inductive Op : Type :=
| OpAddRule (rule : R)
| OpReport (issue : Issue)
| OpOnEnterNode (node : SitterNode)
| OpOnLeaveNode (node : SitterNode)
| OpAnalyze.

Definition exec (op : Op) (ana : Analyzer) : Run :=
  match op with
  | OpAddRule rule => (AddRule ana rule, [Called (CallAddRule rule)])
  | OpReport issue => (Report ana issue, [Called (CallReport issue)])
  | OpOnEnterNode node => snd (OnEnterNode ana node)
  | OpOnLeaveNode node => OnLeaveNode ana node
  | OpAnalyze => snd (Analyze ana)
  end.

Fixpoint execs (ops : list Op) (ana : Analyzer) : Run :=
  match ops with
  | [] => (ana, [])
  | op :: rest => andThen (exec op ana) (execs rest)
  end.

(** The nodes a host program enters, in order, on an analyzer bound to
    [file]: the node of each [OnEnterNode] call and, for [Analyze], the nodes
    of the bound tree in walk order. *)
Definition entered (file : ParseResult) (ops : list Op) : list SitterNode :=
  flat_map (fun op =>
    match op with
    | OpOnEnterNode node => [node]
    | OpAnalyze => preorder (Ast file)
    | _ => []
    end) ops.

Definition adds_no_rule (op : Op) : bool :=
  match op with
  | OpAddRule _ => false
  | _ => true
  end.

(** The nodes of a tree in the order [WalkTree] leaves them. *)
Fixpoint postorder (node : SitterNode) : list SitterNode :=
  match node with
  | MkNode _ _ children => flat_map postorder children ++ [node]
  end.

(** The nodes a host program leaves, in order, on an analyzer bound to
    [file]. *)
Definition left_ (file : ParseResult) (ops : list Op) : list SitterNode :=
  flat_map (fun op =>
    match op with
    | OpOnLeaveNode node => [node]
    | OpAnalyze => postorder (Ast file)
    | _ => []
    end) ops.

(** The index stores, for every phase and node type, the registered rules
    interested in it when there are any, and no key otherwise. *)
Definition tight (ana : Analyzer) : Prop :=
  forall phase typ,
    index_of phase ana !! typ =
    match List.filter (interested phase typ) (rules ana) with
    | [] => None
    | bucket => Some bucket
    end.


(** What one dispatch over [bucket] emits when each callback is applied to
    its rule, to the exported fields [view] of the analyzer and to [node]:
    rule by rule, the invocation followed by the method calls the callback
    makes there. *)
Definition bucket_events (phase : Phase) (view : Exported) (bucket : list R)
    (node : SitterNode) : list Event :=
  flat_map (fun rule =>
    match callback phase rule with
    | Some visitFn => Invoked phase rule node :: map Called (visitFn rule view node)
    | None => []
    end) bucket.

(** The same for the registered rules [rules0]: those interested in the
    type of [node], in registration order. *)
Definition node_events (phase : Phase) (rules0 : list R) (view : Exported)
    (node : SitterNode) : list Event :=
  bucket_events phase view (List.filter (interested phase (Type_ node)) rules0) node.

(** What a walk of the tree under [node] emits when the registered rules
    stay [rules0]: the on-enter callbacks on the node, the walks of its
    children from left to right, the on-exit callbacks on the node. *)
Fixpoint walk_events (rules0 : list R) (view : Exported) (node : SitterNode) : list Event :=
  match node with
  | MkNode _ _ children =>
      node_events Enter rules0 view node
        ++ flat_map (walk_events rules0 view) children
        ++ node_events Leave rules0 view node
  end.

(** What one call of a host program emits on an analyzer bound to [file]
    whose registered rules stay [rules0]. *)
Definition op_events (rules0 : list R) (file : ParseResult) (op : Op) : list Event :=
  let view := {| Exported_Language := ParseResult_Language file;
                 Exported_ParseResult := file |} in
  match op with
  | OpAddRule rule => [Called (CallAddRule rule)]
  | OpReport issue => [Called (CallReport issue)]
  | OpOnEnterNode node => node_events Enter rules0 view node
  | OpOnLeaveNode node => node_events Leave rules0 view node
  | OpAnalyze => walk_events rules0 view (Ast file)
  end.

(** A log in which every invocation is explained by an application: the
    invoked rule defines the callback of that phase and declares the type of
    the node, and the invocation is followed at once by the method calls that
    callback makes when applied to the rule, to [view] and to the node.  The
    calls between two applications are the host's. *)
Inductive explained (view : Exported) : list Event -> Prop :=
| explained_nil : explained view []
| explained_host (call : Call R) (rest : list Event) :
    explained view rest -> explained view (Called call :: rest)
| explained_apply (phase : Phase) (rule : R) (node : SitterNode) (visitFn : VisitFn R)
    (rest : list Event) :
    callback phase rule = Some visitFn ->
    NodeType rule = Type_ node ->
    explained view rest ->
    explained view (Invoked phase rule node :: map Called (visitFn rule view node) ++ rest).

End Package.

(* ===================================================================== *)
(** * Rules with state *)
(* ===================================================================== *)

(** The analyzer above takes the methods and the callbacks of a rule as
    functions of their arguments.  A Go rule is any value with the three
    methods: a method or a callback may read and change the state of the
    program outside the analyzer (fields behind the rule's pointer, captured
    variables), so [rule.OnEnter()] may answer differently at registration
    and at dispatch, and the pointer it answers may point to a func value
    that is nil.  This module embeds the analyzer once more for such rules.
    [W] is the state outside the analyzer; every method and every callback
    takes it and returns it; a call of the nil func is a fault, [None]. *)
Module Stateful.

Section Package.

Context {ScopeTree : Type} {W : Type}.

(** What a callback does, step by step: it returns, leaving the state [w]
    outside the analyzer, or it calls a method of the analyzer, [Report] or
    [AddRule], in the state [w] and goes on from the state in which the call
    returns ([AddRule] calls the methods of the rule it is handed). *)
Inductive Action (R : Type) : Type :=
| Return (w : W)
| Perform (call : Call R) (w : W) (next : W -> Action R).
Arguments Return {R} w.
Arguments Perform {R} call w next.

(** [VisitFn]: from the rule, the exported fields of the analyzer, the node
    and the state in which it is called, what the callback does. *)
Definition VisitFn (R : Type) : Type :=
  R -> Exported (ScopeTree := ScopeTree) -> SitterNode -> W -> Action R.

(** The [Rule] interface.  [OnEnter] and [OnLeave] answer a pointer to a
    [VisitFn]: [None] is the nil pointer, [Some None] a pointer to the nil
    func, [Some (Some f)] a pointer to the function [f]. *)
Class Rule (R : Type) : Type := {
  NodeType : R -> W -> string * W;
  OnEnter : R -> W -> option (option (VisitFn R)) * W;
  OnLeave : R -> W -> option (option (VisitFn R)) * W
}.

Context {R : Type} `{Rule R}.

Local Abbreviation Analyzer := (@Analyzer ScopeTree R).

Implicit Types (ana : Analyzer).

(** [func (ana *Analyzer) AddRule(rule Rule)] *)
Definition AddRule ana (rule : R) (w : W) : Analyzer * W :=
  let ana := set_rules (rules ana ++ [rule]) ana in
  let typ := NodeType rule w in
  let enter := OnEnter rule (snd typ) in
  let ana :=
    match fst enter with
    | Some _ =>
        set_entryRulesForNode
          (<[fst typ := index_get (entryRulesForNode ana) (fst typ) ++ [rule]]>
             (entryRulesForNode ana)) ana
    | None => ana
    end in
  let leave := OnLeave rule (snd enter) in
  let ana :=
    match fst leave with
    | Some _ =>
        set_exitRulesForNode
          (<[fst typ := index_get (exitRulesForNode ana) (fst typ) ++ [rule]]>
             (exitRulesForNode ana)) ana
    | None => ana
    end in
  (ana, snd leave).

(** [func NewAnalyzer(file *ParseResult, rules []Rule)] *)
Definition NewAnalyzer (file : ParseResult) (rules0 : list R) (w : W) : Analyzer * W :=
  let ana := {|
    Analyzer_Language := ParseResult_Language file;
    Analyzer_ParseResult := file;
    rules := [];
    entryRulesForNode := ∅;
    exitRulesForNode := ∅;
    issuesRaised := []
  |} in
  fold_left (fun st rule => AddRule (fst st) rule (snd st)) rules0 (ana, w).

(** What a run leaves behind for an observer: a callback was invoked, the
    nil test of a dispatch loop failed for a rule, a callback called a
    method of the analyzer. *)
Inductive Event : Type :=
| Invoked (phase : Phase) (rule : R) (node : SitterNode)
| Skipped (phase : Phase) (rule : R) (node : SitterNode)
| Called (call : Call R).

(** A run: the analyzer and the outside state it ends in and the events it
    emitted, oldest first; [None] when it faulted. *)
Definition Run : Type := option ((Analyzer * W) * list Event).

Definition andThen (first : Run) (next : Analyzer -> W -> Run) : Run :=
  match first with
  | None => None
  | Some (st, events) =>
      match next (fst st) (snd st) with
      | None => None
      | Some (st', events') => Some (st', events ++ events')
      end
  end.

(** One method call made by a callback. *)
Definition perform (st : Analyzer * W) (call : Call R) : Analyzer * W :=
  match call with
  | CallReport issue => (Report (fst st) issue, snd st)
  | CallAddRule rule => AddRule (fst st) rule (snd st)
  end.

(** The run of a callback on the analyzer: the analyzer and the state it
    ends in and the method calls it made, in order. *)
Fixpoint act (action : Action R) ana : (Analyzer * W) * list (Call R) :=
  match action with
  | Return w => ((ana, w), [])
  | Perform call w next =>
      let st := perform (ana, w) call in
      let rest := act (next (snd st)) (fst st) in
      (fst rest, call :: snd rest)
  end.

(** The call through the pointer [visitFn], which is not nil, on [rule],
    [ana] and [node]: [fn] is the func value the pointer points to, and
    calling the nil func is a fault. *)
Definition invoke (phase : Phase) (fn : option (VisitFn R)) (rule : R) ana
    (node : SitterNode) (w : W) : Run :=
  match fn with
  | None => None
  | Some f =>
      let out := act (f rule (exported ana) node w) ana in
      Some (fst out, Invoked phase rule node :: map Called (snd out))
  end.

(** [for _, rule := range rules { body }] *)
Fixpoint range_loop (body : R -> Analyzer -> W -> Run) (rules0 : list R) ana (w : W) : Run :=
  match rules0 with
  | [] => Some ((ana, w), [])
  | rule :: rest => andThen (body rule ana w) (range_loop body rest)
  end.

(** [func (ana *Analyzer) OnEnterNode(node *sitter.Node) bool]; the result
    is [true] whenever the call returns. *)
Definition OnEnterNode ana (node : SitterNode) (w : W) : option bool * Run :=
  let nodeType := Type_ node in
  let rules0 := index_get (entryRulesForNode ana) nodeType in
  let run :=
    range_loop (fun rule ana w =>
      let visitFn := OnEnter rule w in
      match fst visitFn with
      | Some fn => invoke Enter fn rule ana node (snd visitFn)
      | None => Some ((ana, snd visitFn), [Skipped Enter rule node])
      end) rules0 ana w in
  (match run with Some _ => Some true | None => None end, run).

(** [func (ana *Analyzer) OnLeaveNode(node *sitter.Node)] *)
Definition OnLeaveNode ana (node : SitterNode) (w : W) : Run :=
  let nodeType := Type_ node in
  let rules0 := index_get (exitRulesForNode ana) nodeType in
  range_loop (fun rule ana w =>
    let visitFn := OnLeave rule w in
    match fst visitFn with
    | Some fn => invoke Leave fn rule ana node (snd visitFn)
    | None => Some ((ana, snd visitFn), [Skipped Leave rule node])
    end) rules0 ana w.

(** Modelled from the spec: [WalkTree], as above (section 4.4: on-enter once
    per node before its children, which are visited left to right when it
    answers true; on-leave once per node after them). *)
Fixpoint WalkTree (node : SitterNode) (walker : Analyzer) (w : W) : Run :=
  match node with
  | MkNode _ _ children =>
      let entered := OnEnterNode walker node w in
      let inside :=
        match fst entered with
        | Some true =>
            andThen (snd entered)
              ((fix walkChildren (cs : list SitterNode) (a : Analyzer) (w : W) : Run :=
                  match cs with
                  | [] => Some ((a, w), [])
                  | child :: cs' => andThen (WalkTree child a w) (walkChildren cs')
                  end) children)
        | _ => snd entered
        end in
      andThen inside (fun a w => OnLeaveNode a node w)
  end.

(** [func (ana *Analyzer) Analyze() []*Issue]: the returned slice, with the
    run of the walk. *)
Definition Analyze ana (w : W) : option (list Issue * ((Analyzer * W) * list Event)) :=
  match WalkTree (Ast (Analyzer_ParseResult ana)) ana w with
  | Some run => Some (issuesRaised (fst (fst run)), run)
  | None => None
  end.

(** ** Vocabulary of the statements *)

Definition callback (phase : Phase) (rule : R) (w : W) : option (option (VisitFn R)) * W :=
  match phase with
  | Enter => OnEnter rule w
  | Leave => OnLeave rule w
  end.

(** The loop shared by [OnEnterNode] and [OnLeaveNode], by phase. *)
Definition dispatch (phase : Phase) ana (node : SitterNode) (w : W) : Run :=
  range_loop (fun rule ana w =>
    let visitFn := callback phase rule w in
    match fst visitFn with
    | Some fn => invoke phase fn rule ana node (snd visitFn)
    | None => Some ((ana, snd visitFn), [Skipped phase rule node])
    end) (index_get (index_of phase ana) (Type_ node)) ana w.

(** The walk of a list of siblings, left to right: the inner loop of
    [WalkTree]. *)
Fixpoint walk_all (nodes : list SitterNode) (walker : Analyzer) (w : W) : Run :=
  match nodes with
  | [] => Some ((walker, w), [])
  | child :: rest => andThen (WalkTree child walker w) (walk_all rest)
  end.

(** The analyzers built only through [NewAnalyzer], [AddRule] and
    [Report], in whatever state of the program the calls are made. *)
Inductive built : Analyzer -> Prop :=
| built_NewAnalyzer (file : ParseResult) (rules0 : list R) (w : W) :
    built (fst (NewAnalyzer file rules0 w))
| built_AddRule ana (rule : R) (w : W) :
    built ana -> built (fst (AddRule ana rule w))
| built_Report ana (issue : Issue) :
    built ana -> built (Report ana issue).

(** The nil test of a dispatch loop failed at least once in a run. *)
Definition guard_taken (events : list Event) : Prop :=
  exists phase rule node, In (Skipped phase rule node) events.

(** A run that, if it returns, ends in a built analyzer and never took the
    branch of a nil test. *)
Definition clean (run : Run) : Prop :=
  forall out, run = Some out -> built (fst (fst out)) /\ ~ guard_taken (snd out).

(** A rule whose [OnEnter] and [OnLeave] answer nil at every call or at
    none. *)
Definition steady (rule : R) : Prop :=
  forall phase w w',
    is_Some (fst (callback phase rule w)) -> is_Some (fst (callback phase rule w')).

(** A rule none of whose answers is a pointer to the nil func. *)
Definition sound (rule : R) : Prop :=
  forall phase w, fst (callback phase rule w) <> Some None.

(** The state of the program in which [AddRule] asks the rule for its
    callback of [phase]: after [NodeType] for on-enter, after [NodeType] and
    [OnEnter] for on-exit. *)
Definition asked_in (phase : Phase) (rule : R) (w : W) : W :=
  match phase with
  | Enter => snd (NodeType rule w)
  | Leave => snd (OnEnter rule (snd (NodeType rule w)))
  end.

(** Every rule in a bucket answers the callback of the bucket's phase with
    a pointer that is not nil, in every state of the program. *)
Definition answering ana : Prop :=
  forall phase typ rule,
    In rule (index_get (index_of phase ana) typ) ->
    forall w, is_Some (fst (callback phase rule w)).

End Package.

Arguments Return {W R} w.
Arguments Perform {W R} call w next.

End Stateful.

(** ** Rules that keep no state *)

Section Stateless.

Context {ScopeTree : Type} {W : Type} {R : Type}.
Context (pure : Rule (ScopeTree := ScopeTree) R).
Context (impure : Stateful.Rule (ScopeTree := ScopeTree) (W := W) R).

(** An event of a run with function rules, as an event of a run with rules
    with state. *)
Definition with_skips (event : Event (R := R)) : Stateful.Event (R := R) :=
  match event with
  | Invoked phase rule node => Stateful.Invoked phase rule node
  | Called call => Stateful.Called call
  end.

(** In the state [w], the action makes the method calls [calls], in order,
    as long as each call returns in the state [w], and then returns in that
    state. *)
Inductive plays (w : W) : list (Call R) -> Stateful.Action (W := W) R -> Prop :=
| plays_Return : plays w [] (Stateful.Return w)
| plays_Perform (call : Call R) (calls : list (Call R))
    (next : W -> Stateful.Action (W := W) R) :
    plays w calls (next w) -> plays w (call :: calls) (Stateful.Perform call w next).

(** The callback [g] is the function [f] of its arguments: it makes the
    method calls [f] lists and leaves the state as it is. *)
Definition same_callback (f : VisitFn (ScopeTree := ScopeTree) R)
    (g : Stateful.VisitFn (ScopeTree := ScopeTree) (W := W) R) : Prop :=
  forall rule view node w, plays w (f rule view node) (g rule view node w).

(** The pointer [q] is nil when [p] is, and otherwise points to a callback
    that is the function [p] points to. *)
Definition same_pointer (p : option (VisitFn (ScopeTree := ScopeTree) R))
    (q : option (option (Stateful.VisitFn (ScopeTree := ScopeTree) (W := W) R))) : Prop :=
  match p, q with
  | None, None => True
  | Some f, Some (Some g) => same_callback f g
  | _, _ => False
  end.

(** The rule keeps no state: in every state of the program its methods
    answer what the methods of [pure] answer, its callbacks are the
    callbacks of [pure], and neither changes the state. *)
Definition keeps_no_state (rule : R) : Prop :=
  forall w,
    Stateful.NodeType rule w = (NodeType rule, w)
    /\ snd (Stateful.OnEnter rule w) = w
    /\ same_pointer (OnEnter rule) (fst (Stateful.OnEnter rule w))
    /\ snd (Stateful.OnLeave rule w) = w
    /\ same_pointer (OnLeave rule) (fst (Stateful.OnLeave rule w)).

(** A run with function rules, as a run with rules with state that ends in
    the state [w]. *)
Definition in_state (w : W) (run : Run (ScopeTree := ScopeTree) (R := R))
    : Stateful.Run (ScopeTree := ScopeTree) (W := W) (R := R) :=
  Some ((fst run, w), map with_skips (snd run)).

End Stateless.

(** The action that makes the method calls [calls], in order, and does
    nothing else to the state. *)
Fixpoint script {W R : Type} (calls : list (Call R)) (w : W) : Stateful.Action (W := W) R :=
  match calls with
  | [] => Stateful.Return w
  | call :: rest => Stateful.Perform call w (script rest)
  end.

(** A rule with function methods, as a rule with state that it ignores. *)
Definition without_state {ScopeTree : Type} (W : Type) {R : Type}
    (pure : Rule (ScopeTree := ScopeTree) R)
    : Stateful.Rule (ScopeTree := ScopeTree) (W := W) R := {|
  Stateful.NodeType := fun rule w => (NodeType rule, w);
  Stateful.OnEnter := fun rule w =>
    (option_map (fun f => Some (fun rule' view node => script (f rule' view node)))
       (OnEnter rule), w);
  Stateful.OnLeave := fun rule w =>
    (option_map (fun f => Some (fun rule' view node => script (f rule' view node)))
       (OnLeave rule), w)
|}.

(* ===================================================================== *)
(** * A concrete rule type, to run the definitions on *)
(* ===================================================================== *)

(** A rule that reports one issue, labelled with its name, at every node it
    is called on.  [sample_enter] and [sample_leave] say which callbacks it
    defines. *)
Record SampleRule : Type := {
  sample_name : string;
  sample_type : string;
  sample_enter : bool;
  sample_leave : bool
}.

#[export] Instance SampleRule_eq_dec : EqDecision SampleRule.
Proof. solve_decision. Defined.

Definition sample_issue (rule : SampleRule) (node : SitterNode) : Issue := {|
  Message := sample_name rule;
  Issue_Range := Range_ node;
  Issue_Node := Some node
|}.

Definition sample_visit : VisitFn (ScopeTree := unit) SampleRule :=
  fun rule _ node => [CallReport (sample_issue rule node)].

#[export] Instance SampleRule_Rule : Rule (ScopeTree := unit) SampleRule := {|
  NodeType := sample_type;
  OnEnter := fun rule => if sample_enter rule then Some sample_visit else None;
  OnLeave := fun rule => if sample_leave rule then Some sample_visit else None
|}.

Definition leaf (typ : string) (at_ : N) : SitterNode :=
  MkNode typ {| StartByte := at_; EndByte := at_ + 1 |} [].

(** A tree with three nodes of type X and five of other types. *)
Definition sample_tree : SitterNode :=
  MkNode "module" {| StartByte := 0; EndByte := 8 |}
    [ leaf "X" 0;
      MkNode "block" {| StartByte := 1; EndByte := 6 |}
        [ leaf "Y" 1; MkNode "X" {| StartByte := 2; EndByte := 5 |} [ leaf "Z" 2; leaf "X" 3 ] ];
      leaf "Y" 6 ].

Definition sample_file : ParseResult (ScopeTree := unit) := {|
  Ast := sample_tree;
  Source := [];
  FilePath := "sample.py";
  TsLanguage := Some treeSitterPy;
  ParseResult_Language := LangPy;
  ParseResult_ScopeTree := None
|}.

Definition rule_x : SampleRule :=
  {| sample_name := "on X"; sample_type := "X"; sample_enter := true; sample_leave := false |}.

Definition rule_y : SampleRule :=
  {| sample_name := "around Y"; sample_type := "Y"; sample_enter := true; sample_leave := true |}.

Definition rule_inert : SampleRule :=
  {| sample_name := "inert"; sample_type := "X"; sample_enter := false; sample_leave := false |}.

(** Collaborators for the parse pipeline: a parser that accepts everything
    but the empty source, no scope support, and a file system holding two
    files, one of them empty. *)
Definition sample_ParseCtx (source : bytes) (grammar : option SitterLanguage)
    : SitterNode + error :=
  match source with
  | [] => inr (ErrorString "empty source")
  | _ => inl sample_tree
  end.

Definition sample_MakeScopeTree (language : Language) (ast : SitterNode) (source : bytes)
    : option unit := None.

Definition sample_ReadFile (path : string) : bytes + error :=
  if String.eqb path "present.py" then inl [Byte.x70]
  else if String.eqb path "empty.py" then inl []
  else inr (ErrorString "no such file").

(** A rule whose on-enter callback registers the rule once more. *)
Record GrowingRule : Type := {
  growing_type : string
}.

#[export] Instance GrowingRule_eq_dec : EqDecision GrowingRule.
Proof. solve_decision. Defined.

#[export] Instance GrowingRule_Rule : Rule (ScopeTree := unit) GrowingRule := {|
  NodeType := growing_type;
  OnEnter := fun _ => Some (fun rule _ _ => [CallAddRule rule]);
  OnLeave := fun _ => None
|}.

Definition growing_x : GrowingRule := {| growing_type := "X" |}.

(** Two sibling nodes of type X under a root of another type. *)
Definition twin_tree : SitterNode :=
  MkNode "module" {| StartByte := 0; EndByte := 2 |} [ leaf "X" 0; leaf "X" 1 ].

Definition twin_file : ParseResult (ScopeTree := unit) := {|
  Ast := twin_tree;
  Source := [];
  FilePath := "twin.py";
  TsLanguage := Some treeSitterPy;
  ParseResult_Language := LangPy;
  ParseResult_ScopeTree := None
|}.

(** Two rules on X with state, [W] counting the calls of [OnEnter]: one
    answers its on-enter callback the first time it is asked and nil from
    then on; the other answers a pointer to the nil func. *)
Inductive OddRule : Type :=
| flaky_x
| hollow_x.

#[export] Instance OddRule_Rule : Stateful.Rule (ScopeTree := unit) (W := nat) OddRule := {|
  Stateful.NodeType := fun _ asked => ("X", asked);
  Stateful.OnEnter := fun rule asked =>
    match rule with
    | flaky_x =>
        (if Nat.eqb asked 0 then Some (Some (fun _ _ _ w => Stateful.Return w)) else None,
         S asked)
    | hollow_x => (Some None, asked)
    end;
  Stateful.OnLeave := fun _ asked => (None, asked)
|}.

(** A rule whose on-enter callback reports the first node it is called on
    and nothing after that: [W] says whether it has reported. *)
Record OnceRule : Type := {
  once_type : string
}.

Definition once_visit : Stateful.VisitFn (ScopeTree := unit) (W := bool) OnceRule :=
  fun _ _ node seen =>
    if seen then Stateful.Return seen
    else Stateful.Perform
           (CallReport {| Message := "first"; Issue_Range := Range_ node;
                          Issue_Node := Some node |})
           true Stateful.Return.

#[export] Instance OnceRule_Rule : Stateful.Rule (ScopeTree := unit) (W := bool) OnceRule := {|
  Stateful.NodeType := fun rule seen => (once_type rule, seen);
  Stateful.OnEnter := fun _ seen => (Some (Some once_visit), seen);
  Stateful.OnLeave := fun _ seen => (None, seen)
|}.

Definition once_x : OnceRule := {| once_type := "X" |}.

(* ===================================================================== *)
(** * Facts: language registry *)
(* ===================================================================== *)

Example ext_plain : Ext "src/main.py" = ".py".
Proof. reflexivity. Qed.

Example ext_dot_in_directory : Ext "pkg.v2/README" = EmptyString.
Proof. reflexivity. Qed.

Example ext_last_dot_wins : Ext "a/b.test.tsx" = ".tsx".
Proof. reflexivity. Qed.

Example lang_upper_case_unknown : LanguageFromFilePath "Main.PY" = LangUnknown.
Proof. reflexivity. Qed.

Lemma list_ascii_of_string_app (s t : string) :
  list_ascii_of_string (s +:+ t) = list_ascii_of_string s ++ list_ascii_of_string t.
Proof.
  induction s as [|c s IH]; simpl; [reflexivity | now rewrite IH].
Qed.

(** The extension of [stem ++ suffix] is computed on the reversed suffix
    alone as soon as the scan stops inside it. *)
Lemma Ext_app (stem suffix : string) :
  Ext (stem +:+ suffix) =
  ext_loop (rev (list_ascii_of_string suffix) ++ rev (list_ascii_of_string stem)) [].
Proof.
  unfold Ext. now rewrite list_ascii_of_string_app, rev_app_distr.
Qed.

Lemma LanguageFromFilePath_table (path : string) :
  LanguageFromFilePath path = resolveLanguage_spec (Ext path).
Proof.
  unfold LanguageFromFilePath, resolveLanguage_spec, extension_table. simpl.
  destruct (String.eqb (Ext path) ".py"); [reflexivity|].
  destruct (String.eqb (Ext path) ".js"); [reflexivity|].
  destruct (String.eqb (Ext path) ".jsx"); [reflexivity|].
  destruct (String.eqb (Ext path) ".ts"); [reflexivity|].
  destruct (String.eqb (Ext path) ".tsx"); reflexivity.
Qed.

Lemma table_lookup_miss (table : list (string * Language)) (ext : string) :
  ~ In ext (map fst table) -> table_lookup table ext = LangUnknown.
Proof.
  induction table as [|[e lang] rest IH]; simpl; intros Hnot; [reflexivity|].
  destruct (String.eqb_spec ext e) as [->|Hne].
  - exfalso. apply Hnot. now left.
  - apply IH. intros Hin. apply Hnot. now right.
Qed.

(** C4. The language of a path is the table entry of its extension: a path
    ending in .py is Python, in .js or .jsx JavaScript, in .ts TypeScript, in
    .tsx TypeScript with JSX; an extension outside the table gives Unknown;
    two paths with the same extension get the same language; the result is a
    function of the path alone (no file system, no parser takes part); and
    Unknown has no grammar. *)
Theorem language_resolution_by_extension (path : string) :
  LanguageFromFilePath path = resolveLanguage_spec (Ext path)
  /\ LanguageFromFilePath (path +:+ ".py") = LangPy
  /\ LanguageFromFilePath (path +:+ ".js") = LangJs
  /\ LanguageFromFilePath (path +:+ ".jsx") = LangJs
  /\ LanguageFromFilePath (path +:+ ".ts") = LangTs
  /\ LanguageFromFilePath (path +:+ ".tsx") = LangTsx
  /\ (~ In (Ext path) [".py"; ".js"; ".jsx"; ".ts"; ".tsx"] ->
      LanguageFromFilePath path = LangUnknown)
  /\ (forall other, Ext other = Ext path ->
      LanguageFromFilePath other = LanguageFromFilePath path)
  /\ Grammar LangUnknown = None.
Proof.
  split; [apply LanguageFromFilePath_table|].
  repeat split.
  - unfold LanguageFromFilePath. now rewrite Ext_app.
  - unfold LanguageFromFilePath. now rewrite Ext_app.
  - unfold LanguageFromFilePath. now rewrite Ext_app.
  - unfold LanguageFromFilePath. now rewrite Ext_app.
  - unfold LanguageFromFilePath. now rewrite Ext_app.
  - intros Hother. rewrite LanguageFromFilePath_table.
    apply table_lookup_miss. exact Hother.
  - intros other Hext. unfold LanguageFromFilePath. now rewrite Hext.
Qed.

(** C5. TypeScript and TypeScript with JSX get different grammars; JavaScript
    gets the grammar of TypeScript with JSX. *)
Theorem grammar_ts_tsx_distinct_js_shared :
  Grammar LangTs <> Grammar LangTsx
  /\ Grammar LangJs = Grammar LangTsx
  /\ Grammar LangTs = Some treeSitterTs
  /\ Grammar LangTsx = Some treeSitterTsx.
Proof.
  repeat split. discriminate.
Qed.

(** ** The final path element decides *)

Lemma IsPathSeparator_false (c : ascii) : c <> "/"%char -> IsPathSeparator c = false.
Proof. intros Hne. unfold IsPathSeparator. now apply Ascii.eqb_neq. Qed.

(** A scan that meets a separator before it runs out gives what the scan of
    the part before the separator gives. *)
Lemma ext_loop_stops_at_separator (scanned rest after : list ascii) :
  ~ In "/"%char scanned ->
  ext_loop (scanned ++ "/"%char :: rest) after = ext_loop scanned after.
Proof.
  revert after. induction scanned as [|c scanned IH]; intros after Hno; simpl.
  - reflexivity.
  - rewrite IsPathSeparator_false by (intros ->; apply Hno; now left).
    destruct (Ascii.eqb c "."%char); [reflexivity|].
    apply IH. intros Hin. apply Hno. now right.
Qed.

Lemma ext_loop_no_dot (scanned after : list ascii) :
  ~ In "."%char scanned -> ext_loop scanned after = EmptyString.
Proof.
  revert after. induction scanned as [|c scanned IH]; intros after Hno; simpl.
  - reflexivity.
  - destruct (IsPathSeparator c); [reflexivity|].
    destruct (Ascii.eqb_spec c "."%char) as [->|Hne].
    + exfalso. apply Hno. now left.
    + apply IH. intros Hin. apply Hno. now right.
Qed.

Lemma rev_path (dir name : string) :
  rev (list_ascii_of_string (dir +:+ "/" +:+ name))
  = rev (list_ascii_of_string name) ++ "/"%char :: rev (list_ascii_of_string dir).
Proof.
  rewrite !list_ascii_of_string_app, rev_app_distr. simpl.
  now rewrite <- app_assoc.
Qed.

Lemma Ext_final_element (dir name : string) :
  ~ In "/"%char (list_ascii_of_string name) ->
  Ext (dir +:+ "/" +:+ name) = Ext name.
Proof.
  intros Hno. unfold Ext. rewrite rev_path.
  apply ext_loop_stops_at_separator. intros Hin. apply Hno. now apply in_rev in Hin.
Qed.

(** X1. The language of a path is the language of its final element: what
    stands before the last separator, dots included, plays no part. *)
Theorem language_of_final_element (dir name : string) :
  ~ In "/"%char (list_ascii_of_string name) ->
  Ext (dir +:+ "/" +:+ name) = Ext name
  /\ LanguageFromFilePath (dir +:+ "/" +:+ name) = LanguageFromFilePath name.
Proof.
  intros Hno. pose proof (Ext_final_element dir name Hno) as Hext.
  split; [exact Hext|]. unfold LanguageFromFilePath. now rewrite Hext.
Qed.

(** X2. A path whose final element holds no dot has the empty extension and
    the language Unknown, whatever its directories are called; so does a path
    with no dot at all. *)
Theorem language_unknown_without_dot (dir name : string) :
  ~ In "."%char (list_ascii_of_string name) ->
  Ext name = EmptyString
  /\ LanguageFromFilePath name = LangUnknown
  /\ LanguageFromFilePath (dir +:+ "/" +:+ name) = LangUnknown
  /\ Grammar (LanguageFromFilePath (dir +:+ "/" +:+ name)) = None.
Proof.
  intros Hno.
  assert (Hname : Ext name = EmptyString).
  { unfold Ext. apply ext_loop_no_dot. intros Hin. apply Hno. now apply in_rev in Hin. }
  assert (Hpath : Ext (dir +:+ "/" +:+ name) = EmptyString).
  { unfold Ext. rewrite rev_path.
    set (scanned := rev (list_ascii_of_string name)).
    assert (Hscan : ~ In "."%char scanned)
      by (intros Hin; apply Hno; now apply in_rev in Hin).
    clearbody scanned. revert Hscan. generalize (@nil ascii).
    induction scanned as [|c scanned IH]; intros after Hscan; simpl; [reflexivity|].
    destruct (IsPathSeparator c); [reflexivity|].
    destruct (Ascii.eqb_spec c "."%char) as [->|Hne].
    - exfalso. apply Hscan. now left.
    - apply IH. intros Hin. apply Hscan. now right. }
  unfold LanguageFromFilePath. rewrite Hname, Hpath. now repeat split.
Qed.

(* ===================================================================== *)
(** * Facts: parse pipeline *)
(* ===================================================================== *)

Section ParseFacts.

Context {ScopeTree : Type}.
Variable MakeScopeTree : Language -> SitterNode -> bytes -> option ScopeTree.
Variable ParseCtx : bytes -> option SitterLanguage -> SitterNode + error.
Variable ReadFile : string -> bytes + error.

(** C7. [Parse] returns the error "failed to parse <filePath>" exactly when
    the parsing engine fails on the source, and then returns no ParseResult;
    when the engine answers with a root, [Parse] returns no error and a
    ParseResult holding that root, the source, the path, the grammar, the
    language and the scope tree that [MakeScopeTree] gives for the language,
    the root and the source. *)
Theorem parse_error_iff_engine_fails (filePath : string) (source : bytes)
    (language : Language) (grammar : option SitterLanguage) :
  ((exists err, ParseCtx source grammar = inr err) <->
     snd (Parse MakeScopeTree ParseCtx filePath source language grammar)
       = Some (ErrorString ("failed to parse " +:+ filePath)))
  /\ ((exists err, ParseCtx source grammar = inr err) <->
        snd (Parse MakeScopeTree ParseCtx filePath source language grammar) <> None)
  /\ (snd (Parse MakeScopeTree ParseCtx filePath source language grammar) <> None ->
        fst (Parse MakeScopeTree ParseCtx filePath source language grammar) = None)
  /\ (forall ast, ParseCtx source grammar = inl ast ->
        Parse MakeScopeTree ParseCtx filePath source language grammar =
          (Some {| Ast := ast;
                   Source := source;
                   FilePath := filePath;
                   TsLanguage := grammar;
                   ParseResult_Language := language;
                   ParseResult_ScopeTree := MakeScopeTree language ast source |},
           None)).
Proof.
  unfold Parse, Errorf.
  destruct (ParseCtx source grammar) as [ast|err]; simpl.
  - repeat split.
    + intros [err Herr]. discriminate.
    + discriminate.
    + intros [err Herr]. discriminate.
    + intros Hsome. now contradiction Hsome.
    + intros Hsome. now contradiction Hsome.
    + intros ast' Hast. now injection Hast as ->.
  - repeat split.
    + intros _. now exists err.
    + intros _. discriminate.
    + intros _. now exists err.
    + intros ast Hast. discriminate.
Qed.

(** C6. [ParseFile] resolves language and grammar from the path first.  With
    no grammar it returns the error "unsupported file type: <filePath>", no
    ParseResult, and has read no file.  With a grammar it reads the file once:
    a failed read is returned as it is, with no ParseResult; a successful
    read is handed to [Parse] with the resolved language and grammar. *)
Theorem parse_file_stages (filePath : string) :
  (Grammar (LanguageFromFilePath filePath) = None ->
     ParseFile MakeScopeTree ParseCtx ReadFile filePath =
       ((None, Some (ErrorString ("unsupported file type: " +:+ filePath))), []))
  /\ (forall grammar err,
        Grammar (LanguageFromFilePath filePath) = Some grammar ->
        ReadFile filePath = inr err ->
        ParseFile MakeScopeTree ParseCtx ReadFile filePath = ((None, Some err), [filePath]))
  /\ (forall grammar source,
        Grammar (LanguageFromFilePath filePath) = Some grammar ->
        ReadFile filePath = inl source ->
        ParseFile MakeScopeTree ParseCtx ReadFile filePath =
          (Parse MakeScopeTree ParseCtx filePath source (LanguageFromFilePath filePath) (Some grammar),
           [filePath])).
Proof.
  unfold ParseFile, Errorf.
  destruct (Grammar (LanguageFromFilePath filePath)) as [g|]; repeat split.
  - discriminate.
  - intros grammar err _ Hread. now rewrite Hread.
  - intros grammar source Hg Hread. injection Hg as ->. now rewrite Hread.
  - intros grammar err Hg. discriminate.
  - intros grammar source Hg. discriminate.
Qed.

(** ** What [ParseFile] reads and returns *)

Lemma language_known_iff_extension (path : string) :
  LanguageFromFilePath path <> LangUnknown
  <-> In (Ext path) [".py"; ".js"; ".jsx"; ".ts"; ".tsx"].
Proof.
  split.
  - intros Hknown.
    destruct (in_dec string_dec (Ext path) [".py"; ".js"; ".jsx"; ".ts"; ".tsx"])
      as [Hin|Hout]; [exact Hin|].
    exfalso. apply Hknown. rewrite LanguageFromFilePath_table.
    now apply table_lookup_miss.
  - unfold LanguageFromFilePath.
    intros [H|[H|[H|[H|[H|[]]]]]]; rewrite <- H; discriminate.
Qed.

Lemma grammar_iff_known (lang : Language) : Grammar lang = None <-> lang = LangUnknown.
Proof. destruct lang; split; intros Heq; try discriminate; reflexivity. Qed.

(** X3. [ParseFile] reads the file system exactly when the extension of the
    path is one of the five it knows, and then reads the given path once and
    nothing else; for every other path it returns the unsupported-file-type
    error without a read. *)
Theorem parse_file_reads_iff_supported (filePath : string) :
  (In (Ext filePath) [".py"; ".js"; ".jsx"; ".ts"; ".tsx"] ->
     snd (ParseFile MakeScopeTree ParseCtx ReadFile filePath) = [filePath])
  /\ (~ In (Ext filePath) [".py"; ".js"; ".jsx"; ".ts"; ".tsx"] ->
        ParseFile MakeScopeTree ParseCtx ReadFile filePath
        = ((None, Some (ErrorString ("unsupported file type: " +:+ filePath))), []))
  /\ (snd (ParseFile MakeScopeTree ParseCtx ReadFile filePath) = []
      <-> ~ In (Ext filePath) [".py"; ".js"; ".jsx"; ".ts"; ".tsx"]).
Proof.
  pose proof (language_known_iff_extension filePath) as Hknown.
  pose proof (grammar_iff_known (LanguageFromFilePath filePath)) as Hgrammar.
  unfold ParseFile, Errorf.
  destruct (Grammar (LanguageFromFilePath filePath)) as [g|] eqn:Hg.
  - assert (Hin : In (Ext filePath) [".py"; ".js"; ".jsx"; ".ts"; ".tsx"]).
    { apply Hknown. intros Hun. apply Hgrammar in Hun. discriminate. }
    destruct (ReadFile filePath); simpl; (split; [reflexivity|]);
      (split; [intros Hout; now contradiction Hout|]);
      (split; [discriminate | intros Hout; now contradiction Hout]).
  - assert (Hout : ~ In (Ext filePath) [".py"; ".js"; ".jsx"; ".ts"; ".tsx"]).
    { intros Hin. apply Hknown in Hin. apply Hin. now apply Hgrammar. }
    simpl. split; [intros Hin; now contradiction Hout|].
    split; [reflexivity|]. split; [intros _; exact Hout | reflexivity].
Qed.

(** X4. Handed a grammar that is not nil, [Parse] returns exactly one of a
    ParseResult and an error: never both, never neither.  So does
    [ParseFile] for every path, because it hands [Parse] no nil grammar:
    where it reaches [Parse] at all, the grammar is the one [Grammar] gave
    for the language of the path, and that one is not nil.  (On the nil
    grammar the engine is not asked to answer: nothing is claimed for
    [Parse] there.) *)
Theorem parse_result_xor_error (filePath : string) (source : bytes)
    (language : Language) (grammar : SitterLanguage) :
  (fst (Parse MakeScopeTree ParseCtx filePath source language (Some grammar)) = None
   <-> snd (Parse MakeScopeTree ParseCtx filePath source language (Some grammar)) <> None)
  /\ (fst (fst (ParseFile MakeScopeTree ParseCtx ReadFile filePath)) = None
      <-> snd (fst (ParseFile MakeScopeTree ParseCtx ReadFile filePath)) <> None)
  /\ (ReadFile filePath = inl source ->
      Grammar (LanguageFromFilePath filePath) <> None ->
      exists g,
        Grammar (LanguageFromFilePath filePath) = Some g
        /\ ParseFile MakeScopeTree ParseCtx ReadFile filePath
           = (Parse MakeScopeTree ParseCtx filePath source
                (LanguageFromFilePath filePath) (Some g), [filePath]))
  /\ (Grammar (LanguageFromFilePath filePath) = None ->
      ParseFile MakeScopeTree ParseCtx ReadFile filePath
      = ((None, Some (ErrorString ("unsupported file type: " +:+ filePath))), [])).
Proof.
  assert (Hparse : forall path src lang g,
    fst (Parse MakeScopeTree ParseCtx path src lang (Some g)) = None
    <-> snd (Parse MakeScopeTree ParseCtx path src lang (Some g)) <> None).
  { intros path src lang g. unfold Parse.
    destruct (ParseCtx src (Some g)); simpl; split; intros H; try discriminate; tauto. }
  split; [apply Hparse|]. split; [|split].
  - unfold ParseFile.
    destruct (Grammar (LanguageFromFilePath filePath)) as [g|]; simpl.
    + destruct (ReadFile filePath); simpl; [apply Hparse|].
      split; intros H; [discriminate | reflexivity].
    + split; intros H; [discriminate | reflexivity].
  - intros Hread Hg. unfold ParseFile.
    destruct (Grammar (LanguageFromFilePath filePath)) as [g|]; [|now contradiction Hg].
    exists g. split; [reflexivity|]. now rewrite Hread.
  - intros Hg. unfold ParseFile, Errorf. now rewrite Hg.
Qed.

(** X5. A ParseResult that [ParseFile] returns comes with no error and
    describes the file that was asked for: its path is the given path, its
    language is the language of the path and is not Unknown, its grammar is
    the grammar of that language and is not nil, its source is what the file
    system holds for the path, its root is what the engine made of that
    source with that grammar, its scope tree is what the scope resolver made
    of them, and the path was read once. *)
Theorem parse_file_result_describes_file (filePath : string) (res : ParseResult) :
  fst (fst (ParseFile MakeScopeTree ParseCtx ReadFile filePath)) = Some res ->
  snd (fst (ParseFile MakeScopeTree ParseCtx ReadFile filePath)) = None
  /\ snd (ParseFile MakeScopeTree ParseCtx ReadFile filePath) = [filePath]
  /\ FilePath res = filePath
  /\ ParseResult_Language res = LanguageFromFilePath filePath
  /\ ParseResult_Language res <> LangUnknown
  /\ TsLanguage res = Grammar (ParseResult_Language res)
  /\ TsLanguage res <> None
  /\ ReadFile filePath = inl (Source res)
  /\ ParseCtx (Source res) (TsLanguage res) = inl (Ast res)
  /\ ParseResult_ScopeTree res
     = MakeScopeTree (ParseResult_Language res) (Ast res) (Source res).
Proof.
  unfold ParseFile.
  destruct (Grammar (LanguageFromFilePath filePath)) as [g|] eqn:Hg; [|discriminate].
  destruct (ReadFile filePath) as [source|err] eqn:Hread; [|discriminate].
  unfold Parse. cbn [fst snd].
  destruct (ParseCtx source (Some g)) as [ast|err] eqn:Hparse; [|discriminate].
  cbn [fst snd]. intros Hres. injection Hres as <-. cbn.
  repeat split; try assumption; try (now rewrite Hg).
  - intros Hun. rewrite Hun in Hg. discriminate.
  - discriminate.
Qed.

(** X6. For a path that ends in one of the five extensions and a file that
    can be read, [ParseFile] is [Parse] on the contents with the language and
    the grammar of the extension: the tsx grammar for .js, .jsx and .tsx, the
    typescript grammar for .ts, the python grammar for .py. *)
Theorem parse_file_grammar_by_extension (stem : string) (source : bytes) :
  (ReadFile (stem +:+ ".py") = inl source ->
     ParseFile MakeScopeTree ParseCtx ReadFile (stem +:+ ".py")
     = (Parse MakeScopeTree ParseCtx (stem +:+ ".py") source LangPy (Some treeSitterPy),
        [stem +:+ ".py"]))
  /\ (ReadFile (stem +:+ ".js") = inl source ->
     ParseFile MakeScopeTree ParseCtx ReadFile (stem +:+ ".js")
     = (Parse MakeScopeTree ParseCtx (stem +:+ ".js") source LangJs (Some treeSitterTsx),
        [stem +:+ ".js"]))
  /\ (ReadFile (stem +:+ ".jsx") = inl source ->
     ParseFile MakeScopeTree ParseCtx ReadFile (stem +:+ ".jsx")
     = (Parse MakeScopeTree ParseCtx (stem +:+ ".jsx") source LangJs (Some treeSitterTsx),
        [stem +:+ ".jsx"]))
  /\ (ReadFile (stem +:+ ".ts") = inl source ->
     ParseFile MakeScopeTree ParseCtx ReadFile (stem +:+ ".ts")
     = (Parse MakeScopeTree ParseCtx (stem +:+ ".ts") source LangTs (Some treeSitterTs),
        [stem +:+ ".ts"]))
  /\ (ReadFile (stem +:+ ".tsx") = inl source ->
     ParseFile MakeScopeTree ParseCtx ReadFile (stem +:+ ".tsx")
     = (Parse MakeScopeTree ParseCtx (stem +:+ ".tsx") source LangTsx (Some treeSitterTsx),
        [stem +:+ ".tsx"])).
Proof.
  repeat split; intros Hread; unfold ParseFile, LanguageFromFilePath;
    rewrite Ext_app; simpl; now rewrite Hread.
Qed.

End ParseFacts.

(* ===================================================================== *)
(** * Facts: rule index and dispatch *)
(* ===================================================================== *)

(** Induction on a syntax tree with the hypothesis on every child. *)
Lemma SitterNode_tree_ind (P : SitterNode -> Prop) :
  (forall typ rng children, Forall P children -> P (MkNode typ rng children)) ->
  forall node, P node.
Proof.
  intros step. fix IH 1. intros [typ rng children]. apply step.
  induction children as [|child rest IHrest]; constructor.
  - apply IH.
  - exact IHrest.
Qed.

Section AnalyzerFacts.

Context {ScopeTree : Type} {R : Type} {RuleR : Rule (ScopeTree := ScopeTree) R}.

Implicit Types (ana start : Analyzer (ScopeTree := ScopeTree) (R := R)).
Implicit Types (rule : R) (node : SitterNode) (phase : Phase).
Implicit Types (events : list (Event (R := R))).

(** ** Field equations of the two mutators *)

Lemma AddRule_rules ana rule : rules (AddRule ana rule) = rules ana ++ [rule].
Proof. unfold AddRule. destruct (OnEnter rule), (OnLeave rule); reflexivity. Qed.

Lemma AddRule_issuesRaised ana rule : issuesRaised (AddRule ana rule) = issuesRaised ana.
Proof. unfold AddRule. destruct (OnEnter rule), (OnLeave rule); reflexivity. Qed.

Lemma AddRule_exported ana rule : exported (AddRule ana rule) = exported ana.
Proof. unfold AddRule. destruct (OnEnter rule), (OnLeave rule); reflexivity. Qed.

Lemma index_get_insert (m : gmap string (list R)) (key typ : string) (v : list R) :
  index_get (<[key := v]> m) typ = if String.eqb key typ then v else index_get m typ.
Proof.
  unfold index_get. destruct (String.eqb_spec key typ) as [->|Hne].
  - now rewrite lookup_insert_eq.
  - now rewrite lookup_insert_ne.
Qed.

Lemma AddRule_index phase ana rule typ :
  index_get (index_of phase (AddRule ana rule)) typ =
  index_get (index_of phase ana) typ ++ (if interested phase typ rule then [rule] else []).
Proof.
  unfold AddRule, interested.
  destruct phase; simpl; destruct (OnEnter rule), (OnLeave rule); simpl;
    rewrite ?index_get_insert, ?app_nil_r; try reflexivity.
  all: destruct (String.eqb_spec (NodeType rule) typ) as [<-|Hne].
  all: now rewrite ?app_nil_r.
Qed.

Lemma AddRule_inert ana rule :
  OnEnter rule = None -> OnLeave rule = None ->
  AddRule ana rule = set_rules (rules ana ++ [rule]) ana.
Proof. intros He Hl. unfold AddRule. now rewrite He, Hl. Qed.

Lemma Report_issuesRaised ana issue :
  issuesRaised (Report ana issue) = issuesRaised ana ++ [issue].
Proof. reflexivity. Qed.

Lemma NewAnalyzer_snoc file (rules0 : list R) rule :
  NewAnalyzer file (rules0 ++ [rule]) = AddRule (NewAnalyzer file rules0) rule.
Proof. unfold NewAnalyzer. now rewrite fold_left_app. Qed.

Lemma NewAnalyzer_app file (rules0 more : list R) :
  NewAnalyzer file (rules0 ++ more) = fold_left AddRule more (NewAnalyzer file rules0).
Proof. unfold NewAnalyzer. now rewrite fold_left_app. Qed.

(** ** The index invariant *)

Lemma indexed_AddRule ana rule : indexed ana -> indexed (AddRule ana rule).
Proof.
  intros Hidx phase typ.
  rewrite AddRule_index, AddRule_rules, List.filter_app, Hidx. simpl.
  now destruct (interested phase typ rule).
Qed.

Lemma indexed_Report ana issue : indexed ana -> indexed (Report ana issue).
Proof.
  intros Hidx phase typ.
  destruct phase; [exact (Hidx Enter typ) | exact (Hidx Leave typ)].
Qed.

Lemma indexed_perform ana call : indexed ana -> indexed (perform ana call).
Proof. destruct call; [apply indexed_Report | apply indexed_AddRule]. Qed.

Lemma indexed_fold_AddRule (more : list R) ana :
  indexed ana -> indexed (fold_left AddRule more ana).
Proof.
  revert ana. induction more as [|rule more IH]; simpl; intros ana Hidx; [exact Hidx|].
  apply IH, indexed_AddRule, Hidx.
Qed.

Lemma indexed_NewAnalyzer file (rules0 : list R) : indexed (NewAnalyzer file rules0).
Proof.
  apply indexed_fold_AddRule. intros phase typ. now destruct phase.
Qed.

Lemma rules_fold_AddRule (more : list R) ana :
  rules (fold_left AddRule more ana) = rules ana ++ more.
Proof.
  revert ana. induction more as [|rule more IH]; simpl; intros ana.
  - now rewrite app_nil_r.
  - now rewrite IH, AddRule_rules, <- app_assoc.
Qed.

Lemma NewAnalyzer_rules file (rules0 : list R) : rules (NewAnalyzer file rules0) = rules0.
Proof. unfold NewAnalyzer. now rewrite rules_fold_AddRule. Qed.

Lemma issuesRaised_fold_AddRule (more : list R) ana :
  issuesRaised (fold_left AddRule more ana) = issuesRaised ana.
Proof.
  revert ana. induction more as [|rule more IH]; simpl; intros ana; [reflexivity|].
  now rewrite IH, AddRule_issuesRaised.
Qed.

Lemma exported_fold_AddRule (more : list R) ana :
  exported (fold_left AddRule more ana) = exported ana.
Proof.
  revert ana. induction more as [|rule more IH]; simpl; intros ana; [reflexivity|].
  now rewrite IH, AddRule_exported.
Qed.

(** C2. After [NewAnalyzer file rules0] the rule list is [rules0] and, for
    every node type, the entry bucket holds the rules of [rules0] that define
    on-enter and declare that type, in the order of [rules0], and the exit
    bucket the same for on-exit (a rule with both callbacks is in both).
    [AddRule] appends the rule to the entry bucket of its node type when it
    defines on-enter, to the exit bucket when it defines on-exit, and leaves
    every other bucket as it was.  Constructing with one more rule is
    constructing and then calling [AddRule]. *)
Theorem rules_indexed_in_registration_order
    (file : ParseResult) (rules0 : list R) ana rule (typ : string) :
  rules (NewAnalyzer file rules0) = rules0
  /\ index_get (entryRulesForNode (NewAnalyzer file rules0)) typ
       = List.filter (interested Enter typ) rules0
  /\ index_get (exitRulesForNode (NewAnalyzer file rules0)) typ
       = List.filter (interested Leave typ) rules0
  /\ rules (AddRule ana rule) = rules ana ++ [rule]
  /\ index_get (entryRulesForNode (AddRule ana rule)) typ
       = index_get (entryRulesForNode ana) typ
           ++ (if interested Enter typ rule then [rule] else [])
  /\ index_get (exitRulesForNode (AddRule ana rule)) typ
       = index_get (exitRulesForNode ana) typ
           ++ (if interested Leave typ rule then [rule] else [])
  /\ NewAnalyzer file (rules0 ++ [rule]) = AddRule (NewAnalyzer file rules0) rule.
Proof.
  pose proof (indexed_NewAnalyzer file rules0) as Hidx.
  repeat split.
  - apply NewAnalyzer_rules.
  - pose proof (Hidx Enter typ) as He.
    rewrite NewAnalyzer_rules in He. exact He.
  - pose proof (Hidx Leave typ) as Hl.
    rewrite NewAnalyzer_rules in Hl. exact Hl.
  - apply AddRule_rules.
  - apply (AddRule_index Enter).
  - apply (AddRule_index Leave).
  - apply NewAnalyzer_snoc.
Qed.

(** ** Runs *)

Lemma OnEnterNode_dispatch ana node : OnEnterNode ana node = (true, dispatch Enter ana node).
Proof. reflexivity. Qed.

Lemma OnLeaveNode_dispatch ana node : OnLeaveNode ana node = dispatch Leave ana node.
Proof. reflexivity. Qed.

Lemma WalkTree_unfold node ana :
  WalkTree node ana =
  andThen (andThen (dispatch Enter ana node) (walk_all (Children node)))
          (fun ana' => dispatch Leave ana' node).
Proof. destruct node. reflexivity. Qed.

Lemma calls_app events events' : calls (events ++ events') = calls events ++ calls events'.
Proof.
  induction events as [|[ph r n|c] events IH]; simpl; [reflexivity| exact IH |now rewrite IH].
Qed.

Lemma calls_Called (cs : list (Call R)) : calls (map Called cs) = cs.
Proof. induction cs as [|c cs IH]; simpl; [reflexivity | now rewrite IH]. Qed.

Lemma replays_nil ana : replays (ana, []) ana.
Proof. reflexivity. Qed.

Lemma replays_andThen start (first : Run) (next : Analyzer -> Run) :
  replays first start -> (forall ana, replays (next ana) ana) ->
  replays (andThen first next) start.
Proof.
  unfold replays, andThen. simpl. intros Hfirst Hnext.
  now rewrite calls_app, fold_left_app, <- Hfirst.
Qed.

Lemma replays_invoke phase (visitFn : VisitFn R) rule ana node :
  replays (invoke phase visitFn rule ana node) ana.
Proof. unfold replays, invoke. simpl. now rewrite calls_Called. Qed.

Lemma replays_range_loop (body : R -> Analyzer -> Run) :
  (forall rule ana, replays (body rule ana) ana) ->
  forall (rules0 : list R) ana, replays (range_loop body rules0 ana) ana.
Proof.
  intros Hbody. induction rules0 as [|rule rest IH]; intros ana; simpl.
  - apply replays_nil.
  - apply replays_andThen; [apply Hbody | exact IH].
Qed.

Lemma replays_dispatch phase ana node : replays (dispatch phase ana node) ana.
Proof.
  unfold dispatch. apply replays_range_loop. intros rule a.
  destruct (callback phase rule); [apply replays_invoke | apply replays_nil].
Qed.

Lemma replays_walk_all (nodes : list SitterNode) :
  Forall (fun node => forall ana, replays (WalkTree node ana) ana) nodes ->
  forall ana, replays (walk_all nodes ana) ana.
Proof.
  induction 1 as [|node rest Hnode _ IH]; intros ana; simpl.
  - apply replays_nil.
  - apply replays_andThen; [apply Hnode | exact IH].
Qed.

Lemma replays_WalkTree node : forall ana, replays (WalkTree node ana) ana.
Proof.
  induction node as [typ rng children IH] using SitterNode_tree_ind. intros ana.
  rewrite WalkTree_unfold. apply replays_andThen.
  - apply replays_andThen; [apply replays_dispatch |].
    apply replays_walk_all, IH.
  - intros a. apply replays_dispatch.
Qed.

Lemma replays_exec (op : Op) ana : replays (exec op ana) ana.
Proof.
  destruct op as [rule|issue|node|node|].
  - reflexivity.
  - reflexivity.
  - exact (replays_dispatch Enter ana node).
  - exact (replays_dispatch Leave ana node).
  - exact (replays_WalkTree _ ana).
Qed.

Lemma replays_execs (ops : list Op) : forall ana, replays (execs ops ana) ana.
Proof.
  induction ops as [|op rest IH]; intros ana; simpl.
  - apply replays_nil.
  - apply replays_andThen; [apply replays_exec | exact IH].
Qed.

(** ** What the method calls of a run do to each field *)

Lemma issuesRaised_replay events ana :
  issuesRaised (fold_left perform (calls events) ana) = issuesRaised ana ++ reported events.
Proof.
  revert ana. induction events as [|[ph r n|[issue|rule]] events IH]; intros ana; simpl.
  - now rewrite app_nil_r.
  - apply IH.
  - rewrite IH, Report_issuesRaised, <- app_assoc. reflexivity.
  - now rewrite IH, AddRule_issuesRaised.
Qed.

Lemma rules_replay events ana :
  rules (fold_left perform (calls events) ana) = rules ana ++ registered events.
Proof.
  revert ana. induction events as [|[ph r n|[issue|rule]] events IH]; intros ana; simpl.
  - now rewrite app_nil_r.
  - apply IH.
  - now rewrite IH.
  - rewrite IH, AddRule_rules, <- app_assoc. reflexivity.
Qed.

Lemma exported_replay events ana :
  exported (fold_left perform (calls events) ana) = exported ana.
Proof.
  revert ana. induction events as [|[ph r n|[issue|rule]] events IH]; intros ana; simpl.
  - reflexivity.
  - apply IH.
  - now rewrite IH.
  - now rewrite IH, AddRule_exported.
Qed.

Lemma indexed_replay events ana :
  indexed ana -> indexed (fold_left perform (calls events) ana).
Proof.
  revert ana. induction events as [|[ph r n|c] events IH]; intros ana Hidx; simpl.
  - exact Hidx.
  - now apply IH.
  - apply IH, indexed_perform, Hidx.
Qed.


Lemma reported_app events events' :
  reported (events ++ events') = reported events ++ reported events'.
Proof.
  induction events as [|[ph r n|[issue|rule]] events IH]; simpl;
    [reflexivity | exact IH | now rewrite IH | exact IH].
Qed.

Lemma registered_app events events' :
  registered (events ++ events') = registered events ++ registered events'.
Proof.
  induction events as [|[ph r n|[issue|rule]] events IH]; simpl;
    [reflexivity | exact IH | exact IH | now rewrite IH].
Qed.

Lemma invocations_app phase events events' :
  invocations phase (events ++ events') = invocations phase events ++ invocations phase events'.
Proof.
  induction events as [|[ph r n|c] events IH]; simpl; [reflexivity | | exact IH].
  destruct (phase_eqb phase ph); simpl; now rewrite IH.
Qed.

Lemma invocations_Called phase (cs : list (Call R)) : invocations phase (map Called cs) = [].
Proof. induction cs as [|c cs IH]; simpl; [reflexivity | exact IH]. Qed.

(** Every state a host program reaches from a constructor keeps the index
    invariant. *)
Lemma indexed_execs file (rules0 : list R) (ops : list Op) :
  indexed (fst (execs ops (NewAnalyzer file rules0))).
Proof.
  rewrite (replays_execs ops). apply indexed_replay, indexed_NewAnalyzer.
Qed.

(** C3. [Report] appends its issue to the issue list whatever the list holds
    (the list grows by one even when the issue is already in it) and touches
    nothing else.  [Analyze] returns the issues that were there before it
    followed by the issues handed to [Report] during the walk, in call order.
    Over any sequence of method calls on a fresh analyzer the issue list is
    exactly the issues handed to [Report], in call order, and no method call
    removes or changes an issue already in the list. *)
Theorem issues_in_report_order ana (issue : Issue) (file : ParseResult)
    (rules0 : list R) (ops : list Op) :
  issuesRaised (Report ana issue) = issuesRaised ana ++ [issue]
  /\ rules (Report ana issue) = rules ana
  /\ entryRulesForNode (Report ana issue) = entryRulesForNode ana
  /\ exitRulesForNode (Report ana issue) = exitRulesForNode ana
  /\ exported (Report ana issue) = exported ana
  /\ fst (Analyze ana) = issuesRaised ana ++ reported (snd (snd (Analyze ana)))
  /\ fst (Analyze (NewAnalyzer file rules0))
       = reported (snd (snd (Analyze (NewAnalyzer file rules0))))
  /\ issuesRaised (fst (execs ops (NewAnalyzer file rules0)))
       = reported (snd (execs ops (NewAnalyzer file rules0)))
  /\ issuesRaised (fst (execs ops ana)) = issuesRaised ana ++ reported (snd (execs ops ana)).
Proof.
  assert (Hwalk : forall a : Analyzer,
    fst (Analyze a) = issuesRaised a ++ reported (snd (snd (Analyze a)))).
  { intros a. unfold Analyze. simpl.
    rewrite (replays_WalkTree _ a) at 1. apply issuesRaised_replay. }
  assert (Hfresh : issuesRaised (NewAnalyzer file rules0) = []).
  { unfold NewAnalyzer. now rewrite issuesRaised_fold_AddRule. }
  assert (Hops : forall a : Analyzer,
    issuesRaised (fst (execs ops a)) = issuesRaised a ++ reported (snd (execs ops a))).
  { intros a. rewrite (replays_execs ops a) at 1. apply issuesRaised_replay. }
  repeat split.
  - apply Hwalk.
  - now rewrite Hwalk, Hfresh.
  - now rewrite Hops, Hfresh.
  - apply Hops.
Qed.

(** ** Lifting a property of one dispatch to walks and host programs *)

(** [Q start events final] relates the analyzer a run starts in, the events
    it emits and the analyzer it ends in. *)
Section Lifting.

Variable Q : Analyzer (ScopeTree := ScopeTree) (R := R) -> list (Event (R := R)) ->
  Analyzer (ScopeTree := ScopeTree) (R := R) -> Prop.

Hypothesis Q_nil : forall ana, Q ana [] ana.
Hypothesis Q_seq : forall a events b events' c,
  Q a events b -> Q b events' c -> Q a (events ++ events') c.
Hypothesis Q_dispatch : forall phase ana node,
  Q ana (snd (dispatch phase ana node)) (fst (dispatch phase ana node)).

Lemma holds_andThen start (first : Run) (next : Analyzer -> Run) :
  Q start (snd first) (fst first) ->
  (forall ana, Q ana (snd (next ana)) (fst (next ana))) ->
  Q start (snd (andThen first next)) (fst (andThen first next)).
Proof.
  unfold andThen. simpl. intros Hfirst Hnext.
  eapply Q_seq; [exact Hfirst | apply Hnext].
Qed.

Lemma holds_walk_all (nodes : list SitterNode) :
  Forall (fun node => forall ana,
    Q ana (snd (WalkTree node ana)) (fst (WalkTree node ana))) nodes ->
  forall ana, Q ana (snd (walk_all nodes ana)) (fst (walk_all nodes ana)).
Proof.
  induction 1 as [|node rest Hnode _ IH]; intros ana; simpl.
  - apply Q_nil.
  - apply holds_andThen; [apply Hnode | exact IH].
Qed.

Lemma holds_WalkTree node :
  forall ana, Q ana (snd (WalkTree node ana)) (fst (WalkTree node ana)).
Proof.
  induction node as [typ rng children IH] using SitterNode_tree_ind. intros ana.
  rewrite WalkTree_unfold. apply holds_andThen.
  - apply holds_andThen; [apply Q_dispatch |].
    apply holds_walk_all, IH.
  - intros a. apply Q_dispatch.
Qed.

Lemma holds_siblings (nodes : list SitterNode) :
  forall ana, Q ana (snd (walk_all nodes ana)) (fst (walk_all nodes ana)).
Proof.
  apply holds_walk_all, List.Forall_forall. intros node _. apply holds_WalkTree.
Qed.

Hypothesis Q_AddRule : forall ana rule, Q ana [Called (CallAddRule rule)] (AddRule ana rule).
Hypothesis Q_Report : forall ana issue, Q ana [Called (CallReport issue)] (Report ana issue).

Lemma holds_exec (op : Op) ana : Q ana (snd (exec op ana)) (fst (exec op ana)).
Proof.
  destruct op as [rule|issue|node|node|].
  - apply Q_AddRule.
  - apply Q_Report.
  - exact (Q_dispatch Enter ana node).
  - exact (Q_dispatch Leave ana node).
  - exact (holds_WalkTree _ ana).
Qed.

Lemma holds_execs (ops : list Op) :
  forall ana, Q ana (snd (execs ops ana)) (fst (execs ops ana)).
Proof.
  induction ops as [|op rest IH]; intros ana; simpl.
  - apply Q_nil.
  - apply holds_andThen; [apply holds_exec | exact IH].
Qed.

End Lifting.

(** ** Who gets invoked *)

(** The invocations of one dispatch: the rules of the bucket read at its
    start that pass the nil test, in bucket order, each on the node. *)
Lemma invocations_range_loop phase phase' node (rules0 : list R) : forall ana,
  invocations phase'
    (snd (range_loop (fun rule ana =>
       match callback phase rule with
       | Some visitFn => invoke phase visitFn rule ana node
       | None => (ana, [])
       end) rules0 ana))
  = if phase_eqb phase' phase
    then map (fun rule => (rule, node))
           (List.filter (fun rule => bool_decide (is_Some (callback phase rule))) rules0)
    else [].
Proof.
  induction rules0 as [|rule rest IH]; intros ana; simpl.
  - now destruct (phase_eqb phase' phase).
  - rewrite invocations_app, IH.
    destruct (callback phase rule) as [visitFn|] eqn:Hcb; simpl.
    + rewrite invocations_Called.
      now destruct (phase_eqb phase' phase).
    + reflexivity.
Qed.

Lemma invocations_dispatch phase phase' ana node :
  invocations phase' (snd (dispatch phase ana node))
  = if phase_eqb phase' phase
    then map (fun rule => (rule, node))
           (List.filter (fun rule => bool_decide (is_Some (callback phase rule)))
              (index_get (index_of phase ana) (Type_ node)))
    else [].
Proof. apply invocations_range_loop. Qed.

Lemma interested_callback phase typ rule :
  interested phase typ rule = true -> is_Some (callback phase rule).
Proof. unfold interested. destruct (callback phase rule) as [f|]; [now exists f | discriminate]. Qed.

Lemma interested_NodeType phase typ rule :
  interested phase typ rule = true -> NodeType rule = typ.
Proof.
  unfold interested. destruct (callback phase rule); [|discriminate].
  apply String.eqb_eq.
Qed.

Lemma filter_callback_interested phase typ (rules0 : list R) :
  List.filter (fun rule => bool_decide (is_Some (callback phase rule)))
    (List.filter (interested phase typ) rules0)
  = List.filter (interested phase typ) rules0.
Proof.
  induction rules0 as [|rule rest IH]; simpl; [reflexivity|].
  destruct (interested phase typ rule) eqn:Hi; simpl; [|exact IH].
  rewrite bool_decide_true by (eapply interested_callback, Hi).
  now rewrite IH.
Qed.

Lemma invocations_dispatch_indexed phase ana node :
  indexed ana ->
  invocations phase (snd (dispatch phase ana node))
  = map (fun rule => (rule, node)) (List.filter (interested phase (Type_ node)) (rules ana)).
Proof.
  intros Hidx. rewrite invocations_dispatch, Hidx, filter_callback_interested.
  now destruct phase.
Qed.

(** Every invocation in a run goes to a rule that defines the callback of
    that phase. *)
Lemma invoked_with_callback (ops : list Op) ana :
  forall phase rule node, In (rule, node) (invocations phase (snd (execs ops ana))) ->
    is_Some (callback phase rule).
Proof.
  apply (holds_execs (fun _ events _ =>
    forall phase rule node, In (rule, node) (invocations phase events) ->
      is_Some (callback phase rule))).
  - intros a phase rule node [].
  - intros a events b events' c H1 H2 phase rule node Hin.
    rewrite invocations_app in Hin. apply in_app_or in Hin as [Hin|Hin]; eauto.
  - intros phase a node phase' rule node' Hin.
    rewrite invocations_dispatch in Hin.
    destruct phase, phase'; simpl in Hin; try contradiction.
    all: apply in_map_iff in Hin as (r & Hr & Hin); injection Hr as -> ->.
    all: apply filter_In in Hin as [_ Hin]; now apply bool_decide_eq_true in Hin.
  - intros a rule phase rule' node [].
  - intros a issue phase rule' node [].
Qed.

(** In a run that starts in an indexed analyzer, every invocation goes to a
    rule on a node of the type the rule declares. *)
Lemma invoked_on_declared_type (ops : list Op) ana :
  indexed ana ->
  indexed (fst (execs ops ana))
  /\ forall phase rule node, In (rule, node) (invocations phase (snd (execs ops ana))) ->
       NodeType rule = Type_ node.
Proof.
  apply (holds_execs (fun a events b => indexed a ->
    indexed b /\ forall phase rule node, In (rule, node) (invocations phase events) ->
       NodeType rule = Type_ node)).
  - intros a Hidx. split; [exact Hidx | intros phase rule node []].
  - intros a events b events' c H1 H2 Hidx.
    destruct (H1 Hidx) as [Hb Hev]. destruct (H2 Hb) as [Hc Hev'].
    split; [exact Hc|]. intros phase rule node Hin.
    rewrite invocations_app in Hin. apply in_app_or in Hin as [Hin|Hin]; eauto.
  - intros phase a node Hidx. split.
    + rewrite (replays_dispatch phase a node). now apply indexed_replay.
    + intros phase' rule node' Hin.
      rewrite invocations_dispatch, Hidx, filter_callback_interested in Hin.
      destruct (phase_eqb phase' phase); [|contradiction].
      apply in_map_iff in Hin as (r & Hr & Hin). injection Hr as -> ->.
      apply filter_In in Hin as [_ Hin]. eapply interested_NodeType, Hin.
  - intros a rule Hidx. split; [now apply indexed_AddRule | intros phase rule' node []].
  - intros a issue Hidx. split; [now apply indexed_Report | intros phase rule' node []].
Qed.

(** ** The nil test of the dispatch loops *)

Lemma bucket_callbacks phase ana typ :
  indexed ana ->
  Forall (fun rule => is_Some (callback phase rule)) (index_get (index_of phase ana) typ).
Proof.
  intros Hidx. rewrite Hidx. apply List.Forall_forall. intros rule Hin.
  apply filter_In in Hin as [_ Hin]. eapply interested_callback, Hin.
Qed.

(** ** Walks whose callbacks only report *)

Lemma registered_Called_reports (cs : list (Call R)) :
  forallb is_report cs = true -> registered (map Called cs) = [].
Proof.
  induction cs as [|[issue|rule] cs IH]; simpl; intros Hall.
  - reflexivity.
  - now apply IH.
  - discriminate.
Qed.

Lemma registered_range_loop phase node (rules0 : list R) :
  Forall reports_only rules0 ->
  forall ana,
    registered
      (snd (range_loop (fun rule ana =>
         match callback phase rule with
         | Some visitFn => invoke phase visitFn rule ana node
         | None => (ana, [])
         end) rules0 ana)) = [].
Proof.
  induction 1 as [|rule rest Hrule _ IH]; intros ana; simpl; [reflexivity|].
  rewrite registered_app, IH, app_nil_r.
  destruct (callback phase rule) as [visitFn|] eqn:Hcb; simpl; [|reflexivity].
  apply registered_Called_reports, (Hrule phase visitFn _ _ Hcb).
Qed.

(** The state of an analyzer that matters to a walk whose callbacks only
    report: the index invariant and the callbacks of the registered rules. *)
Lemma quiet_dispatch phase ana node :
  indexed ana -> Forall reports_only (rules ana) ->
  registered (snd (dispatch phase ana node)) = []
  /\ rules (fst (dispatch phase ana node)) = rules ana
  /\ indexed (fst (dispatch phase ana node)).
Proof.
  intros Hidx Hquiet.
  assert (Hreg : registered (snd (dispatch phase ana node)) = []).
  { unfold dispatch. apply registered_range_loop. rewrite Hidx.
    eapply incl_Forall; [apply incl_filter | exact Hquiet]. }
  rewrite (replays_dispatch phase ana node).
  rewrite rules_replay, Hreg, app_nil_r.
  repeat split. now apply indexed_replay.
Qed.

Lemma quiet_walk_all (nodes : list SitterNode) ana :
  indexed ana -> Forall reports_only (rules ana) ->
  registered (snd (walk_all nodes ana)) = []
  /\ rules (fst (walk_all nodes ana)) = rules ana
  /\ indexed (fst (walk_all nodes ana)).
Proof.
  apply (holds_siblings (fun a events b =>
    indexed a -> Forall reports_only (rules a) ->
    registered events = [] /\ rules b = rules a /\ indexed b)).
  - intros a Hidx _. now repeat split.
  - intros a events b events' c H1 H2 Hidx Hquiet.
    destruct (H1 Hidx Hquiet) as (Hr1 & Hrules1 & Hidx1).
    rewrite <- Hrules1 in Hquiet.
    destruct (H2 Hidx1 Hquiet) as (Hr2 & Hrules2 & Hidx2).
    rewrite registered_app, Hr1, Hr2, Hrules2, Hrules1. now repeat split.
  - intros phase a node. apply quiet_dispatch.
Qed.

Lemma quiet_WalkTree node ana :
  indexed ana -> Forall reports_only (rules ana) ->
  registered (snd (WalkTree node ana)) = []
  /\ rules (fst (WalkTree node ana)) = rules ana
  /\ indexed (fst (WalkTree node ana)).
Proof.
  intros Hidx Hquiet.
  pose proof (quiet_walk_all [node] ana Hidx Hquiet) as Hone.
  simpl in Hone. rewrite app_nil_r in Hone. exact Hone.
Qed.

Lemma visits_app phase (rules0 : list R) (nodes nodes' : list SitterNode) :
  visits phase rules0 (nodes ++ nodes') = visits phase rules0 nodes ++ visits phase rules0 nodes'.
Proof. unfold visits. apply flat_map_app. Qed.

Lemma enter_walk_all (nodes : list SitterNode) :
  Forall (fun node => forall ana,
    indexed ana -> Forall reports_only (rules ana) ->
    invocations Enter (snd (WalkTree node ana)) = visits Enter (rules ana) (preorder node)) nodes ->
  forall ana,
    indexed ana -> Forall reports_only (rules ana) ->
    invocations Enter (snd (walk_all nodes ana))
    = visits Enter (rules ana) (flat_map preorder nodes).
Proof.
  induction 1 as [|node rest Hnode _ IH]; intros ana Hidx Hquiet; simpl; [reflexivity|].
  destruct (quiet_WalkTree node ana Hidx Hquiet) as (_ & Hrules & Hidx').
  rewrite invocations_app, visits_app, (Hnode ana Hidx Hquiet).
  rewrite IH by (rewrite ?Hrules; assumption).
  now rewrite Hrules.
Qed.

(** With callbacks that only report, a walk invokes on-enter callbacks node
    by node in the order it enters the nodes, at each node the registered
    rules interested in the node's type, in registration order. *)
Lemma enter_WalkTree node : forall ana,
  indexed ana -> Forall reports_only (rules ana) ->
  invocations Enter (snd (WalkTree node ana)) = visits Enter (rules ana) (preorder node).
Proof.
  induction node as [typ rng children IH] using SitterNode_tree_ind.
  intros ana Hidx Hquiet.
  rewrite WalkTree_unfold. unfold andThen. simpl snd. simpl fst.
  rewrite !invocations_app.
  rewrite invocations_dispatch_indexed by exact Hidx.
  destruct (quiet_dispatch Enter ana (MkNode typ rng children) Hidx Hquiet) as (_ & Hrules & Hidx').
  rewrite (enter_walk_all children IH) by (rewrite ?Hrules; assumption).
  rewrite (invocations_dispatch Leave Enter). simpl.
  now rewrite Hrules, app_nil_r.
Qed.

Lemma exported_exec (op : Op) ana : exported (fst (exec op ana)) = exported ana.
Proof. rewrite (replays_exec op ana). apply exported_replay. Qed.

Lemma quiet_exec (op : Op) ana :
  adds_no_rule op = true -> indexed ana -> Forall reports_only (rules ana) ->
  registered (snd (exec op ana)) = []
  /\ rules (fst (exec op ana)) = rules ana
  /\ indexed (fst (exec op ana)).
Proof.
  intros Hop Hidx Hquiet. destruct op as [rule|issue|node|node|].
  - discriminate.
  - repeat split. now apply indexed_Report.
  - exact (quiet_dispatch Enter ana node Hidx Hquiet).
  - exact (quiet_dispatch Leave ana node Hidx Hquiet).
  - exact (quiet_WalkTree _ ana Hidx Hquiet).
Qed.

Lemma enter_exec (op : Op) ana :
  indexed ana -> Forall reports_only (rules ana) ->
  adds_no_rule op = true ->
  invocations Enter (snd (exec op ana))
  = visits Enter (rules ana) (entered (Analyzer_ParseResult ana) [op]).
Proof.
  intros Hidx Hquiet Hop. destruct op as [rule|issue|node|node|].
  - discriminate.
  - reflexivity.
  - unfold entered, visits. simpl flat_map. rewrite !app_nil_r.
    exact (invocations_dispatch_indexed Enter ana node Hidx).
  - exact (invocations_dispatch Leave Enter ana node).
  - unfold entered. simpl flat_map. rewrite app_nil_r.
    exact (enter_WalkTree _ ana Hidx Hquiet).
Qed.

Lemma entered_cons (file : ParseResult (ScopeTree := ScopeTree)) (op : Op (R := R))
    (rest : list Op) :
  entered file (op :: rest) = entered file [op] ++ entered file rest.
Proof. unfold entered. simpl. now rewrite app_nil_r. Qed.

(** With callbacks that only report and a host that adds no rule, on-enter
    callbacks are invoked node by node in the order the host enters the
    nodes, at each node the registered rules interested in the node's type,
    in registration order. *)
Lemma enter_execs (ops : list Op) : forall ana,
  indexed ana -> Forall reports_only (rules ana) ->
  forallb adds_no_rule ops = true ->
  invocations Enter (snd (execs ops ana))
  = visits Enter (rules ana) (entered (Analyzer_ParseResult ana) ops).
Proof.
  induction ops as [|op rest IH]; intros ana Hidx Hquiet Hops; [reflexivity|].
  simpl in Hops. apply andb_prop in Hops as [Hop Hrest].
  destruct (quiet_exec op ana Hop Hidx Hquiet) as (_ & Hrules & Hidx').
  rewrite entered_cons.
  cbn [execs]. unfold andThen. cbn [fst snd].
  rewrite invocations_app, visits_app, (enter_exec op ana Hidx Hquiet Hop).
  rewrite IH by (rewrite ?Hrules; assumption).
  rewrite Hrules.
  replace (Analyzer_ParseResult (fst (exec op ana))) with (Analyzer_ParseResult ana)
    by (change (Exported_ParseResult (exported ana)
                = Exported_ParseResult (exported (fst (exec op ana))));
        now rewrite exported_exec).
  reflexivity.
Qed.

(** ** What the callbacks are applied to *)

Lemma exported_perform_all (cs : list (Call R)) ana :
  exported (fold_left perform cs ana) = exported ana.
Proof.
  revert ana. induction cs as [|[issue|rule] cs IH]; intros ana; simpl.
  - reflexivity.
  - now rewrite IH.
  - now rewrite IH, AddRule_exported.
Qed.

Lemma events_range_loop phase node (bucket : list R) : forall ana,
  snd (range_loop (fun rule ana =>
         match callback phase rule with
         | Some visitFn => invoke phase visitFn rule ana node
         | None => (ana, [])
         end) bucket ana)
  = bucket_events phase (exported ana) bucket node.
Proof.
  induction bucket as [|rule rest IH]; intros ana; [reflexivity|].
  cbn [range_loop bucket_events flat_map]. unfold andThen. cbn [snd fst].
  rewrite IH. fold (bucket_events phase (exported ana) rest node).
  destruct (callback phase rule) as [visitFn|]; [|reflexivity].
  unfold invoke. cbn [fst snd]. now rewrite exported_perform_all.
Qed.

(** One dispatch applies each callback of its bucket to the rule, the
    exported fields of the analyzer and the node. *)
Lemma events_dispatch phase ana node :
  snd (dispatch phase ana node)
  = bucket_events phase (exported ana) (index_get (index_of phase ana) (Type_ node)) node.
Proof. apply events_range_loop. Qed.

Lemma events_dispatch_indexed phase ana node :
  indexed ana ->
  snd (dispatch phase ana node) = node_events phase (rules ana) (exported ana) node.
Proof. intros Hidx. rewrite events_dispatch, Hidx. reflexivity. Qed.

Lemma events_walk_all (nodes : list SitterNode) :
  Forall (fun node => forall ana,
    indexed ana -> Forall reports_only (rules ana) ->
    snd (WalkTree node ana) = walk_events (rules ana) (exported ana) node) nodes ->
  forall ana,
    indexed ana -> Forall reports_only (rules ana) ->
    snd (walk_all nodes ana) = flat_map (walk_events (rules ana) (exported ana)) nodes.
Proof.
  induction 1 as [|node rest Hnode _ IH]; intros ana Hidx Hquiet; [reflexivity|].
  destruct (quiet_WalkTree node ana Hidx Hquiet) as (_ & Hrules & Hidx').
  cbn [walk_all flat_map]. unfold andThen. cbn [snd fst].
  rewrite (Hnode ana Hidx Hquiet).
  rewrite IH by (rewrite ?Hrules; assumption).
  rewrite Hrules. rewrite (replays_WalkTree node ana) at 1.
  now rewrite exported_replay.
Qed.

Lemma exported_walk_all (nodes : list SitterNode) ana :
  exported (fst (walk_all nodes ana)) = exported ana.
Proof.
  rewrite (replays_walk_all nodes) at 1; [apply exported_replay|].
  apply List.Forall_forall. intros node _. apply replays_WalkTree.
Qed.

(** With callbacks that only report, a walk emits what [walk_events] lists
    for the registered rules. *)
Lemma events_WalkTree node : forall ana,
  indexed ana -> Forall reports_only (rules ana) ->
  snd (WalkTree node ana) = walk_events (rules ana) (exported ana) node.
Proof.
  induction node as [typ rng children IH] using SitterNode_tree_ind.
  intros ana Hidx Hquiet.
  rewrite WalkTree_unfold. unfold andThen. cbn [snd fst Children].
  destruct (quiet_dispatch Enter ana (MkNode typ rng children) Hidx Hquiet)
    as (_ & Hrules & Hidx').
  assert (Hquiet' : Forall reports_only
            (rules (fst (dispatch Enter ana (MkNode typ rng children)))))
    by now rewrite Hrules.
  destruct (quiet_walk_all children _ Hidx' Hquiet') as (_ & Hrules'' & Hidx'').
  rewrite (events_dispatch_indexed Enter ana _ Hidx).
  rewrite (events_walk_all children IH _ Hidx' Hquiet').
  rewrite (events_dispatch_indexed Leave _ _ Hidx'').
  assert (Hexp' : exported (fst (dispatch Enter ana (MkNode typ rng children))) = exported ana).
  { rewrite (replays_dispatch Enter ana _) at 1. apply exported_replay. }
  rewrite exported_walk_all, Hrules'', Hrules, Hexp'. cbn [walk_events].
  now rewrite <- app_assoc.
Qed.

Lemma exported_view ana :
  ParseResult_Language (Analyzer_ParseResult ana) = Analyzer_Language ana ->
  {| Exported_Language := ParseResult_Language (Analyzer_ParseResult ana);
     Exported_ParseResult := Analyzer_ParseResult ana |} = exported ana.
Proof. intros Hlang. unfold exported. now rewrite Hlang. Qed.

Lemma events_exec (op : Op) ana :
  ParseResult_Language (Analyzer_ParseResult ana) = Analyzer_Language ana ->
  indexed ana -> Forall reports_only (rules ana) ->
  snd (exec op ana) = op_events (rules ana) (Analyzer_ParseResult ana) op.
Proof.
  intros Hlang Hidx Hquiet. unfold op_events. rewrite (exported_view ana Hlang).
  destruct op as [rule|issue|node|node|].
  - reflexivity.
  - reflexivity.
  - exact (events_dispatch_indexed Enter ana node Hidx).
  - exact (events_dispatch_indexed Leave ana node Hidx).
  - exact (events_WalkTree _ ana Hidx Hquiet).
Qed.

(** With callbacks that only report and a host that adds no rule, a host
    program emits, call by call, what [op_events] lists. *)
Lemma events_execs (ops : list Op) : forall ana,
  ParseResult_Language (Analyzer_ParseResult ana) = Analyzer_Language ana ->
  indexed ana -> Forall reports_only (rules ana) ->
  forallb adds_no_rule ops = true ->
  snd (execs ops ana) = flat_map (op_events (rules ana) (Analyzer_ParseResult ana)) ops.
Proof.
  induction ops as [|op rest IH]; intros ana Hlang Hidx Hquiet Hops; [reflexivity|].
  simpl in Hops. apply andb_prop in Hops as [Hop Hrest].
  destruct (quiet_exec op ana Hop Hidx Hquiet) as (_ & Hrules & Hidx').
  pose proof (exported_exec op ana) as Hexp.
  assert (Hfile : Analyzer_ParseResult (fst (exec op ana)) = Analyzer_ParseResult ana)
    by exact (f_equal Exported_ParseResult Hexp).
  assert (Hlang' : Analyzer_Language (fst (exec op ana)) = Analyzer_Language ana)
    by exact (f_equal Exported_Language Hexp).
  cbn [execs flat_map]. unfold andThen. cbn [fst snd].
  rewrite (events_exec op ana Hlang Hidx Hquiet).
  rewrite IH; try assumption.
  - now rewrite Hrules, Hfile.
  - now rewrite Hfile, Hlang'.
  - now rewrite Hrules.
Qed.

Lemma explained_app view (events events' : list (Event (R := R))) :
  explained view events -> explained view events' -> explained view (events ++ events').
Proof.
  induction 1 as [|call rest _ IH|phase rule node visitFn rest Hcb Htyp _ IH]; intros Hnext.
  - exact Hnext.
  - simpl. apply explained_host, IH, Hnext.
  - simpl. rewrite <- app_assoc. now apply explained_apply; [| |apply IH].
Qed.

Lemma explained_bucket phase view (bucket : list R) node :
  Forall (fun rule => NodeType rule = Type_ node) bucket ->
  explained view (bucket_events phase view bucket node).
Proof.
  induction 1 as [|rule rest Htyp _ IH]; [constructor|].
  cbn [bucket_events flat_map]. fold (bucket_events phase view rest node).
  destruct (callback phase rule) as [visitFn|] eqn:Hcb; [|exact IH].
  simpl. now apply explained_apply.
Qed.

(** In every run from an indexed analyzer each invocation is an application
    of the callback to the rule, the exported fields and a node of the type
    the rule declares. *)
Lemma explained_execs (ops : list Op) ana :
  indexed ana ->
  indexed (fst (execs ops ana)) /\ explained (exported ana) (snd (execs ops ana)).
Proof.
  assert (Hgoal : indexed ana ->
    (indexed (fst (execs ops ana)) /\ exported (fst (execs ops ana)) = exported ana)
    /\ explained (exported ana) (snd (execs ops ana))).
  { apply (holds_execs (fun a events b => indexed a ->
      (indexed b /\ exported b = exported a) /\ explained (exported a) events)).
    - intros a Hidx. repeat split; [exact Hidx | constructor].
    - intros a events b events' c H1 H2 Hidx.
      destruct (H1 Hidx) as [[Hb Hexp] Hev]. destruct (H2 Hb) as [[Hc Hexp'] Hev'].
      repeat split; [exact Hc | congruence |].
      apply explained_app; [exact Hev | now rewrite <- Hexp].
    - intros phase a node Hidx. repeat split.
      + rewrite (replays_dispatch phase a node). now apply indexed_replay.
      + rewrite (replays_dispatch phase a node) at 1. apply exported_replay.
      + rewrite events_dispatch, Hidx. apply explained_bucket.
        apply List.Forall_forall. intros rule Hin.
        apply filter_In in Hin as [_ Hin]. eapply interested_NodeType, Hin.
    - intros a rule Hidx. repeat split.
      + now apply indexed_AddRule.
      + apply AddRule_exported.
      + repeat constructor.
    - intros a issue Hidx. repeat split.
      + now apply indexed_Report.
      + repeat constructor. }
  intros Hidx. destruct (Hgoal Hidx) as [[H1 _] H2]. now split.
Qed.

(** ** Counting invocations *)

Context `{EqDecision R}.

Lemma times_invoked_app rule (l l' : list (R * SitterNode)) :
  times_invoked rule (l ++ l') = times_invoked rule l + times_invoked rule l'.
Proof. unfold times_invoked. now rewrite List.filter_app, length_app. Qed.

Lemma times_invoked_at_node rule node (rules0 : list R) :
  is_Some (OnEnter rule) ->
  times_invoked rule
    (map (fun rule' => (rule', node)) (List.filter (interested Enter (Type_ node)) rules0))
  = if String.eqb (Type_ node) (NodeType rule) then registrations rule rules0 else 0.
Proof.
  intros [visitFn Hcb]. unfold times_invoked, registrations.
  induction rules0 as [|rule' rest IH]; simpl.
  - now destruct (String.eqb (Type_ node) (NodeType rule)).
  - destruct (decide (rule' = rule)) as [->|Hne].
    + rewrite bool_decide_true by reflexivity.
      unfold interested at 1. simpl. rewrite Hcb, String.eqb_sym.
      destruct (String.eqb (Type_ node) (NodeType rule)); simpl.
      * rewrite bool_decide_true by reflexivity. simpl. now rewrite IH.
      * exact IH.
    + rewrite (bool_decide_false (rule' = rule)) by exact Hne.
      destruct (interested Enter (Type_ node) rule'); simpl; [|exact IH].
      rewrite bool_decide_false by exact Hne. exact IH.
Qed.

Lemma times_invoked_visits rule (rules0 : list R) (nodes : list SitterNode) :
  is_Some (OnEnter rule) ->
  times_invoked rule (visits Enter rules0 nodes)
  = registrations rule rules0 * nodes_of_type (NodeType rule) nodes.
Proof.
  intros Hcb. unfold nodes_of_type.
  induction nodes as [|node rest IH]; simpl.
  - unfold times_invoked. simpl. lia.
  - rewrite times_invoked_app, times_invoked_at_node, IH by exact Hcb.
    destruct (String.eqb (Type_ node) (NodeType rule)); simpl; lia.
Qed.

Lemma NewAnalyzer_exported file (rules0 : list R) :
  exported (NewAnalyzer file rules0)
  = {| Exported_Language := ParseResult_Language file; Exported_ParseResult := file |}.
Proof. unfold NewAnalyzer. now rewrite exported_fold_AddRule. Qed.

Lemma NewAnalyzer_ParseResult file (rules0 : list R) :
  Analyzer_ParseResult (NewAnalyzer file rules0) = file.
Proof.
  change (Exported_ParseResult (exported (NewAnalyzer file rules0)) = file).
  now rewrite NewAnalyzer_exported.
Qed.

(** ** Runs from a constructor *)

Lemma exported_execs_NewAnalyzer file (rules0 : list R) (ops : list Op) :
  exported (fst (execs ops (NewAnalyzer file rules0)))
  = {| Exported_Language := ParseResult_Language file; Exported_ParseResult := file |}.
Proof.
  rewrite (replays_execs ops (NewAnalyzer file rules0)), exported_replay.
  apply NewAnalyzer_exported.
Qed.

Lemma events_dispatch_NewAnalyzer phase file (rules0 : list R) (ops : list Op) node :
  snd (dispatch phase (fst (execs ops (NewAnalyzer file rules0))) node)
  = node_events phase (rules (fst (execs ops (NewAnalyzer file rules0))))
      {| Exported_Language := ParseResult_Language file; Exported_ParseResult := file |} node.
Proof.
  rewrite <- (exported_execs_NewAnalyzer file rules0 ops).
  exact (events_dispatch_indexed phase _ node (indexed_execs file rules0 ops)).
Qed.

Lemma explained_NewAnalyzer file (rules0 : list R) (ops : list Op) :
  explained {| Exported_Language := ParseResult_Language file; Exported_ParseResult := file |}
    (snd (execs ops (NewAnalyzer file rules0))).
Proof.
  rewrite <- (exported_execs_NewAnalyzer file rules0 []).
  exact (proj2 (explained_execs ops (NewAnalyzer file rules0)
                  (indexed_NewAnalyzer file rules0))).
Qed.

Lemma events_execs_NewAnalyzer file (rules0 : list R) (ops : list Op) :
  Forall reports_only rules0 -> forallb adds_no_rule ops = true ->
  snd (execs ops (NewAnalyzer file rules0)) = flat_map (op_events rules0 file) ops.
Proof.
  intros Hquiet Hops. rewrite events_execs.
  - now rewrite NewAnalyzer_rules, NewAnalyzer_ParseResult.
  - pose proof (NewAnalyzer_exported file rules0) as Hexp.
    rewrite NewAnalyzer_ParseResult.
    exact (eq_sym (f_equal Exported_Language Hexp)).
  - apply indexed_NewAnalyzer.
  - now rewrite NewAnalyzer_rules.
  - exact Hops.
Qed.

Lemma events_Analyze_NewAnalyzer file (rules0 : list R) :
  Forall reports_only rules0 ->
  snd (snd (Analyze (NewAnalyzer file rules0)))
  = walk_events rules0
      {| Exported_Language := ParseResult_Language file; Exported_ParseResult := file |}
      (Ast file).
Proof.
  intros Hquiet. unfold Analyze. cbn [fst snd].
  rewrite events_WalkTree.
  - now rewrite NewAnalyzer_rules, NewAnalyzer_ParseResult, NewAnalyzer_exported.
  - apply indexed_NewAnalyzer.
  - now rewrite NewAnalyzer_rules.
Qed.

Lemma issues_Analyze_NewAnalyzer file (rules0 : list R) :
  fst (Analyze (NewAnalyzer file rules0))
  = reported (snd (snd (Analyze (NewAnalyzer file rules0)))).
Proof.
  unfold Analyze. cbn [fst snd].
  rewrite (replays_WalkTree _ (NewAnalyzer file rules0)) at 1.
  rewrite issuesRaised_replay. unfold NewAnalyzer at 1.
  now rewrite issuesRaised_fold_AddRule.
Qed.

(** C1, as amended.  [OnEnterNode] always answers true.  It applies, in
    bucket order, the on-enter callback of every rule in the entry bucket of
    the node's exact type (those that pass the nil test, which in a reachable
    analyzer is all of them: the registered rules that define on-enter and
    declare that type, in registration order) to the rule, the analyzer and
    the node: the events of the call are, rule by rule, the invocation on the
    node and the method calls the callback makes when applied to the rule,
    the exported fields of the analyzer and the node, and the analyzer after
    the call is the analyzer before it with those method calls performed in
    order.  In every run from a constructor every invocation is such an
    application, on a node of the type the rule declares.  When the callbacks
    of the registered rules only report and the host adds no rule, the events
    of a host program are those of [op_events], call by call (for [Analyze]:
    the walk of [walk_events], and the issues returned are the issues those
    applications report, in order); on-enter callbacks are invoked node by
    node in the order the nodes are entered (for [Analyze]: the pre-order of
    the tree), and a rule that defines on-enter is invoked once per
    registration of it for each entered node of its type: as many times as
    there are such nodes when it is registered once. *)
Theorem enter_dispatch_once_per_registration
    (file : ParseResult) (rules0 : list R) (ops : list Op) ana node rule :
  fst (OnEnterNode ana node) = true
  /\ invocations Enter (snd (snd (OnEnterNode ana node)))
     = map (fun rule' => (rule', node))
         (List.filter (fun rule' => bool_decide (is_Some (OnEnter rule')))
            (index_get (entryRulesForNode ana) (Type_ node)))
  /\ invocations Enter
       (snd (snd (OnEnterNode (fst (execs ops (NewAnalyzer file rules0))) node)))
     = map (fun rule' => (rule', node))
         (List.filter (interested Enter (Type_ node))
            (rules (fst (execs ops (NewAnalyzer file rules0)))))
  /\ (forall rule' node',
        In (rule', node') (invocations Enter (snd (execs ops (NewAnalyzer file rules0)))) ->
        NodeType rule' = Type_ node')
  /\ (Forall reports_only rules0 -> forallb adds_no_rule ops = true ->
        invocations Enter (snd (execs ops (NewAnalyzer file rules0)))
        = visits Enter rules0 (entered file ops))
  /\ (Forall reports_only rules0 -> forallb adds_no_rule ops = true ->
      is_Some (OnEnter rule) ->
        times_invoked rule (invocations Enter (snd (execs ops (NewAnalyzer file rules0))))
        = registrations rule rules0 * nodes_of_type (NodeType rule) (entered file ops))
  /\ (Forall reports_only rules0 ->
        invocations Enter (snd (snd (Analyze (NewAnalyzer file rules0))))
        = visits Enter rules0 (preorder (Ast file)))
  /\ (Forall reports_only rules0 -> is_Some (OnEnter rule) ->
        times_invoked rule (invocations Enter (snd (snd (Analyze (NewAnalyzer file rules0)))))
        = registrations rule rules0 * nodes_of_type (NodeType rule) (preorder (Ast file)))
  /\ (Forall reports_only rules0 -> is_Some (OnEnter rule) ->
      registrations rule rules0 = 1 ->
        times_invoked rule (invocations Enter (snd (snd (Analyze (NewAnalyzer file rules0)))))
        = nodes_of_type (NodeType rule) (preorder (Ast file)))
  /\ snd (snd (OnEnterNode ana node))
     = bucket_events Enter (exported ana)
         (index_get (entryRulesForNode ana) (Type_ node)) node
  /\ fst (snd (OnEnterNode ana node))
     = fold_left perform (calls (snd (snd (OnEnterNode ana node)))) ana
  /\ snd (snd (OnEnterNode (fst (execs ops (NewAnalyzer file rules0))) node))
     = node_events Enter (rules (fst (execs ops (NewAnalyzer file rules0))))
         {| Exported_Language := ParseResult_Language file; Exported_ParseResult := file |}
         node
  /\ explained
       {| Exported_Language := ParseResult_Language file; Exported_ParseResult := file |}
       (snd (execs ops (NewAnalyzer file rules0)))
  /\ (Forall reports_only rules0 -> forallb adds_no_rule ops = true ->
        snd (execs ops (NewAnalyzer file rules0)) = flat_map (op_events rules0 file) ops)
  /\ (Forall reports_only rules0 ->
        snd (snd (Analyze (NewAnalyzer file rules0)))
        = walk_events rules0
            {| Exported_Language := ParseResult_Language file; Exported_ParseResult := file |}
            (Ast file)
        /\ fst (Analyze (NewAnalyzer file rules0))
           = reported
               (walk_events rules0
                  {| Exported_Language := ParseResult_Language file;
                     Exported_ParseResult := file |}
                  (Ast file))).
Proof.
  assert (Hrun : Forall reports_only rules0 -> forall ops' : list Op,
    forallb adds_no_rule ops' = true ->
    invocations Enter (snd (execs ops' (NewAnalyzer file rules0)))
    = visits Enter rules0 (entered file ops')).
  { intros Hquiet ops' Hops. rewrite enter_execs.
    - now rewrite NewAnalyzer_rules, NewAnalyzer_ParseResult.
    - apply indexed_NewAnalyzer.
    - now rewrite NewAnalyzer_rules.
    - exact Hops. }
  assert (Hwalk : Forall reports_only rules0 ->
    invocations Enter (snd (snd (Analyze (NewAnalyzer file rules0))))
    = visits Enter rules0 (preorder (Ast file))).
  { intros Hquiet. unfold Analyze. simpl.
    rewrite enter_WalkTree.
    - now rewrite NewAnalyzer_rules, NewAnalyzer_ParseResult.
    - apply indexed_NewAnalyzer.
    - now rewrite NewAnalyzer_rules. }
  assert (Hcount : Forall reports_only rules0 -> is_Some (OnEnter rule) ->
    times_invoked rule (invocations Enter (snd (snd (Analyze (NewAnalyzer file rules0)))))
    = registrations rule rules0 * nodes_of_type (NodeType rule) (preorder (Ast file))).
  { intros Hquiet Hcb. rewrite (Hwalk Hquiet). now apply times_invoked_visits. }
  split; [reflexivity|].
  split; [exact (invocations_dispatch Enter Enter ana node)|].
  split; [apply (invocations_dispatch_indexed Enter), indexed_execs|].
  split; [|split; [|split; [|split; [exact Hwalk | split; [exact Hcount|split]]]]].
  - intros rule' node'.
    apply (invoked_on_declared_type ops (NewAnalyzer file rules0) (indexed_NewAnalyzer _ _)).
  - intros Hquiet Hops. now apply Hrun.
  - intros Hquiet Hops Hcb. rewrite (Hrun Hquiet ops Hops). now apply times_invoked_visits.
  - intros Hquiet Hcb Hone. rewrite (Hcount Hquiet Hcb), Hone. lia.
  - split; [exact (events_dispatch Enter ana node)|].
    split; [exact (replays_dispatch Enter ana node)|].
    split; [exact (events_dispatch_NewAnalyzer Enter file rules0 ops node)|].
    split; [apply explained_NewAnalyzer|].
    split; [apply events_execs_NewAnalyzer|].
    intros Hquiet. split; [now apply events_Analyze_NewAnalyzer|].
    now rewrite issues_Analyze_NewAnalyzer, events_Analyze_NewAnalyzer.
Qed.

(** ** Analyzers that differ only in their rule list *)

Lemma AddRule_entryRulesForNode ana rule :
  entryRulesForNode (AddRule ana rule)
  = match OnEnter rule with
    | Some _ => <[NodeType rule := index_get (entryRulesForNode ana) (NodeType rule) ++ [rule]]>
                  (entryRulesForNode ana)
    | None => entryRulesForNode ana
    end.
Proof. unfold AddRule. destruct (OnEnter rule), (OnLeave rule); reflexivity. Qed.

Lemma AddRule_exitRulesForNode ana rule :
  exitRulesForNode (AddRule ana rule)
  = match OnLeave rule with
    | Some _ => <[NodeType rule := index_get (exitRulesForNode ana) (NodeType rule) ++ [rule]]>
                  (exitRulesForNode ana)
    | None => exitRulesForNode ana
    end.
Proof. unfold AddRule. destruct (OnEnter rule), (OnLeave rule); reflexivity. Qed.

Lemma same_dispatch_refl ana : same_dispatch ana ana.
Proof. now repeat split. Qed.

Lemma same_dispatch_perform (a b : Analyzer) (call : Call R) :
  same_dispatch a b -> same_dispatch (perform a call) (perform b call).
Proof.
  intros (Hexp & Hentry & Hexit & Hissues). destruct call as [issue|rule]; simpl.
  - repeat split; try assumption.
    rewrite !Report_issuesRaised. now rewrite Hissues.
  - repeat split.
    + now rewrite !AddRule_exported.
    + now rewrite !AddRule_entryRulesForNode, Hentry.
    + now rewrite !AddRule_exitRulesForNode, Hexit.
    + now rewrite !AddRule_issuesRaised.
Qed.

Lemma same_dispatch_perform_all (cs : list (Call R)) : forall a b : Analyzer,
  same_dispatch a b -> same_dispatch (fold_left perform cs a) (fold_left perform cs b).
Proof.
  induction cs as [|c cs IH]; simpl; intros a b Hsame; [exact Hsame|].
  apply IH, same_dispatch_perform, Hsame.
Qed.

Lemma same_dispatch_inert ana rule :
  OnEnter rule = None -> OnLeave rule = None -> same_dispatch (AddRule ana rule) ana.
Proof. intros He Hl. rewrite AddRule_inert by assumption. now repeat split. Qed.

Lemma same_runs_andThen (first second : Run (ScopeTree := ScopeTree) (R := R))
    (next next' : Analyzer -> Run) :
  same_runs first second ->
  (forall a b, same_dispatch a b -> same_runs (next a) (next' b)) ->
  same_runs (andThen first next) (andThen second next').
Proof.
  intros [Hev Hsame] Hnext. destruct (Hnext _ _ Hsame) as [Hev' Hsame'].
  split; simpl; [now rewrite Hev, Hev' | exact Hsame'].
Qed.

Lemma same_runs_invoke phase (visitFn : VisitFn R) rule node (a b : Analyzer) :
  same_dispatch a b ->
  same_runs (invoke phase visitFn rule a node) (invoke phase visitFn rule b node).
Proof.
  intros Hsame. pose proof Hsame as (Hexp & _). unfold invoke, same_runs. simpl.
  rewrite Hexp. split; [reflexivity|]. now apply same_dispatch_perform_all.
Qed.

Lemma same_runs_range_loop phase node (rules0 : list R) : forall a b : Analyzer,
  same_dispatch a b ->
  same_runs
    (range_loop (fun rule ana =>
       match callback phase rule with
       | Some visitFn => invoke phase visitFn rule ana node
       | None => (ana, [])
       end) rules0 a)
    (range_loop (fun rule ana =>
       match callback phase rule with
       | Some visitFn => invoke phase visitFn rule ana node
       | None => (ana, [])
       end) rules0 b).
Proof.
  induction rules0 as [|rule rest IH]; intros a b Hsame; simpl.
  - now split.
  - apply same_runs_andThen; [|exact IH].
    destruct (callback phase rule); [now apply same_runs_invoke | now split].
Qed.

Lemma same_runs_dispatch phase node (a b : Analyzer) :
  same_dispatch a b -> same_runs (dispatch phase a node) (dispatch phase b node).
Proof.
  intros Hsame. pose proof Hsame as (_ & Hentry & Hexit & _). unfold dispatch.
  replace (index_of phase b) with (index_of phase a) by (now destruct phase).
  now apply same_runs_range_loop.
Qed.

Lemma same_runs_walk_all (nodes : list SitterNode) :
  Forall (fun node => forall a b : Analyzer,
    same_dispatch a b -> same_runs (WalkTree node a) (WalkTree node b)) nodes ->
  forall a b : Analyzer, same_dispatch a b -> same_runs (walk_all nodes a) (walk_all nodes b).
Proof.
  induction 1 as [|node rest Hnode _ IH]; intros a b Hsame; simpl.
  - now split.
  - apply same_runs_andThen; [now apply Hnode | exact IH].
Qed.

Lemma same_runs_WalkTree node : forall a b : Analyzer,
  same_dispatch a b -> same_runs (WalkTree node a) (WalkTree node b).
Proof.
  induction node as [typ rng children IH] using SitterNode_tree_ind. intros a b Hsame.
  rewrite !WalkTree_unfold. apply same_runs_andThen.
  - apply same_runs_andThen; [now apply same_runs_dispatch |].
    now apply same_runs_walk_all.
  - intros a' b' Hsame'. now apply same_runs_dispatch.
Qed.

Lemma same_issues_Analyze (a b : Analyzer) :
  same_dispatch a b -> fst (Analyze a) = fst (Analyze b).
Proof.
  intros Hsame. pose proof Hsame as (Hexp & _). unfold Analyze. simpl.
  replace (Analyzer_ParseResult b) with (Analyzer_ParseResult a)
    by (change (Exported_ParseResult (exported a) = Exported_ParseResult (exported b));
        now rewrite Hexp).
  now destruct (same_runs_WalkTree (Ast (Analyzer_ParseResult a)) a b Hsame)
    as (_ & _ & _ & _ & Hissues).
Qed.

Lemma same_dispatch_fold_AddRule (more : list R) (a b : Analyzer) :
  same_dispatch a b -> same_dispatch (fold_left AddRule more a) (fold_left AddRule more b).
Proof.
  revert a b. induction more as [|rule more IH]; simpl; intros a b Hsame; [exact Hsame|].
  apply IH. exact (same_dispatch_perform a b (CallAddRule rule) Hsame).
Qed.

Lemma same_runs_exec (op : Op) (a b : Analyzer) :
  same_dispatch a b -> same_runs (exec op a) (exec op b).
Proof.
  intros Hsame. destruct op as [rule|issue|node|node|].
  - split; [reflexivity|]. exact (same_dispatch_perform a b (CallAddRule rule) Hsame).
  - split; [reflexivity|]. exact (same_dispatch_perform a b (CallReport issue) Hsame).
  - exact (same_runs_dispatch Enter node a b Hsame).
  - exact (same_runs_dispatch Leave node a b Hsame).
  - pose proof Hsame as (Hexp & _). unfold exec, Analyze. cbn [snd].
    replace (Analyzer_ParseResult b) with (Analyzer_ParseResult a)
      by (change (Exported_ParseResult (exported a) = Exported_ParseResult (exported b));
          now rewrite Hexp).
    now apply same_runs_WalkTree.
Qed.

Lemma same_runs_execs (ops : list Op) : forall a b : Analyzer,
  same_dispatch a b -> same_runs (execs ops a) (execs ops b).
Proof.
  induction ops as [|op rest IH]; intros a b Hsame; simpl.
  - now split.
  - apply same_runs_andThen; [now apply same_runs_exec | exact IH].
Qed.

(** C9. A rule that defines neither callback: [AddRule] puts it in the rule
    list and leaves both indices and the issues as they were; it is in no
    bucket of any analyzer reached from a constructor that was given it; no
    run, from any analyzer, invokes it; and the issues [Analyze] returns, as
    well as the events and issues of every host program, are the same with
    and without it, whether it was given to [NewAnalyzer] or to [AddRule]. *)
Theorem inert_rule_no_effect rule :
  OnEnter rule = None -> OnLeave rule = None ->
  forall (file : ParseResult) (before after : list R) (ops : list Op) ana phase typ node,
    rules (AddRule ana rule) = rules ana ++ [rule]
    /\ entryRulesForNode (AddRule ana rule) = entryRulesForNode ana
    /\ exitRulesForNode (AddRule ana rule) = exitRulesForNode ana
    /\ issuesRaised (AddRule ana rule) = issuesRaised ana
    /\ ~ In rule (index_get
          (index_of phase (fst (execs ops (NewAnalyzer file (before ++ rule :: after))))) typ)
    /\ ~ In (rule, node) (invocations phase (snd (execs ops ana)))
    /\ fst (Analyze (NewAnalyzer file (before ++ rule :: after)))
       = fst (Analyze (NewAnalyzer file (before ++ after)))
    /\ fst (Analyze (AddRule ana rule)) = fst (Analyze ana)
    /\ snd (execs ops (NewAnalyzer file (before ++ rule :: after)))
       = snd (execs ops (NewAnalyzer file (before ++ after)))
    /\ issuesRaised (fst (execs ops (NewAnalyzer file (before ++ rule :: after))))
       = issuesRaised (fst (execs ops (NewAnalyzer file (before ++ after))))
    /\ issuesRaised (fst (execs ops (AddRule ana rule))) = issuesRaised (fst (execs ops ana)).
Proof.
  intros He Hl file before after ops ana phase typ node.
  assert (Hnone : callback phase rule = None) by (now destruct phase).
  assert (Hnew : same_dispatch (NewAnalyzer file (before ++ rule :: after))
                               (NewAnalyzer file (before ++ after))).
  { rewrite !NewAnalyzer_app. simpl. apply same_dispatch_fold_AddRule.
    now apply same_dispatch_inert. }
  destruct (same_runs_execs ops _ _ Hnew) as (Hevents & _ & _ & _ & Hissues).
  destruct (same_runs_execs ops _ _ (same_dispatch_inert ana rule He Hl))
    as (_ & _ & _ & _ & Hissues').
  split; [apply AddRule_rules|].
  split; [now rewrite AddRule_entryRulesForNode, He|].
  split; [now rewrite AddRule_exitRulesForNode, Hl|].
  split; [apply AddRule_issuesRaised|].
  split; [|split; [|split; [|split; [|split; [exact Hevents | split; assumption]]]]].
  - rewrite (indexed_execs file _ ops). intros Hin.
    apply filter_In in Hin as [_ Hin]. apply interested_callback in Hin as [f Hf].
    congruence.
  - intros Hin. apply invoked_with_callback in Hin as [f Hf]. congruence.
  - now apply same_issues_Analyze.
  - apply same_issues_Analyze. now apply same_dispatch_inert.
Qed.

(** ** The registry only grows *)

Lemma index_of_Report phase ana (issue : Issue) :
  index_of phase (Report ana issue) = index_of phase ana.
Proof. now destruct phase. Qed.

Lemma index_replay events ana phase typ :
  index_get (index_of phase (fold_left perform (calls events) ana)) typ
  = index_get (index_of phase ana) typ
      ++ List.filter (interested phase typ) (registered events).
Proof.
  revert ana. induction events as [|[ph r n|[issue|rule]] events IH]; intros ana; simpl.
  - now rewrite app_nil_r.
  - apply IH.
  - now rewrite IH, index_of_Report.
  - rewrite IH, AddRule_index, <- app_assoc.
    now destruct (interested phase typ rule).
Qed.

(** X7. Over any sequence of method calls, from any analyzer, the rule list
    and every bucket only grow at their end: the rule list by the rules
    handed to [AddRule], in call order, and each bucket by those of them
    interested in its phase and type.  No rule is removed or moved. *)
Theorem registry_grows_at_the_end (ops : list Op) ana phase (typ : string) :
  rules (fst (execs ops ana)) = rules ana ++ registered (snd (execs ops ana))
  /\ index_get (index_of phase (fst (execs ops ana))) typ
     = index_get (index_of phase ana) typ
         ++ List.filter (interested phase typ) (registered (snd (execs ops ana))).
Proof.
  rewrite (replays_execs ops ana) at 1 2.
  split; [apply rules_replay | apply index_replay].
Qed.

(** X8. One dispatch reads its bucket once, before the first callback runs:
    [OnEnterNode] and [OnLeaveNode] invoke the rules that were in the bucket
    when the call started, and a rule that a callback registers during the
    call is not invoked by it, but stands at the end of its bucket when the
    call returns. *)
Theorem dispatch_reads_bucket_once ana node (typ : string) :
  invocations Enter (snd (snd (OnEnterNode ana node)))
  = map (fun rule => (rule, node))
      (List.filter (fun rule => bool_decide (is_Some (OnEnter rule)))
         (index_get (entryRulesForNode ana) (Type_ node)))
  /\ index_get (entryRulesForNode (fst (snd (OnEnterNode ana node)))) typ
     = index_get (entryRulesForNode ana) typ
         ++ List.filter (interested Enter typ) (registered (snd (snd (OnEnterNode ana node))))
  /\ invocations Leave (snd (OnLeaveNode ana node))
     = map (fun rule => (rule, node))
         (List.filter (fun rule => bool_decide (is_Some (OnLeave rule)))
            (index_get (exitRulesForNode ana) (Type_ node)))
  /\ index_get (exitRulesForNode (fst (OnLeaveNode ana node))) typ
     = index_get (exitRulesForNode ana) typ
         ++ List.filter (interested Leave typ) (registered (snd (OnLeaveNode ana node))).
Proof.
  split; [exact (invocations_dispatch Enter Enter ana node)|].
  split.
  { change (index_get (index_of Enter (fst (dispatch Enter ana node))) typ
            = index_get (index_of Enter ana) typ
                ++ List.filter (interested Enter typ) (registered (snd (dispatch Enter ana node)))).
    rewrite (replays_dispatch Enter ana node) at 1. apply index_replay. }
  split; [exact (invocations_dispatch Leave Leave ana node)|].
  change (index_get (index_of Leave (fst (dispatch Leave ana node))) typ
          = index_get (index_of Leave ana) typ
              ++ List.filter (interested Leave typ) (registered (snd (dispatch Leave ana node)))).
  rewrite (replays_dispatch Leave ana node) at 1. apply index_replay.
Qed.

(** ** Node types nobody registered for *)

Lemma dispatch_without_key phase ana node :
  index_of phase ana !! Type_ node = None -> dispatch phase ana node = (ana, []).
Proof. intros Hnone. unfold dispatch, index_get. now rewrite Hnone. Qed.

Lemma walk_all_untouched (nodes : list SitterNode) :
  Forall (fun node => forall ana,
    (forall node', In node' (preorder node) ->
       forall phase, index_of phase ana !! Type_ node' = None) ->
    WalkTree node ana = (ana, [])) nodes ->
  forall ana,
    (forall node', In node' (flat_map preorder nodes) ->
       forall phase, index_of phase ana !! Type_ node' = None) ->
    walk_all nodes ana = (ana, []).
Proof.
  induction 1 as [|node rest Hnode _ IH]; intros ana Hnone; simpl; [reflexivity|].
  rewrite Hnode by (intros node' Hin; apply Hnone; simpl; apply in_or_app; now left).
  unfold andThen. simpl.
  now rewrite IH by (intros node' Hin; apply Hnone; simpl; apply in_or_app; now right).
Qed.

Lemma WalkTree_untouched node : forall ana,
  (forall node', In node' (preorder node) ->
     forall phase, index_of phase ana !! Type_ node' = None) ->
  WalkTree node ana = (ana, []).
Proof.
  induction node as [typ rng children IH] using SitterNode_tree_ind. intros ana Hnone.
  assert (Hself : forall phase, index_of phase ana !! Type_ (MkNode typ rng children) = None)
    by (intros phase; apply Hnone; now left).
  rewrite WalkTree_unfold, (dispatch_without_key Enter) by apply Hself.
  unfold andThen. cbn [fst snd Children].
  rewrite (walk_all_untouched children IH)
    by (intros node' Hin; apply Hnone; now right).
  cbn [fst snd]. now rewrite (dispatch_without_key Leave) by apply Hself.
Qed.

(** X10. A node whose type is no key of the index costs a lookup and nothing
    else: [OnEnterNode] answers true and [OnLeaveNode] returns, both leaving
    the analyzer as it was and invoking nothing.  A walk over a tree none of
    whose node types is a key leaves the analyzer as it was; with no rule
    registered, [Analyze] returns no issue whatever the tree. *)
Theorem dispatch_without_bucket ana node (file : ParseResult) :
  (entryRulesForNode ana !! Type_ node = None -> OnEnterNode ana node = (true, (ana, [])))
  /\ (exitRulesForNode ana !! Type_ node = None -> OnLeaveNode ana node = (ana, []))
  /\ ((forall node', In node' (preorder node) ->
         forall phase, index_of phase ana !! Type_ node' = None) ->
      WalkTree node ana = (ana, []))
  /\ Analyze (NewAnalyzer file []) = ([], (NewAnalyzer file [], [])).
Proof.
  split; [|split; [|split]].
  - intros Hnone. rewrite OnEnterNode_dispatch.
    now rewrite (dispatch_without_key Enter ana node Hnone).
  - intros Hnone. rewrite OnLeaveNode_dispatch.
    exact (dispatch_without_key Leave ana node Hnone).
  - apply WalkTree_untouched.
  - unfold Analyze. rewrite WalkTree_untouched; [reflexivity|].
    intros node' _ phase. destruct phase; apply lookup_empty.
Qed.

(** ** The keys of the index *)

Lemma tight_indexed ana : tight ana -> indexed ana.
Proof.
  intros Htight phase typ. unfold index_get. rewrite Htight.
  now destruct (List.filter (interested phase typ) (rules ana)).
Qed.

Lemma index_of_AddRule phase ana rule :
  index_of phase (AddRule ana rule)
  = match callback phase rule with
    | Some _ => <[NodeType rule := index_get (index_of phase ana) (NodeType rule) ++ [rule]]>
                  (index_of phase ana)
    | None => index_of phase ana
    end.
Proof.
  destruct phase; simpl;
    [apply AddRule_entryRulesForNode | apply AddRule_exitRulesForNode].
Qed.

Lemma tight_AddRule ana rule : tight ana -> tight (AddRule ana rule).
Proof.
  intros Htight phase typ.
  pose proof (tight_indexed ana Htight phase) as Hidx.
  rewrite index_of_AddRule, AddRule_rules, List.filter_app. simpl.
  unfold interested at 2.
  destruct (callback phase rule) as [visitFn|] eqn:Hcb.
  - destruct (String.eqb_spec (NodeType rule) typ) as [<-|Hne].
    + rewrite lookup_insert_eq, Hidx.
      now destruct (List.filter (interested phase (NodeType rule)) (rules ana)).
    + rewrite lookup_insert_ne by exact Hne. now rewrite app_nil_r.
  - now rewrite app_nil_r.
Qed.

Lemma tight_perform ana (call : Call R) : tight ana -> tight (perform ana call).
Proof.
  destruct call as [issue|rule]; [|apply tight_AddRule].
  intros Htight phase typ. cbn [perform]. rewrite index_of_Report.
  exact (Htight phase typ).
Qed.

Lemma tight_replay events ana : tight ana -> tight (fold_left perform (calls events) ana).
Proof.
  revert ana. induction events as [|[ph r n|c] events IH]; intros ana Htight; simpl.
  - exact Htight.
  - now apply IH.
  - apply IH, tight_perform, Htight.
Qed.

Lemma tight_fold_AddRule (more : list R) ana : tight ana -> tight (fold_left AddRule more ana).
Proof.
  revert ana. induction more as [|rule more IH]; simpl; intros ana Htight; [exact Htight|].
  apply IH, tight_AddRule, Htight.
Qed.

Lemma tight_NewAnalyzer file (rules0 : list R) : tight (NewAnalyzer file rules0).
Proof.
  apply tight_fold_AddRule. intros phase typ. destruct phase; apply lookup_empty.
Qed.

Lemma tight_execs file (rules0 : list R) (ops : list Op) :
  tight (fst (execs ops (NewAnalyzer file rules0))).
Proof. rewrite (replays_execs ops). apply tight_replay, tight_NewAnalyzer. Qed.

(** X11. In every analyzer reached from a constructor the keys of an index
    are exactly the node types that some registered rule is interested in at
    that phase: a type has a bucket if and only if such a rule exists, the
    bucket is then the list of those rules in registration order, and no
    stored bucket is empty. *)
Theorem index_keys_are_registered_types
    (file : ParseResult) (rules0 : list R) (ops : list Op) phase (typ : string) :
  index_of phase (fst (execs ops (NewAnalyzer file rules0))) !! typ
  = match List.filter (interested phase typ) (rules (fst (execs ops (NewAnalyzer file rules0)))) with
    | [] => None
    | bucket => Some bucket
    end
  /\ (is_Some (index_of phase (fst (execs ops (NewAnalyzer file rules0))) !! typ)
      <-> exists rule, In rule (rules (fst (execs ops (NewAnalyzer file rules0))))
                       /\ interested phase typ rule = true)
  /\ map_Forall (fun _ bucket => bucket <> [])
       (index_of phase (fst (execs ops (NewAnalyzer file rules0)))).
Proof.
  pose proof (tight_execs file rules0 ops) as Htight.
  set (ana := fst (execs ops (NewAnalyzer file rules0))) in *.
  split; [apply Htight|]. split.
  - rewrite Htight. split.
    + intros [bucket Hb].
      destruct (List.filter (interested phase typ) (rules ana)) as [|rule rest] eqn:Hf;
        [discriminate|].
      exists rule. apply filter_In. rewrite Hf. now left.
    + intros (rule & Hin & Hint).
      assert (Hf : In rule (List.filter (interested phase typ) (rules ana)))
        by (apply filter_In; now split).
      destruct (List.filter (interested phase typ) (rules ana)); [destruct Hf | now eexists].
  - intros key bucket Hb. rewrite Htight in Hb.
    destruct (List.filter (interested phase key) (rules ana)); [discriminate|].
    injection Hb as <-. discriminate.
Qed.

(** ** Registration order across node types *)

Lemma tight_same_index (a b : Analyzer (ScopeTree := ScopeTree) (R := R)) phase :
  tight a -> tight b ->
  (forall typ, List.filter (interested phase typ) (rules a)
               = List.filter (interested phase typ) (rules b)) ->
  index_of phase a = index_of phase b.
Proof.
  intros Ha Hb Hsame. apply map_eq. intros typ. now rewrite Ha, Hb, Hsame.
Qed.

Lemma same_dispatch_NewAnalyzer file (rules1 rules2 : list R) :
  (forall phase typ, List.filter (interested phase typ) rules1
                     = List.filter (interested phase typ) rules2) ->
  same_dispatch (NewAnalyzer file rules1) (NewAnalyzer file rules2).
Proof.
  intros Hsame.
  assert (Hidx : forall phase,
    index_of phase (NewAnalyzer file rules1) = index_of phase (NewAnalyzer file rules2)).
  { intros phase. apply tight_same_index; try apply tight_NewAnalyzer.
    intros typ. rewrite !NewAnalyzer_rules. apply Hsame. }
  repeat split.
  - now rewrite !NewAnalyzer_exported.
  - exact (Hidx Enter).
  - exact (Hidx Leave).
  - unfold NewAnalyzer. now rewrite !issuesRaised_fold_AddRule.
Qed.

Lemma filter_swap_types phase typ rule1 rule2 (before after : list R) :
  NodeType rule1 <> NodeType rule2 ->
  List.filter (interested phase typ) (before ++ rule1 :: rule2 :: after)
  = List.filter (interested phase typ) (before ++ rule2 :: rule1 :: after).
Proof.
  intros Hne. rewrite !List.filter_app. f_equal. simpl.
  destruct (interested phase typ rule1) eqn:H1, (interested phase typ rule2) eqn:H2;
    try reflexivity.
  apply interested_NodeType in H1. apply interested_NodeType in H2. congruence.
Qed.

(** X12. The order in which rules are registered matters only among rules
    of the same node type.  Two rule lists that agree, for every phase and
    node type, on the sublist of rules interested in it produce the same
    index, and every host program then emits the same events and collects
    the same issues; in particular two neighbours in the list that declare
    different node types can be swapped. *)
Theorem order_matters_within_a_type_only
    (file : ParseResult) (rules1 rules2 before after : list R) rule1 rule2 (ops : list Op) :
  ((forall phase typ, List.filter (interested phase typ) rules1
                      = List.filter (interested phase typ) rules2) ->
     entryRulesForNode (NewAnalyzer file rules1) = entryRulesForNode (NewAnalyzer file rules2)
     /\ exitRulesForNode (NewAnalyzer file rules1) = exitRulesForNode (NewAnalyzer file rules2)
     /\ snd (execs ops (NewAnalyzer file rules1)) = snd (execs ops (NewAnalyzer file rules2))
     /\ issuesRaised (fst (execs ops (NewAnalyzer file rules1)))
        = issuesRaised (fst (execs ops (NewAnalyzer file rules2)))
     /\ fst (Analyze (NewAnalyzer file rules1)) = fst (Analyze (NewAnalyzer file rules2)))
  /\ (NodeType rule1 <> NodeType rule2 ->
        snd (execs ops (NewAnalyzer file (before ++ rule1 :: rule2 :: after)))
        = snd (execs ops (NewAnalyzer file (before ++ rule2 :: rule1 :: after)))
        /\ fst (Analyze (NewAnalyzer file (before ++ rule1 :: rule2 :: after)))
           = fst (Analyze (NewAnalyzer file (before ++ rule2 :: rule1 :: after)))).
Proof.
  assert (Hgen : forall l1 l2 : list R,
    (forall phase typ, List.filter (interested phase typ) l1
                       = List.filter (interested phase typ) l2) ->
    entryRulesForNode (NewAnalyzer file l1) = entryRulesForNode (NewAnalyzer file l2)
    /\ exitRulesForNode (NewAnalyzer file l1) = exitRulesForNode (NewAnalyzer file l2)
    /\ snd (execs ops (NewAnalyzer file l1)) = snd (execs ops (NewAnalyzer file l2))
    /\ issuesRaised (fst (execs ops (NewAnalyzer file l1)))
       = issuesRaised (fst (execs ops (NewAnalyzer file l2)))
    /\ fst (Analyze (NewAnalyzer file l1)) = fst (Analyze (NewAnalyzer file l2))).
  { intros l1 l2 Hsame.
    pose proof (same_dispatch_NewAnalyzer file l1 l2 Hsame) as Hnew.
    pose proof Hnew as (_ & Hentry & Hexit & _).
    destruct (same_runs_execs ops _ _ Hnew) as (Hevents & _ & _ & _ & Hissues).
    repeat split; try assumption. now apply same_issues_Analyze. }
  split; [apply Hgen|].
  intros Hne.
  destruct (Hgen (before ++ rule1 :: rule2 :: after) (before ++ rule2 :: rule1 :: after))
    as (_ & _ & Hevents & _ & Hissues).
  { intros phase typ. now apply filter_swap_types. }
  now split.
Qed.

(** ** Runs from analyzers with the same index *)

Section Related.

Variable Rel : Analyzer (ScopeTree := ScopeTree) (R := R) ->
  Analyzer (ScopeTree := ScopeTree) (R := R) -> Prop.

Hypothesis Rel_exported : forall a b, Rel a b -> exported a = exported b.
Hypothesis Rel_index : forall a b, Rel a b -> forall phase, index_of phase a = index_of phase b.
Hypothesis Rel_perform : forall a b (call : Call R), Rel a b -> Rel (perform a call) (perform b call).









End Related.







(** ** Leaving nodes *)

Lemma leave_walk_all (nodes : list SitterNode) :
  Forall (fun node => forall ana,
    indexed ana -> Forall reports_only (rules ana) ->
    invocations Leave (snd (WalkTree node ana)) = visits Leave (rules ana) (postorder node)) nodes ->
  forall ana,
    indexed ana -> Forall reports_only (rules ana) ->
    invocations Leave (snd (walk_all nodes ana))
    = visits Leave (rules ana) (flat_map postorder nodes).
Proof.
  induction 1 as [|node rest Hnode _ IH]; intros ana Hidx Hquiet; simpl; [reflexivity|].
  destruct (quiet_WalkTree node ana Hidx Hquiet) as (_ & Hrules & Hidx').
  rewrite invocations_app, visits_app, (Hnode ana Hidx Hquiet).
  rewrite IH by (rewrite ?Hrules; assumption).
  now rewrite Hrules.
Qed.

(** With callbacks that only report, a walk invokes on-exit callbacks node
    by node in the order it leaves the nodes, every node after the nodes
    below it. *)
Lemma leave_WalkTree node : forall ana,
  indexed ana -> Forall reports_only (rules ana) ->
  invocations Leave (snd (WalkTree node ana)) = visits Leave (rules ana) (postorder node).
Proof.
  induction node as [typ rng children IH] using SitterNode_tree_ind.
  intros ana Hidx Hquiet.
  rewrite WalkTree_unfold. unfold andThen. simpl snd. simpl fst.
  rewrite !invocations_app.
  rewrite (invocations_dispatch Enter Leave). simpl app.
  destruct (quiet_dispatch Enter ana (MkNode typ rng children) Hidx Hquiet)
    as (_ & Hrules & Hidx').
  assert (Hquiet' : Forall reports_only
            (rules (fst (dispatch Enter ana (MkNode typ rng children)))))
    by now rewrite Hrules.
  rewrite (leave_walk_all children IH _ Hidx' Hquiet').
  destruct (quiet_walk_all children _ Hidx' Hquiet') as (_ & Hrules'' & Hidx'').
  rewrite invocations_dispatch_indexed by exact Hidx''.
  cbn [postorder]. rewrite Hrules'', Hrules, visits_app.
  unfold visits at 3. simpl. now rewrite app_nil_r.
Qed.

Lemma leave_exec (op : Op) ana :
  indexed ana -> Forall reports_only (rules ana) ->
  adds_no_rule op = true ->
  invocations Leave (snd (exec op ana))
  = visits Leave (rules ana) (left_ (Analyzer_ParseResult ana) [op]).
Proof.
  intros Hidx Hquiet Hop. destruct op as [rule|issue|node|node|].
  - discriminate.
  - reflexivity.
  - exact (invocations_dispatch Enter Leave ana node).
  - unfold left_, visits. simpl flat_map. rewrite !app_nil_r.
    exact (invocations_dispatch_indexed Leave ana node Hidx).
  - unfold left_. simpl flat_map. rewrite app_nil_r.
    exact (leave_WalkTree _ ana Hidx Hquiet).
Qed.

Lemma left_cons (file : ParseResult (ScopeTree := ScopeTree)) (op : Op (R := R))
    (rest : list Op) :
  left_ file (op :: rest) = left_ file [op] ++ left_ file rest.
Proof. unfold left_. simpl. now rewrite app_nil_r. Qed.

Lemma leave_execs (ops : list Op) : forall ana,
  indexed ana -> Forall reports_only (rules ana) ->
  forallb adds_no_rule ops = true ->
  invocations Leave (snd (execs ops ana))
  = visits Leave (rules ana) (left_ (Analyzer_ParseResult ana) ops).
Proof.
  induction ops as [|op rest IH]; intros ana Hidx Hquiet Hops; [reflexivity|].
  simpl in Hops. apply andb_prop in Hops as [Hop Hrest].
  destruct (quiet_exec op ana Hop Hidx Hquiet) as (_ & Hrules & Hidx').
  rewrite left_cons.
  cbn [execs]. unfold andThen. cbn [fst snd].
  rewrite invocations_app, visits_app, (leave_exec op ana Hidx Hquiet Hop).
  rewrite IH by (rewrite ?Hrules; assumption).
  rewrite Hrules.
  replace (Analyzer_ParseResult (fst (exec op ana))) with (Analyzer_ParseResult ana)
    by (change (Exported_ParseResult (exported ana)
                = Exported_ParseResult (exported (fst (exec op ana))));
        now rewrite exported_exec).
  reflexivity.
Qed.

Lemma postorder_Permutation node : Permutation (postorder node) (preorder node).
Proof.
  induction node as [typ rng children IH] using SitterNode_tree_ind.
  cbn [postorder preorder].
  etransitivity; [symmetry; apply Permutation_cons_append|].
  apply perm_skip.
  induction IH as [|child rest Hchild _ IHrest]; simpl; [reflexivity|].
  now apply Permutation_app.
Qed.

(** X14. [OnLeaveNode] is the mirror of [OnEnterNode] on the exit index.  It
    invokes, on the node, the rules of the exit bucket of the node's exact
    type that pass the nil test, in bucket order, and no on-enter callback;
    [OnEnterNode] invokes no on-exit callback.  In every run from a
    constructor an on-exit callback goes to a rule that defines on-exit, on a
    node of the type the rule declares.  When the callbacks of the registered
    rules only report and the host adds no rule, on-exit callbacks are
    invoked node by node in the order the nodes are left; for [Analyze] that
    is the post-order of the tree, which holds the nodes of the pre-order.
    An invocation is an application: the events of [OnLeaveNode] are, rule
    by rule of the bucket, the invocation and the method calls the on-exit
    callback makes when applied to the rule, the exported fields of the
    analyzer and the node; the analyzer after the call is the analyzer before
    it with those calls performed in order; every invocation of a run from a
    constructor is such an application, on a node of the rule's type; and
    with callbacks that only report the events of a host program are those
    of [op_events], for [Analyze] the walk of [walk_events], where the
    on-exit applications on a node follow the events of its whole subtree. *)
Theorem leave_dispatch_mirrors_enter
    (file : ParseResult) (rules0 : list R) (ops : list Op) ana node :
  invocations Leave (snd (OnLeaveNode ana node))
  = map (fun rule' => (rule', node))
      (List.filter (fun rule' => bool_decide (is_Some (OnLeave rule')))
         (index_get (exitRulesForNode ana) (Type_ node)))
  /\ invocations Enter (snd (OnLeaveNode ana node)) = []
  /\ invocations Leave (snd (snd (OnEnterNode ana node))) = []
  /\ invocations Leave (snd (OnLeaveNode (fst (execs ops (NewAnalyzer file rules0))) node))
     = map (fun rule' => (rule', node))
         (List.filter (interested Leave (Type_ node))
            (rules (fst (execs ops (NewAnalyzer file rules0)))))
  /\ (forall rule' node',
        In (rule', node') (invocations Leave (snd (execs ops (NewAnalyzer file rules0)))) ->
        NodeType rule' = Type_ node' /\ is_Some (OnLeave rule'))
  /\ (Forall reports_only rules0 -> forallb adds_no_rule ops = true ->
        invocations Leave (snd (execs ops (NewAnalyzer file rules0)))
        = visits Leave rules0 (left_ file ops))
  /\ (Forall reports_only rules0 ->
        invocations Leave (snd (snd (Analyze (NewAnalyzer file rules0))))
        = visits Leave rules0 (postorder (Ast file)))
  /\ Permutation (postorder (Ast file)) (preorder (Ast file))
  /\ snd (OnLeaveNode ana node)
     = bucket_events Leave (exported ana)
         (index_get (exitRulesForNode ana) (Type_ node)) node
  /\ fst (OnLeaveNode ana node)
     = fold_left perform (calls (snd (OnLeaveNode ana node))) ana
  /\ snd (OnLeaveNode (fst (execs ops (NewAnalyzer file rules0))) node)
     = node_events Leave (rules (fst (execs ops (NewAnalyzer file rules0))))
         {| Exported_Language := ParseResult_Language file; Exported_ParseResult := file |}
         node
  /\ explained
       {| Exported_Language := ParseResult_Language file; Exported_ParseResult := file |}
       (snd (execs ops (NewAnalyzer file rules0)))
  /\ (Forall reports_only rules0 -> forallb adds_no_rule ops = true ->
        snd (execs ops (NewAnalyzer file rules0)) = flat_map (op_events rules0 file) ops)
  /\ (Forall reports_only rules0 ->
        snd (snd (Analyze (NewAnalyzer file rules0)))
        = walk_events rules0
            {| Exported_Language := ParseResult_Language file; Exported_ParseResult := file |}
            (Ast file)).
Proof.
  split; [exact (invocations_dispatch Leave Leave ana node)|].
  split; [exact (invocations_dispatch Leave Enter ana node)|].
  split; [exact (invocations_dispatch Enter Leave ana node)|].
  split; [apply (invocations_dispatch_indexed Leave), indexed_execs|].
  split; [|split; [|split; [|split]]].
  - intros rule' node' Hin. split.
    + exact (proj2 (invoked_on_declared_type ops (NewAnalyzer file rules0)
               (indexed_NewAnalyzer _ _)) Leave rule' node' Hin).
    + exact (invoked_with_callback ops (NewAnalyzer file rules0) Leave rule' node' Hin).
  - intros Hquiet Hops. rewrite leave_execs.
    + now rewrite NewAnalyzer_rules, NewAnalyzer_ParseResult.
    + apply indexed_NewAnalyzer.
    + now rewrite NewAnalyzer_rules.
    + exact Hops.
  - intros Hquiet. unfold Analyze. simpl.
    rewrite leave_WalkTree.
    + now rewrite NewAnalyzer_rules, NewAnalyzer_ParseResult.
    + apply indexed_NewAnalyzer.
    + now rewrite NewAnalyzer_rules.
  - apply postorder_Permutation.
  - split; [exact (events_dispatch Leave ana node)|].
    split; [exact (replays_dispatch Leave ana node)|].
    split; [exact (events_dispatch_NewAnalyzer Leave file rules0 ops node)|].
    split; [apply explained_NewAnalyzer|].
    split; [apply events_execs_NewAnalyzer | apply events_Analyze_NewAnalyzer].
Qed.

(** ** Buckets keep every registration *)

Lemma registrations_app rule (l l' : list R) :
  registrations rule (l ++ l') = registrations rule l + registrations rule l'.
Proof. unfold registrations. now rewrite List.filter_app, length_app. Qed.

Lemma registrations_interested phase typ rule (rules0 : list R) :
  registrations rule (List.filter (interested phase typ) rules0)
  = if interested phase typ rule then registrations rule rules0 else 0.
Proof.
  unfold registrations.
  induction rules0 as [|rule' rest IH]; simpl.
  - now destruct (interested phase typ rule).
  - destruct (decide (rule' = rule)) as [->|Hne].
    + rewrite bool_decide_true by reflexivity.
      destruct (interested phase typ rule) eqn:Hint; simpl.
      * rewrite bool_decide_true by reflexivity. simpl. now rewrite IH.
      * exact IH.
    + rewrite (bool_decide_false (rule' = rule)) by exact Hne.
      destruct (interested phase typ rule'); simpl; [|exact IH].
      rewrite bool_decide_false by exact Hne. exact IH.
Qed.

(** X15. Registration never removes a duplicate.  [AddRule] with a rule that
    is already registered adds one more copy to the rule list and to each
    bucket the rule belongs to; in every analyzer reached from a constructor
    a bucket holds a rule as many times as the rule list does when the rule
    is interested in the bucket's phase and type, and not at all otherwise;
    and one dispatch invokes a rule as many times as its bucket holds it. *)
Theorem buckets_keep_every_registration
    (file : ParseResult) (rules0 : list R) (ops : list Op) ana rule phase (typ : string)
    node :
  registrations rule (rules (AddRule ana rule)) = S (registrations rule (rules ana))
  /\ registrations rule (index_get (index_of phase (AddRule ana rule)) typ)
     = registrations rule (index_get (index_of phase ana) typ)
       + (if interested phase typ rule then 1 else 0)
  /\ registrations rule
       (index_get (index_of phase (fst (execs ops (NewAnalyzer file rules0)))) typ)
     = (if interested phase typ rule
        then registrations rule (rules (fst (execs ops (NewAnalyzer file rules0))))
        else 0)
  /\ times_invoked rule
       (invocations Enter
          (snd (snd (OnEnterNode (fst (execs ops (NewAnalyzer file rules0))) node))))
     = registrations rule
         (index_get (entryRulesForNode (fst (execs ops (NewAnalyzer file rules0)))) (Type_ node))
  /\ times_invoked rule
       (invocations Leave (snd (OnLeaveNode (fst (execs ops (NewAnalyzer file rules0))) node)))
     = registrations rule
         (index_get (exitRulesForNode (fst (execs ops (NewAnalyzer file rules0)))) (Type_ node)).
Proof.
  assert (Hself : registrations rule [rule] = 1).
  { unfold registrations. simpl. now rewrite bool_decide_true by reflexivity. }
  pose proof (indexed_execs file rules0 ops) as Hidx.
  assert (Hcount : forall phase',
    times_invoked rule
      (invocations phase'
         (snd (dispatch phase' (fst (execs ops (NewAnalyzer file rules0))) node)))
    = registrations rule
        (index_get (index_of phase' (fst (execs ops (NewAnalyzer file rules0)))) (Type_ node))).
  { intros phase'. rewrite invocations_dispatch_indexed by exact Hidx.
    rewrite Hidx. unfold times_invoked, registrations.
    induction (List.filter (interested phase' (Type_ node))
                 (rules (fst (execs ops (NewAnalyzer file rules0))))) as [|r rest IH];
      simpl; [reflexivity|].
    destruct (bool_decide (r = rule)); simpl; now rewrite IH. }
  split; [|split; [|split; [|split]]].
  - rewrite AddRule_rules, registrations_app, Hself. lia.
  - rewrite AddRule_index, registrations_app.
    destruct (interested phase typ rule); [now rewrite Hself | reflexivity].
  - rewrite Hidx. apply registrations_interested.
  - exact (Hcount Enter).
  - exact (Hcount Leave).
Qed.

End AnalyzerFacts.

(* ===================================================================== *)
(** * Facts: from a path to an analyzer *)
(* ===================================================================== *)

Section FromFileFacts.

Context {ScopeTree : Type}.
Variable MakeScopeTree : Language -> SitterNode -> bytes -> option ScopeTree.
Variable ParseCtx : bytes -> option SitterLanguage -> SitterNode + error.
Variable ReadFile : string -> bytes + error.
Context {R : Type} {RuleR : Rule (ScopeTree := ScopeTree) R}.

Implicit Types (ana : Analyzer (ScopeTree := ScopeTree) (R := R)).

Lemma ParseFile_result_or_error (filePath : string) :
  (exists res, fst (ParseFile MakeScopeTree ParseCtx ReadFile filePath) = (Some res, None))
  \/ (exists err, fst (ParseFile MakeScopeTree ParseCtx ReadFile filePath) = (None, Some err)).
Proof.
  unfold ParseFile, Parse.
  destruct (Grammar (LanguageFromFilePath filePath)); [|right; now eexists].
  destruct (ReadFile filePath) as [source|err]; [|right; now eexists].
  cbn [fst]. destruct (ParseCtx source _); [left | right]; now eexists.
Qed.

(** X16. [FromFile] never hands a nil ParseResult to [NewAnalyzer], which
    would dereference it: it returns, and returns exactly one of an analyzer
    and an error.  The error is the one [ParseFile] gave, unchanged; the
    analyzer is [NewAnalyzer] on the ParseResult [ParseFile] gave and the
    base rules; the file system is read as [ParseFile] reads it. *)
Theorem from_file_analyzer_xor_error (filePath : string) (baseRules : list R) :
  FromFile MakeScopeTree ParseCtx ReadFile filePath baseRules
  = Some ((option_map (fun res => NewAnalyzer res baseRules)
             (fst (fst (ParseFile MakeScopeTree ParseCtx ReadFile filePath))),
           snd (fst (ParseFile MakeScopeTree ParseCtx ReadFile filePath))),
          snd (ParseFile MakeScopeTree ParseCtx ReadFile filePath))
  /\ ((exists ana reads,
         FromFile MakeScopeTree ParseCtx ReadFile filePath baseRules
         = Some ((Some ana, None), reads))
      \/ (exists err reads,
            FromFile MakeScopeTree ParseCtx ReadFile filePath baseRules
            = Some ((None, Some err), reads))).
Proof.
  unfold FromFile.
  destruct (ParseFile_result_or_error filePath) as [[res Hres]|[err Herr]].
  - destruct (ParseFile MakeScopeTree ParseCtx ReadFile filePath) as [[r e] reads].
    simpl in *. injection Hres as -> ->. split; [reflexivity|]. left. now eexists _, _.
  - destruct (ParseFile MakeScopeTree ParseCtx ReadFile filePath) as [[r e] reads].
    simpl in *. injection Herr as -> ->. split; [reflexivity|]. right. now eexists _, _.
Qed.

(** X17. An analyzer that [FromFile] returns comes with no error, after one
    read of the given path, and is a fresh analyzer over that file: it holds
    the base rules in their order, indexed by phase and node type, and no
    issue; its language is the language of the path and is not Unknown; its
    ParseResult carries the path, the contents the file system holds for it
    and the root the engine made of them with the grammar of the language. *)
Theorem from_file_analyzer_describes_file (filePath : string) (baseRules : list R)
    ana (err : option error) (reads : list string) :
  FromFile MakeScopeTree ParseCtx ReadFile filePath baseRules = Some ((Some ana, err), reads) ->
  err = None
  /\ reads = [filePath]
  /\ rules ana = baseRules
  /\ issuesRaised ana = []
  /\ (forall phase typ,
        index_get (index_of phase ana) typ = List.filter (interested phase typ) baseRules)
  /\ Analyzer_Language ana = LanguageFromFilePath filePath
  /\ Analyzer_Language ana <> LangUnknown
  /\ ParseResult_Language (Analyzer_ParseResult ana) = Analyzer_Language ana
  /\ FilePath (Analyzer_ParseResult ana) = filePath
  /\ TsLanguage (Analyzer_ParseResult ana) = Grammar (Analyzer_Language ana)
  /\ ReadFile filePath = inl (Source (Analyzer_ParseResult ana))
  /\ ParseCtx (Source (Analyzer_ParseResult ana)) (TsLanguage (Analyzer_ParseResult ana))
     = inl (Ast (Analyzer_ParseResult ana)).
Proof.
  unfold FromFile, ParseFile.
  destruct (Grammar (LanguageFromFilePath filePath)) as [g|] eqn:Hg; [|discriminate].
  destruct (ReadFile filePath) as [source|e] eqn:Hread; [|discriminate].
  unfold Parse. cbn [fst snd].
  destruct (ParseCtx source (Some g)) as [ast|e] eqn:Hparse; [|discriminate].
  cbn [fst snd]. intros Hout. injection Hout as <- <- <-.
  set (res := {| Ast := ast; Source := source; FilePath := filePath;
                 TsLanguage := Some g;
                 ParseResult_Language := LanguageFromFilePath filePath;
                 ParseResult_ScopeTree :=
                   MakeScopeTree (LanguageFromFilePath filePath) ast source |}).
  assert (Hexp : exported (NewAnalyzer res baseRules)
                 = {| Exported_Language := ParseResult_Language res;
                      Exported_ParseResult := res |})
    by apply NewAnalyzer_exported.
  assert (Hfile : Analyzer_ParseResult (NewAnalyzer res baseRules) = res)
    by exact (f_equal Exported_ParseResult Hexp).
  assert (Hlang : Analyzer_Language (NewAnalyzer res baseRules) = LanguageFromFilePath filePath)
    by exact (f_equal Exported_Language Hexp).
  rewrite Hfile, Hlang. cbn [res Ast Source FilePath TsLanguage ParseResult_Language].
  split; [reflexivity|]. split; [reflexivity|].
  split; [apply NewAnalyzer_rules|].
  split; [unfold NewAnalyzer; now rewrite issuesRaised_fold_AddRule|].
  split.
  { intros phase typ. rewrite (indexed_NewAnalyzer res baseRules phase typ).
    now rewrite NewAnalyzer_rules. }
  split; [reflexivity|].
  split; [intros Hun; rewrite Hun in Hg; discriminate|].
  split; [reflexivity|]. split; [reflexivity|].
  split; [now rewrite Hg|]. split; [reflexivity | exact Hparse].
Qed.

(** X18. [FromFile] fails in three ways and no other, tried in this order:
    the extension of the path is none of the five, and nothing is read; the
    file cannot be read, and the error of the read comes back as it is; the
    engine fails on the contents.  When none applies it returns an analyzer.
    The base rules play no part in the failure. *)
Theorem from_file_failures (filePath : string) (baseRules otherRules : list R) :
  (~ In (Ext filePath) [".py"; ".js"; ".jsx"; ".ts"; ".tsx"] ->
     FromFile MakeScopeTree ParseCtx ReadFile filePath baseRules
     = Some ((None, Some (ErrorString ("unsupported file type: " +:+ filePath))), []))
  /\ (In (Ext filePath) [".py"; ".js"; ".jsx"; ".ts"; ".tsx"] ->
      forall err, ReadFile filePath = inr err ->
        FromFile MakeScopeTree ParseCtx ReadFile filePath baseRules
        = Some ((None, Some err), [filePath]))
  /\ (In (Ext filePath) [".py"; ".js"; ".jsx"; ".ts"; ".tsx"] ->
      forall source err, ReadFile filePath = inl source ->
        ParseCtx source (Grammar (LanguageFromFilePath filePath)) = inr err ->
        FromFile MakeScopeTree ParseCtx ReadFile filePath baseRules
        = Some ((None, Some (ErrorString ("failed to parse " +:+ filePath))), [filePath]))
  /\ (In (Ext filePath) [".py"; ".js"; ".jsx"; ".ts"; ".tsx"] ->
      forall source ast, ReadFile filePath = inl source ->
        ParseCtx source (Grammar (LanguageFromFilePath filePath)) = inl ast ->
        exists ana,
          FromFile MakeScopeTree ParseCtx ReadFile filePath baseRules
          = Some ((Some ana, None), [filePath])
          /\ Ast (Analyzer_ParseResult ana) = ast)
  /\ option_map (fun out => (snd (fst out), snd out))
       (FromFile MakeScopeTree ParseCtx ReadFile filePath baseRules)
     = option_map (fun out => (snd (fst out), snd out))
         (FromFile MakeScopeTree ParseCtx ReadFile filePath otherRules).
Proof.
  assert (Hknown : In (Ext filePath) [".py"; ".js"; ".jsx"; ".ts"; ".tsx"]
                   -> Grammar (LanguageFromFilePath filePath) <> None).
  { unfold LanguageFromFilePath.
    intros [H|[H|[H|[H|[H|[]]]]]]; rewrite <- H; discriminate. }
  assert (Hunknown : ~ In (Ext filePath) [".py"; ".js"; ".jsx"; ".ts"; ".tsx"]
                     -> Grammar (LanguageFromFilePath filePath) = None).
  { intros Hout. rewrite LanguageFromFilePath_table.
    unfold resolveLanguage_spec. now rewrite table_lookup_miss. }
  unfold FromFile, ParseFile, Parse, Errorf.
  split; [|split; [|split; [|split]]].
  - intros Hout. now rewrite (Hunknown Hout).
  - intros Hin err Hread. apply Hknown in Hin.
    destruct (Grammar (LanguageFromFilePath filePath)); [|now contradiction Hin].
    now rewrite Hread.
  - intros Hin source err Hread Hparse. apply Hknown in Hin.
    destruct (Grammar (LanguageFromFilePath filePath)); [|now contradiction Hin].
    rewrite Hread. cbn [fst snd]. now rewrite Hparse.
  - intros Hin source ast Hread Hparse. apply Hknown in Hin.
    destruct (Grammar (LanguageFromFilePath filePath)); [|now contradiction Hin].
    rewrite Hread. cbn [fst snd]. rewrite Hparse. cbn [fst snd].
    eexists. split; [reflexivity|].
    now rewrite NewAnalyzer_ParseResult.
  - destruct (Grammar (LanguageFromFilePath filePath)); [|reflexivity].
    destruct (ReadFile filePath) as [source|err]; [|reflexivity].
    cbn [fst snd]. now destruct (ParseCtx source _).
Qed.

(** X19. From path to issues.  When the file can be read and parsed,
    [Analyze] on the analyzer of [FromFile] walks the root the engine made of
    the file's contents: with base rules whose callbacks only report, its
    events are those of [walk_events] on that root (at each node the
    on-enter callbacks of the base rules interested in the node's type, in
    their order, each applied to the rule, the exported fields of the
    analyzer and the node; then the subtrees; then the on-exit callbacks),
    so that on-enter callbacks run in the pre-order of the tree and on-exit
    callbacks in its post-order, and it returns the issues those
    applications report, in report order.  With no base rule it returns no
    issue. *)
Theorem from_file_then_analyze (filePath : string) (baseRules : list R)
    (source : bytes) (ast : SitterNode) :
  In (Ext filePath) [".py"; ".js"; ".jsx"; ".ts"; ".tsx"] ->
  ReadFile filePath = inl source ->
  ParseCtx source (Grammar (LanguageFromFilePath filePath)) = inl ast ->
  exists ana,
    FromFile MakeScopeTree ParseCtx ReadFile filePath baseRules
    = Some ((Some ana, None), [filePath])
    /\ fst (Analyze ana) = reported (snd (snd (Analyze ana)))
    /\ (Forall reports_only baseRules ->
          invocations Enter (snd (snd (Analyze ana))) = visits Enter baseRules (preorder ast)
          /\ invocations Leave (snd (snd (Analyze ana))) = visits Leave baseRules (postorder ast))
    /\ (baseRules = [] -> fst (Analyze ana) = [])
    /\ Exported_Language (exported ana) = LanguageFromFilePath filePath
    /\ Ast (Exported_ParseResult (exported ana)) = ast
    /\ (Forall reports_only baseRules ->
          snd (snd (Analyze ana)) = walk_events baseRules (exported ana) ast
          /\ fst (Analyze ana) = reported (walk_events baseRules (exported ana) ast)).
Proof.
  intros Hin Hread Hparse.
  assert (Hg : Grammar (LanguageFromFilePath filePath) <> None).
  { revert Hin. unfold LanguageFromFilePath.
    intros [H|[H|[H|[H|[H|[]]]]]]; rewrite <- H; discriminate. }
  unfold FromFile, ParseFile, Parse.
  destruct (Grammar (LanguageFromFilePath filePath)) as [g|]; [|now contradiction Hg].
  rewrite Hread. cbn [fst snd]. rewrite Hparse. cbn [fst snd].
  set (res := {| Ast := ast; Source := source; FilePath := filePath;
                 TsLanguage := Some g;
                 ParseResult_Language := LanguageFromFilePath filePath;
                 ParseResult_ScopeTree :=
                   MakeScopeTree (LanguageFromFilePath filePath) ast source |}).
  exists (NewAnalyzer res baseRules).
  pose proof (issues_Analyze_NewAnalyzer res baseRules) as Hissues.
  assert (Hevents : Forall reports_only baseRules ->
    snd (snd (Analyze (NewAnalyzer res baseRules)))
    = walk_events baseRules (exported (NewAnalyzer res baseRules)) ast).
  { intros Hquiet. rewrite NewAnalyzer_exported.
    exact (events_Analyze_NewAnalyzer res baseRules Hquiet). }
  split; [reflexivity|]. split; [exact Hissues|]. split; [|split; [|split; [|split]]].
  - intros Hquiet. unfold Analyze. cbn [fst snd].
    rewrite NewAnalyzer_ParseResult. cbn [res Ast].
    rewrite enter_WalkTree, leave_WalkTree, NewAnalyzer_rules;
      try apply indexed_NewAnalyzer; try (now rewrite NewAnalyzer_rules).
    now split.
  - intros ->. rewrite Hissues. unfold Analyze. cbn [fst snd].
    rewrite WalkTree_untouched; [reflexivity|].
    intros node' _ phase. destruct phase; apply lookup_empty.
  - now rewrite NewAnalyzer_exported.
  - now rewrite NewAnalyzer_exported.
  - intros Hquiet. split; [exact (Hevents Hquiet)|].
    now rewrite Hissues, (Hevents Hquiet).
Qed.

End FromFileFacts.

(* ===================================================================== *)
(** * Facts: rules with state *)
(* ===================================================================== *)

Section StatefulFacts.

Context {ScopeTree : Type} {W : Type} {R : Type}.
Context {RuleR : Stateful.Rule (ScopeTree := ScopeTree) (W := W) R}.

Implicit Types (ana : Analyzer (ScopeTree := ScopeTree) (R := R)).
Implicit Types (rule : R) (node : SitterNode) (phase : Phase) (w : W).

(** [AddRule] appends the rule to the bucket of its phase and type exactly
    when the rule answered a pointer that is not nil, in the state in which
    it was asked. *)
Lemma Stateful_AddRule_index phase ana rule w (typ : string) :
  index_get (index_of phase (fst (Stateful.AddRule ana rule w))) typ
  = index_get (index_of phase ana) typ
      ++ match fst (Stateful.callback phase rule (Stateful.asked_in phase rule w)) with
         | Some _ => if String.eqb (fst (Stateful.NodeType rule w)) typ then [rule] else []
         | None => []
         end.
Proof.
  unfold Stateful.AddRule, Stateful.asked_in, Stateful.callback.
  destruct phase.
  all: destruct (Stateful.NodeType rule w) as [key w1]; cbn [fst snd].
  all: destruct (Stateful.OnEnter rule w1) as [enter w2]; cbn [fst snd].
  all: destruct (Stateful.OnLeave rule w2) as [leave w3]; cbn [fst snd].
  all: destruct enter, leave; simpl; rewrite ?index_get_insert, ?app_nil_r; try reflexivity.
  all: destruct (String.eqb_spec key typ) as [<-|Hne]; now rewrite ?app_nil_r.
Qed.

Lemma Stateful_AddRule_rules ana rule w :
  rules (fst (Stateful.AddRule ana rule w)) = rules ana ++ [rule].
Proof.
  unfold Stateful.AddRule.
  destruct (fst (Stateful.OnEnter rule _)), (fst (Stateful.OnLeave rule _)); reflexivity.
Qed.

Lemma answering_AddRule ana rule w :
  Stateful.steady rule -> Stateful.answering ana ->
  Stateful.answering (fst (Stateful.AddRule ana rule w)).
Proof.
  intros Hsteady Hans phase typ rule' Hin w'.
  rewrite Stateful_AddRule_index in Hin. apply in_app_or in Hin as [Hin|Hin].
  - exact (Hans phase typ rule' Hin w').
  - destruct (fst (Stateful.callback phase rule (Stateful.asked_in phase rule w)))
      as [fn|] eqn:Hcb; [|destruct Hin].
    destruct (String.eqb (fst (Stateful.NodeType rule w)) typ); [|destruct Hin].
    destruct Hin as [<-|[]].
    apply (Hsteady phase (Stateful.asked_in phase rule w) w'). rewrite Hcb. now eexists.
Qed.

Lemma answering_Report ana (issue : Issue) :
  Stateful.answering ana -> Stateful.answering (Report ana issue).
Proof.
  intros Hans phase typ rule Hin. apply (Hans phase typ rule).
  now destruct phase.
Qed.

Lemma answering_fold_AddRule (more : list R) : forall ana w,
  (forall rule, Stateful.steady rule) -> Stateful.answering ana ->
  Stateful.answering
    (fst (fold_left (fun st rule => Stateful.AddRule (fst st) rule (snd st)) more (ana, w))).
Proof.
  induction more as [|rule more IH]; intros ana w Hsteady Hans; [exact Hans|].
  cbn [fold_left fst snd].
  destruct (Stateful.AddRule ana rule w) as [ana' w'] eqn:Hadd.
  apply IH; [exact Hsteady|].
  replace ana' with (fst (Stateful.AddRule ana rule w)) by now rewrite Hadd.
  now apply answering_AddRule.
Qed.

Lemma answering_built ana :
  (forall rule, Stateful.steady rule) -> Stateful.built ana -> Stateful.answering ana.
Proof.
  intros Hsteady. induction 1 as [file rules0 w|ana rule w _ IH|ana issue _ IH].
  - apply answering_fold_AddRule; [exact Hsteady|].
    intros phase typ rule Hin. destruct phase; unfold index_get in Hin; simpl in Hin;
      rewrite lookup_empty in Hin; destruct Hin.
  - now apply answering_AddRule.
  - now apply answering_Report.
Qed.

Lemma built_perform ana w (call : Call R) :
  Stateful.built ana -> Stateful.built (fst (Stateful.perform (ana, w) call)).
Proof. intros Hb. destruct call as [issue|rule]; now constructor. Qed.

Lemma built_act (action : Stateful.Action R) : forall ana,
  Stateful.built ana -> Stateful.built (fst (fst (Stateful.act action ana))).
Proof.
  induction action as [w|call w next IH]; intros ana Hb; [exact Hb|].
  cbn [Stateful.act fst snd]. apply IH. now apply built_perform.
Qed.

Lemma guard_taken_app (events events' : list (Stateful.Event (R := R))) :
  Stateful.guard_taken (events ++ events')
  <-> Stateful.guard_taken events \/ Stateful.guard_taken events'.
Proof.
  unfold Stateful.guard_taken. split.
  - intros (phase & rule & node & Hin). apply in_app_or in Hin as [Hin|Hin];
      [left | right]; now exists phase, rule, node.
  - intros [(phase & rule & node & Hin)|(phase & rule & node & Hin)];
      exists phase, rule, node; apply in_or_app; [now left | now right].
Qed.

Lemma guard_not_taken_Called (events : list (Stateful.Event (R := R))) phase rule node
    (cs : list (Call R)) :
  ~ Stateful.guard_taken (Stateful.Invoked phase rule node :: map Stateful.Called cs).
Proof.
  intros (phase' & rule' & node' & [Heq|Hin]); [discriminate|].
  apply in_map_iff in Hin as (c & Hc & _). discriminate.
Qed.

(** The loop of a dispatch over rules that answer a callback in every
    state: the nil test never fails, the run ends in a built analyzer, and
    it returns when none of the answers points to the nil func. *)
Lemma dispatch_loop_answering phase node (bucket : list R) : forall ana w,
  Forall (fun rule => forall w', is_Some (fst (Stateful.callback phase rule w'))) bucket ->
  Stateful.built ana ->
  (forall run,
     Stateful.range_loop (fun rule ana w =>
         let visitFn := Stateful.callback phase rule w in
         match fst visitFn with
         | Some fn => Stateful.invoke phase fn rule ana node (snd visitFn)
         | None => Some ((ana, snd visitFn), [Stateful.Skipped phase rule node])
         end) bucket ana w = Some run ->
     Stateful.built (fst (fst run)) /\ ~ Stateful.guard_taken (snd run))
  /\ (Forall Stateful.sound bucket ->
      Stateful.range_loop (fun rule ana w =>
         let visitFn := Stateful.callback phase rule w in
         match fst visitFn with
         | Some fn => Stateful.invoke phase fn rule ana node (snd visitFn)
         | None => Some ((ana, snd visitFn), [Stateful.Skipped phase rule node])
         end) bucket ana w <> None).
Proof.
  induction bucket as [|rule rest IH]; intros ana w Hans Hb.
  - split.
    + intros run Hrun. injection Hrun as <-. split; [exact Hb|].
      intros (ph & r & n & []).
    + discriminate.
  - inversion Hans as [|? ? Hrule Hrest]; subst.
    cbn [Stateful.range_loop]. cbv zeta.
    destruct (Hrule w) as [fn Hfn]. rewrite Hfn.
    destruct fn as [f|].
    + unfold Stateful.invoke at 1 3. cbn [Stateful.andThen fst snd].
      set (out := Stateful.act
                    (f rule (exported ana) node (snd (Stateful.callback phase rule w))) ana).
      pose proof (built_act
                    (f rule (exported ana) node (snd (Stateful.callback phase rule w)))
                    ana Hb) as Hb'.
      fold out in Hb'.
      destruct (fst out) as [ana' w'] eqn:Hfold. cbn [fst] in Hb'.
      destruct (IH ana' w' Hrest Hb') as [IHrun IHsound].
      cbn [fst snd]. split.
      * intros run Hrun.
        destruct (Stateful.range_loop _ rest ana' w') as [[st' events']|] eqn:Hloop;
          [|discriminate].
        injection Hrun as <-. destruct (IHrun _ eq_refl) as [Hb'' Hno]. cbn [fst snd] in *.
        split; [exact Hb''|].
        change (~ Stateful.guard_taken
                  ((Stateful.Invoked phase rule node :: map Stateful.Called (snd out))
                     ++ events')).
        rewrite guard_taken_app. intros [Hbad|Hbad]; [|now apply Hno].
        now apply (guard_not_taken_Called [] phase rule node (snd out)).
      * intros Hsound. inversion Hsound as [|? ? _ Hsound']; subst.
        specialize (IHsound Hsound').
        destruct (Stateful.range_loop _ rest ana' w') as [[st' events']|];
          [discriminate | now contradiction IHsound].
    + split.
      * intros run Hrun. discriminate.
      * intros Hsound. inversion Hsound as [|? ? Hs _]; subst.
        exfalso. exact (Hs phase w Hfn).
Qed.

Lemma dispatch_built phase ana node w :
  (forall rule, Stateful.steady rule) -> Stateful.built ana ->
  (forall run, Stateful.dispatch phase ana node w = Some run ->
     Stateful.built (fst (fst run)) /\ ~ Stateful.guard_taken (snd run))
  /\ ((forall rule, Stateful.sound rule) -> Stateful.dispatch phase ana node w <> None).
Proof.
  intros Hsteady Hb.
  pose proof (answering_built ana Hsteady Hb) as Hans.
  destruct (dispatch_loop_answering phase node
              (index_get (index_of phase ana) (Type_ node)) ana w) as [Hrun Hret].
  - apply List.Forall_forall. intros rule Hin. exact (Hans phase _ rule Hin).
  - exact Hb.
  - split; [exact Hrun|]. intros Hsound. apply Hret.
    apply List.Forall_forall. intros rule _. apply Hsound.
Qed.


Lemma Stateful_WalkTree_unfold node ana w :
  Stateful.WalkTree node ana w
  = Stateful.andThen
      (Stateful.andThen (Stateful.dispatch Enter ana node w)
         (Stateful.walk_all (Children node)))
      (fun a w' => Stateful.dispatch Leave a node w').
Proof.
  destruct node as [typ rng children]. cbn [Stateful.WalkTree Children].
  change (Stateful.OnEnterNode ana (MkNode typ rng children) w)
    with (match Stateful.dispatch Enter ana (MkNode typ rng children) w with
          | Some _ => Some true | None => None end,
          Stateful.dispatch Enter ana (MkNode typ rng children) w).
  cbn [fst snd].
  destruct (Stateful.dispatch Enter ana (MkNode typ rng children) w) as [[st events]|];
    reflexivity.
Qed.

Lemma clean_andThen (first : Stateful.Run (ScopeTree := ScopeTree) (W := W) (R := R))
    (next : Analyzer -> W -> Stateful.Run) :
  Stateful.clean first ->
  (forall ana w, Stateful.built ana -> Stateful.clean (next ana w)) ->
  Stateful.clean (Stateful.andThen first next).
Proof.
  intros Hfirst Hnext out Hout. unfold Stateful.andThen in Hout.
  destruct first as [[st events]|]; [|discriminate].
  destruct (Hfirst _ eq_refl) as [Hb Hno]. cbn [fst snd] in Hb, Hno.
  destruct (next (fst st) (snd st)) as [[st' events']|] eqn:Hrun; [|discriminate].
  injection Hout as <-. destruct (Hnext _ _ Hb _ Hrun) as [Hb' Hno']. cbn [fst snd] in *.
  split; [exact Hb'|]. rewrite guard_taken_app. intros [Hbad|Hbad]; contradiction.
Qed.

Lemma returns_andThen (first : Stateful.Run (ScopeTree := ScopeTree) (W := W) (R := R))
    (next : Analyzer -> W -> Stateful.Run) :
  Stateful.clean first -> first <> None ->
  (forall ana w, Stateful.built ana -> next ana w <> None) ->
  Stateful.andThen first next <> None.
Proof.
  intros Hclean Hfirst Hnext. unfold Stateful.andThen.
  destruct first as [[st events]|]; [|now contradiction Hfirst].
  destruct (Hclean _ eq_refl) as [Hb _]. cbn [fst] in Hb.
  specialize (Hnext _ (snd st) Hb).
  destruct (next (fst st) (snd st)) as [[st' events']|]; [discriminate | exact Hnext].
Qed.

Lemma clean_dispatch phase ana node w :
  (forall rule, Stateful.steady rule) -> Stateful.built ana ->
  Stateful.clean (Stateful.dispatch phase ana node w).
Proof. intros Hsteady Hb. exact (proj1 (dispatch_built phase ana node w Hsteady Hb)). Qed.

Lemma clean_walk_all (nodes : list SitterNode) :
  Forall (fun node => forall ana w, Stateful.built ana ->
    Stateful.clean (Stateful.WalkTree node ana w)
    /\ ((forall rule, Stateful.sound rule) -> Stateful.WalkTree node ana w <> None)) nodes ->
  forall ana w, Stateful.built ana ->
    Stateful.clean (Stateful.walk_all nodes ana w)
    /\ ((forall rule, Stateful.sound rule) -> Stateful.walk_all nodes ana w <> None).
Proof.
  induction 1 as [|node rest Hnode _ IH]; intros ana w Hb.
  - split; [|discriminate]. intros out Hout. injection Hout as <-.
    split; [exact Hb | intros (ph & r & n & [])].
  - cbn [Stateful.walk_all]. split.
    + apply clean_andThen; [apply Hnode, Hb | intros a w' Hb'; now apply IH].
    + intros Hsound. apply returns_andThen.
      * apply Hnode, Hb.
      * now apply Hnode.
      * intros a w' Hb'. now apply IH.
Qed.

(** With rules that answer nil at every call or at none, a walk from a built
    analyzer never takes the branch of a nil test and ends in a built
    analyzer; it returns when no answer points to the nil func. *)
Lemma clean_WalkTree node :
  (forall rule, Stateful.steady rule) ->
  forall ana w, Stateful.built ana ->
    Stateful.clean (Stateful.WalkTree node ana w)
    /\ ((forall rule, Stateful.sound rule) -> Stateful.WalkTree node ana w <> None).
Proof.
  intros Hsteady.
  induction node as [typ rng children IH] using SitterNode_tree_ind.
  intros ana w Hb. rewrite Stateful_WalkTree_unfold. cbn [Children].
  assert (Hinside : Stateful.clean (Stateful.andThen
            (Stateful.dispatch Enter ana (MkNode typ rng children) w)
            (Stateful.walk_all children))).
  { apply clean_andThen; [now apply clean_dispatch|].
    intros a w' Hb'. now apply clean_walk_all. }
  split.
  - apply clean_andThen; [exact Hinside|].
    intros a w' Hb'. now apply clean_dispatch.
  - intros Hsound. apply returns_andThen; [exact Hinside| |].
    + apply returns_andThen; [now apply clean_dispatch| |].
      * exact (proj2 (dispatch_built Enter ana _ w Hsteady Hb) Hsound).
      * intros a w' Hb'. now apply clean_walk_all.
    + intros a w' Hb'. exact (proj2 (dispatch_built Leave a _ w' Hsteady Hb') Hsound).
Qed.

(** C10, as amended.  [AddRule] stores a rule in the entry bucket of its
    node type exactly when, asked at that moment, the rule answers an
    on-enter pointer that is not nil, and in the exit bucket exactly when it
    then answers an on-exit pointer that is not nil: every stored rule had a
    callback when it was registered.  When every rule answers nil either at
    every call or at none, every rule in a bucket of an analyzer built only
    through [NewAnalyzer], [AddRule] and [Report] answers a pointer that is
    not nil whenever it is asked, so that [OnEnterNode] and [OnLeaveNode],
    and with them the whole walk of [Analyze], never take the branch of
    their nil test, and they end in such an analyzer again.  When, besides,
    no answer points to the nil func, [OnEnterNode] returns true and
    [OnLeaveNode] and [Analyze] return: dispatch calls through no nil
    pointer and calls no nil func. *)
Theorem stored_rules_answered_a_callback ana rule node w (typ : string) :
  index_get (entryRulesForNode (fst (Stateful.AddRule ana rule w))) typ
  = index_get (entryRulesForNode ana) typ
      ++ match fst (Stateful.OnEnter rule (snd (Stateful.NodeType rule w))) with
         | Some _ => if String.eqb (fst (Stateful.NodeType rule w)) typ then [rule] else []
         | None => []
         end
  /\ index_get (exitRulesForNode (fst (Stateful.AddRule ana rule w))) typ
     = index_get (exitRulesForNode ana) typ
         ++ match fst (Stateful.OnLeave rule
                         (snd (Stateful.OnEnter rule (snd (Stateful.NodeType rule w))))) with
            | Some _ => if String.eqb (fst (Stateful.NodeType rule w)) typ then [rule] else []
            | None => []
            end
  /\ ((forall rule', Stateful.steady rule') -> Stateful.built ana ->
        (forall typ' rule', In rule' (index_get (entryRulesForNode ana) typ') ->
           forall w', is_Some (fst (Stateful.OnEnter rule' w')))
        /\ (forall typ' rule', In rule' (index_get (exitRulesForNode ana) typ') ->
              forall w', is_Some (fst (Stateful.OnLeave rule' w')))
        /\ (forall run, snd (Stateful.OnEnterNode ana node w) = Some run ->
              ~ Stateful.guard_taken (snd run) /\ Stateful.built (fst (fst run)))
        /\ (forall run, Stateful.OnLeaveNode ana node w = Some run ->
              ~ Stateful.guard_taken (snd run) /\ Stateful.built (fst (fst run)))
        /\ (forall out, Stateful.Analyze ana w = Some out ->
              ~ Stateful.guard_taken (snd (snd out))
              /\ Stateful.built (fst (fst (snd out)))))
  /\ ((forall rule', Stateful.steady rule') -> (forall rule', Stateful.sound rule') ->
      Stateful.built ana ->
        fst (Stateful.OnEnterNode ana node w) = Some true
        /\ Stateful.OnLeaveNode ana node w <> None
        /\ Stateful.Analyze ana w <> None).
Proof.
  split; [exact (Stateful_AddRule_index Enter ana rule w typ)|].
  split; [exact (Stateful_AddRule_index Leave ana rule w typ)|].
  split.
  - intros Hsteady Hb. pose proof (answering_built ana Hsteady Hb) as Hans.
    split; [exact (Hans Enter)|]. split; [exact (Hans Leave)|].
    split; [|split].
    + intros run Hrun.
      destruct (proj1 (dispatch_built Enter ana node w Hsteady Hb) run Hrun). now split.
    + intros run Hrun.
      destruct (proj1 (dispatch_built Leave ana node w Hsteady Hb) run Hrun). now split.
    + intros out Hout. unfold Stateful.Analyze in Hout.
      destruct (Stateful.WalkTree (Ast (Analyzer_ParseResult ana)) ana w) as [run|] eqn:Hrun;
        [|discriminate].
      injection Hout as <-. cbn [snd].
      destruct (proj1 (clean_WalkTree _ Hsteady ana w Hb) run Hrun). now split.
  - intros Hsteady Hsound Hb. split; [|split].
    + pose proof (proj2 (dispatch_built Enter ana node w Hsteady Hb) Hsound) as Hret.
      unfold Stateful.OnEnterNode. cbn [fst].
      change (match Stateful.dispatch Enter ana node w with
              | Some _ => Some true | None => None end = Some true).
      destruct (Stateful.dispatch Enter ana node w); [reflexivity | now contradiction Hret].
    + exact (proj2 (dispatch_built Leave ana node w Hsteady Hb) Hsound).
    + pose proof (proj2 (clean_WalkTree (Ast (Analyzer_ParseResult ana)) Hsteady ana w Hb)
                    Hsound) as Hret.
      unfold Stateful.Analyze.
      destruct (Stateful.WalkTree (Ast (Analyzer_ParseResult ana)) ana w);
        [discriminate | now contradiction Hret].
Qed.

End StatefulFacts.

(** ** Rules that keep no state *)

Section StatelessFacts.

Context {ScopeTree : Type} {W : Type} {R : Type}.
Context (pure : Rule (ScopeTree := ScopeTree) R).
Context (impure : Stateful.Rule (ScopeTree := ScopeTree) (W := W) R).

Hypothesis Hkeep : forall rule : R, keeps_no_state pure impure rule.

Implicit Types (ana : Analyzer (ScopeTree := ScopeTree) (R := R)).
Implicit Types (rule : R) (node : SitterNode) (phase : Phase) (w : W).

Lemma keeps_callback phase rule w :
  snd (Stateful.callback phase rule w) = w
  /\ same_pointer (callback phase rule) (fst (Stateful.callback phase rule w)).
Proof.
  destruct (Hkeep rule w) as (_ & He & Hpe & Hl & Hpl). now destruct phase.
Qed.

Lemma stateless_AddRule ana rule w :
  Stateful.AddRule ana rule w = (AddRule ana rule, w).
Proof.
  destruct (Hkeep rule w) as (Htyp & He & Hpe & Hl & Hpl).
  unfold Stateful.AddRule, AddRule. rewrite Htyp. cbn [fst snd].
  rewrite He. unfold same_pointer in Hpe, Hpl.
  destruct (OnEnter rule) as [f|], (fst (Stateful.OnEnter rule w)) as [[g|]|];
    try contradiction; rewrite Hl;
    destruct (OnLeave rule) as [f'|], (fst (Stateful.OnLeave rule w)) as [[g'|]|];
    try contradiction; reflexivity.
Qed.

Lemma stateless_fold_AddRule (more : list R) : forall ana w,
  fold_left (fun st rule => Stateful.AddRule (fst st) rule (snd st)) more (ana, w)
  = (fold_left AddRule more ana, w).
Proof.
  induction more as [|rule more IH]; intros ana w; [reflexivity|].
  cbn [fold_left fst snd]. now rewrite stateless_AddRule, IH.
Qed.

Lemma stateless_NewAnalyzer file (rules0 : list R) w :
  Stateful.NewAnalyzer file rules0 w = (NewAnalyzer file rules0, w).
Proof. apply stateless_fold_AddRule. Qed.

Lemma stateless_perform ana w (call : Call R) :
  Stateful.perform (ana, w) call = (perform ana call, w).
Proof. destruct call as [issue|rule]; [reflexivity | apply stateless_AddRule]. Qed.

Lemma stateless_act w (cs : list (Call R)) (action : Stateful.Action R) :
  plays w cs action ->
  forall ana, Stateful.act action ana = ((fold_left perform cs ana, w), cs).
Proof.
  induction 1 as [|call cs next _ IH]; intros ana; [reflexivity|].
  cbn [Stateful.act]. rewrite stateless_perform. cbn [fst snd]. now rewrite IH.
Qed.

Lemma with_skips_Called (cs : list (Call R)) :
  map with_skips (map Called cs) = map Stateful.Called cs.
Proof. now rewrite map_map. Qed.

Lemma stateless_range_loop phase node (bucket : list R) : forall ana w,
  Forall (fun rule => is_Some (callback phase rule)) bucket ->
  Stateful.range_loop (fun rule ana w =>
      let visitFn := Stateful.callback phase rule w in
      match fst visitFn with
      | Some fn => Stateful.invoke phase fn rule ana node (snd visitFn)
      | None => Some ((ana, snd visitFn), [Stateful.Skipped phase rule node])
      end) bucket ana w
  = in_state w
      (range_loop (fun rule ana =>
         match callback phase rule with
         | Some visitFn => invoke phase visitFn rule ana node
         | None => (ana, [])
         end) bucket ana).
Proof.
  induction bucket as [|rule rest IH]; intros ana w Hall; [reflexivity|].
  inversion Hall as [|? ? [f Hcb] Hrest]; subst.
  destruct (keeps_callback phase rule w) as [Hw Hp].
  unfold same_pointer in Hp. rewrite Hcb in Hp.
  destruct (fst (Stateful.callback phase rule w)) as [[g|]|] eqn:Hg; try contradiction.
  pose proof (IH (fold_left perform (f rule (exported ana) node) ana) w Hrest) as IHrun.
  cbn [Stateful.range_loop range_loop]. cbv zeta in IHrun |- *. rewrite Hg, Hw, Hcb.
  unfold Stateful.invoke, invoke in IHrun |- *.
  rewrite (stateless_act w _ _ (Hp rule (exported ana) node w)).
  cbn [Stateful.andThen fst snd].
  rewrite IHrun. unfold in_state, andThen. cbn [fst snd].
  rewrite map_app. cbn [map with_skips]. now rewrite with_skips_Called.
Qed.

Lemma stateless_dispatch phase ana node w :
  indexed ana ->
  Stateful.dispatch phase ana node w = in_state w (dispatch phase ana node).
Proof.
  intros Hidx. apply stateless_range_loop, bucket_callbacks, Hidx.
Qed.

Lemma in_state_andThen (first : Run (ScopeTree := ScopeTree) (R := R))
    (next : Analyzer -> Run) (next' : Analyzer -> W -> Stateful.Run) w :
  (forall w', next' (fst first) w' = in_state w' (next (fst first))) ->
  Stateful.andThen (in_state w first) next' = in_state w (andThen first next).
Proof.
  intros Hnext. unfold in_state at 1. cbn [Stateful.andThen fst snd].
  rewrite Hnext. unfold in_state, andThen. cbn [fst snd]. now rewrite map_app.
Qed.

Lemma stateless_walk_all (nodes : list SitterNode) :
  Forall (fun node => forall ana w, indexed ana ->
    Stateful.WalkTree node ana w = in_state w (WalkTree node ana)) nodes ->
  forall ana w, indexed ana ->
    Stateful.walk_all nodes ana w = in_state w (walk_all nodes ana).
Proof.
  induction 1 as [|node rest Hnode _ IH]; intros ana w Hidx; [reflexivity|].
  cbn [Stateful.walk_all walk_all]. rewrite (Hnode ana w Hidx).
  apply in_state_andThen. intros w'. apply IH.
  rewrite (replays_WalkTree node ana). now apply indexed_replay.
Qed.

(** A walk with rules that keep no state is the walk with the function
    rules, in whatever state it starts. *)
Lemma stateless_WalkTree node : forall ana w, indexed ana ->
  Stateful.WalkTree node ana w = in_state w (WalkTree node ana).
Proof.
  induction node as [typ rng children IH] using SitterNode_tree_ind.
  intros ana w Hidx.
  rewrite Stateful_WalkTree_unfold, WalkTree_unfold.
  rewrite (stateless_dispatch Enter ana _ w Hidx).
  assert (Hidx' : indexed (fst (dispatch Enter ana (MkNode typ rng children)))).
  { rewrite (replays_dispatch Enter ana _). now apply indexed_replay. }
  rewrite (in_state_andThen _ (walk_all (Children (MkNode typ rng children))))
    by (intros w'; now apply stateless_walk_all).
  apply in_state_andThen. intros w'. apply stateless_dispatch.
  unfold andThen. cbn [fst].
  rewrite (replays_walk_all children) by
    (apply List.Forall_forall; intros node _; apply replays_WalkTree).
  now apply indexed_replay.
Qed.

Lemma stateless_Analyze ana w :
  indexed ana ->
  Stateful.Analyze ana w
  = Some (fst (Analyze ana),
          ((fst (snd (Analyze ana)), w), map with_skips (snd (snd (Analyze ana))))).
Proof.
  intros Hidx. unfold Stateful.Analyze. now rewrite stateless_WalkTree.
Qed.

(** C8, as amended.  When the rules keep no state (in every state of the
    program their methods answer what function rules answer, their callbacks
    are the callbacks of those function rules, and neither changes the
    state), [NewAnalyzer] builds the same analyzer in whatever state of the
    program it is called, and [Analyze] on it returns, in whatever state it
    is called, the issues that the analysis with the function rules
    returns, after the same events: a function of the tree, the rule list
    and its order.  So two analyzers constructed separately over the same
    ParseResult from the same rule list return the same issue list.  With
    callbacks that only report, the list is the list of the issues that the
    callbacks report when applied along [walk_events]. *)
Theorem analyze_deterministic_without_state
    (file : ParseResult) (rules0 : list R) (w1 w1' w2 w2' : W) :
  Stateful.NewAnalyzer file rules0 w1 = (NewAnalyzer file rules0, w1)
  /\ fst (Stateful.NewAnalyzer file rules0 w1) = fst (Stateful.NewAnalyzer file rules0 w2)
  /\ Stateful.Analyze (fst (Stateful.NewAnalyzer file rules0 w1)) w1'
     = Some (fst (Analyze (NewAnalyzer file rules0)),
             ((fst (snd (Analyze (NewAnalyzer file rules0))), w1'),
              map with_skips (snd (snd (Analyze (NewAnalyzer file rules0))))))
  /\ option_map fst (Stateful.Analyze (fst (Stateful.NewAnalyzer file rules0 w1)) w1')
     = option_map fst (Stateful.Analyze (fst (Stateful.NewAnalyzer file rules0 w2)) w2')
  /\ (Forall reports_only rules0 ->
        option_map fst (Stateful.Analyze (fst (Stateful.NewAnalyzer file rules0 w1)) w1')
        = Some (reported
                  (walk_events rules0
                     {| Exported_Language := ParseResult_Language file;
                        Exported_ParseResult := file |}
                     (Ast file)))).
Proof.
  assert (Hrun : forall w w',
    Stateful.Analyze (fst (Stateful.NewAnalyzer file rules0 w)) w'
    = Some (fst (Analyze (NewAnalyzer file rules0)),
            ((fst (snd (Analyze (NewAnalyzer file rules0))), w'),
             map with_skips (snd (snd (Analyze (NewAnalyzer file rules0))))))).
  { intros w w'. rewrite stateless_NewAnalyzer. cbn [fst].
    apply stateless_Analyze, indexed_NewAnalyzer. }
  split; [apply stateless_NewAnalyzer|].
  split; [now rewrite !stateless_NewAnalyzer|].
  split; [apply Hrun|].
  split; [now rewrite !Hrun|].
  intros Hquiet. rewrite Hrun. cbn [option_map fst]. f_equal.
  now rewrite issues_Analyze_NewAnalyzer, events_Analyze_NewAnalyzer.
Qed.

End StatelessFacts.

Lemma without_state_keeps_no_state {ScopeTree : Type} (W : Type) {R : Type}
    (pure : Rule (ScopeTree := ScopeTree) R) (rule : R) :
  keeps_no_state pure (without_state W pure) rule.
Proof.
  assert (Hplays : forall (cs : list (Call R)) (w : W), plays w cs (script cs w)).
  { induction cs as [|call cs IH]; intros w; constructor. apply IH. }
  intros w. unfold same_pointer, same_callback. simpl.
  destruct (OnEnter rule), (OnLeave rule); simpl; repeat split;
    intros r view node w'; apply Hplays.
Qed.

Lemma without_state_steady {ScopeTree : Type} (W : Type) {R : Type}
    (pure : Rule (ScopeTree := ScopeTree) R) (rule : R) :
  Stateful.steady (H := without_state W pure) rule.
Proof. intros phase w w'. now destruct phase. Qed.

Lemma without_state_sound {ScopeTree : Type} (W : Type) {R : Type}
    (pure : Rule (ScopeTree := ScopeTree) R) (rule : R) :
  Stateful.sound (H := without_state W pure) rule.
Proof.
  intros phase w. destruct phase; simpl;
    [destruct (OnEnter rule) | destruct (OnLeave rule)]; discriminate.
Qed.

(* ===================================================================== *)
(** * The facts on the sample rules *)
(* ===================================================================== *)

Lemma sample_reports_only (rule : SampleRule) : reports_only rule.
Proof.
  intros phase visitFn view node Hcb.
  destruct phase; simpl in Hcb;
    [destruct (sample_enter rule) | destruct (sample_leave rule)];
    try discriminate; now injection Hcb as <-.
Qed.

Example sample_issues :
  map Message (fst (Analyze (NewAnalyzer sample_file [rule_x; rule_y; rule_inert])))
  = ["on X"; "around Y"; "around Y"; "on X"; "on X"; "around Y"; "around Y"].
Proof. vm_compute. reflexivity. Qed.

Example sample_tree_census :
  length (preorder sample_tree) = 8 /\ nodes_of_type "X" (preorder sample_tree) = 3.
Proof. split; reflexivity. Qed.

(** A callback that registers its rule again at every call: with one
    registration and two nodes of type X, on-enter runs three times. *)
Example growing_rule_invoked_more :
  registrations growing_x [growing_x] = 1
  /\ nodes_of_type "X" (preorder twin_tree) = 2
  /\ length (invocations Enter (snd (snd (Analyze (NewAnalyzer twin_file [growing_x]))))) = 3.
Proof. vm_compute. repeat split. Qed.

(** C1, the claim as stated fails: a rule registered with node type X and an
    on-enter callback, handed twice to [NewAnalyzer], is invoked twice per
    node of type X, six times on a tree with three such nodes, and its six
    reports are what [Analyze] returns. *)
Lemma enter_twice_when_registered_twice :
  In rule_x [rule_x; rule_x]
  /\ NodeType rule_x = "X"
  /\ is_Some (OnEnter rule_x)
  /\ nodes_of_type "X" (preorder (Ast sample_file)) = 3
  /\ times_invoked rule_x
       (invocations Enter (snd (snd (Analyze (NewAnalyzer sample_file [rule_x; rule_x]))))) = 6
  /\ times_invoked rule_x
       (invocations Enter (snd (snd (Analyze (NewAnalyzer sample_file [rule_x; rule_x])))))
     <> nodes_of_type (NodeType rule_x) (preorder (Ast sample_file))
  /\ map Message (fst (Analyze (NewAnalyzer sample_file [rule_x; rule_x])))
     = ["on X"; "on X"; "on X"; "on X"; "on X"; "on X"].
Proof.
  split; [now left|]. split; [reflexivity|]. split; [now eexists|].
  split; [reflexivity|]. split; [vm_compute; reflexivity|].
  split; [vm_compute; discriminate|].
  vm_compute. reflexivity.
Qed.

(** Witness of C1: registered once among other rules, the sample rule on X is
    invoked three times on the sample tree, which has three nodes of type X
    and five others; the walk applies the callbacks as [walk_events] lists
    them, and the reports of those applications are the issues returned. *)
Lemma enter_dispatch_once_per_registration_witness :
  times_invoked rule_x
    (invocations Enter
       (snd (snd (Analyze (NewAnalyzer sample_file [rule_x; rule_y; rule_inert])))))
  = nodes_of_type (NodeType rule_x) (preorder (Ast sample_file))
  /\ fst (Analyze (NewAnalyzer sample_file [rule_x; rule_y; rule_inert]))
     = reported
         (walk_events [rule_x; rule_y; rule_inert]
            {| Exported_Language := LangPy; Exported_ParseResult := sample_file |}
            sample_tree)
  /\ map Message
       (reported
          (walk_events [rule_x; rule_y; rule_inert]
             {| Exported_Language := LangPy; Exported_ParseResult := sample_file |}
             sample_tree))
     = ["on X"; "around Y"; "around Y"; "on X"; "on X"; "around Y"; "around Y"].
Proof.
  assert (Hquiet : Forall reports_only [rule_x; rule_y; rule_inert])
    by (repeat constructor; apply sample_reports_only).
  pose proof (enter_dispatch_once_per_registration sample_file [rule_x; rule_y; rule_inert] []
    (NewAnalyzer sample_file []) sample_tree rule_x)
    as (_ & _ & _ & _ & _ & _ & _ & _ & Hcount & _ & _ & _ & _ & _ & Hwalk).
  split; [|split].
  - apply (Hcount Hquiet); [now eexists | reflexivity].
  - exact (proj2 (Hwalk Hquiet)).
  - vm_compute. reflexivity.
Defined.

(** Witness of C4: a path with an extension outside the table, and two paths
    that share an extension. *)
Lemma language_resolution_by_extension_witness :
  LanguageFromFilePath "docs/notes.txt" = LangUnknown
  /\ LanguageFromFilePath "lib/util.ts" = LanguageFromFilePath "main.ts".
Proof.
  split.
  - refine (proj1 (proj2 (proj2 (proj2 (proj2 (proj2 (proj2
      (language_resolution_by_extension "docs/notes.txt"))))))) _).
    vm_compute. intros [H|[H|[H|[H|[H|[]]]]]]; discriminate.
  - refine (proj1 (proj2 (proj2 (proj2 (proj2 (proj2 (proj2 (proj2
      (language_resolution_by_extension "main.ts")))))))) "lib/util.ts" _).
    reflexivity.
Defined.

(** Witness of C6: an unsupported extension, a missing file and a readable
    file. *)
Lemma parse_file_stages_witness :
  ParseFile sample_MakeScopeTree sample_ParseCtx sample_ReadFile "file.unknownext"
    = ((None, Some (ErrorString "unsupported file type: file.unknownext")), [])
  /\ ParseFile sample_MakeScopeTree sample_ParseCtx sample_ReadFile "missing.py"
    = ((None, Some (ErrorString "no such file")), ["missing.py"])
  /\ ParseFile sample_MakeScopeTree sample_ParseCtx sample_ReadFile "present.py"
    = (Parse sample_MakeScopeTree sample_ParseCtx "present.py" [Byte.x70]
         (LanguageFromFilePath "present.py") (Some treeSitterPy), ["present.py"]).
Proof.
  split; [|split].
  - refine (proj1 (parse_file_stages sample_MakeScopeTree sample_ParseCtx sample_ReadFile
      "file.unknownext") _).
    reflexivity.
  - refine (proj1 (proj2 (parse_file_stages sample_MakeScopeTree sample_ParseCtx
      sample_ReadFile "missing.py")) treeSitterPy (ErrorString "no such file") _ _);
      reflexivity.
  - refine (proj2 (proj2 (parse_file_stages sample_MakeScopeTree sample_ParseCtx
      sample_ReadFile "present.py")) treeSitterPy [Byte.x70] _ _);
      reflexivity.
Defined.

(** Witness of C7: the sample engine fails on the empty source and parses
    anything else. *)
Lemma parse_error_iff_engine_fails_witness :
  snd (Parse sample_MakeScopeTree sample_ParseCtx "empty.py" [] LangPy (Some treeSitterPy))
    = Some (ErrorString "failed to parse empty.py")
  /\ fst (Parse sample_MakeScopeTree sample_ParseCtx "empty.py" [] LangPy (Some treeSitterPy))
    = None
  /\ Parse sample_MakeScopeTree sample_ParseCtx "present.py" [Byte.x70] LangPy (Some treeSitterPy)
    = (Some {| Ast := sample_tree;
               Source := [Byte.x70];
               FilePath := "present.py";
               TsLanguage := Some treeSitterPy;
               ParseResult_Language := LangPy;
               ParseResult_ScopeTree := None |},
       None).
Proof.
  split; [|split].
  - refine (proj1 (proj1 (parse_error_iff_engine_fails sample_MakeScopeTree sample_ParseCtx
      "empty.py" [] LangPy (Some treeSitterPy))) _).
    exists (ErrorString "empty source"). reflexivity.
  - refine (proj1 (proj2 (proj2 (parse_error_iff_engine_fails sample_MakeScopeTree
      sample_ParseCtx "empty.py" [] LangPy (Some treeSitterPy)))) _).
    vm_compute. discriminate.
  - refine (proj2 (proj2 (proj2 (parse_error_iff_engine_fails sample_MakeScopeTree
      sample_ParseCtx "present.py" [Byte.x70] LangPy (Some treeSitterPy)))) sample_tree _).
    reflexivity.
Defined.

(** Witness of C9: the sample rule without callbacks, registered between two
    other rules. *)
Lemma inert_rule_no_effect_witness :
  ~ In rule_inert
      (index_get (entryRulesForNode (NewAnalyzer sample_file [rule_x; rule_inert; rule_y])) "X")
  /\ ~ In (rule_inert, sample_tree)
        (invocations Enter
           (snd (execs [OpAnalyze] (NewAnalyzer sample_file [rule_x; rule_inert; rule_y]))))
  /\ fst (Analyze (NewAnalyzer sample_file [rule_x; rule_inert; rule_y]))
     = fst (Analyze (NewAnalyzer sample_file [rule_x; rule_y])).
Proof.
  pose proof (inert_rule_no_effect rule_inert eq_refl eq_refl sample_file [rule_x] [rule_y]
    [] (NewAnalyzer sample_file [rule_x; rule_inert; rule_y]) Enter "X" sample_tree)
    as (_ & _ & _ & _ & Hbucket & _ & Hissues & _ & _ & _ & _).
  pose proof (inert_rule_no_effect rule_inert eq_refl eq_refl sample_file [rule_x] [rule_y]
    [OpAnalyze] (NewAnalyzer sample_file [rule_x; rule_inert; rule_y]) Enter "X" sample_tree)
    as (_ & _ & _ & _ & _ & Hinvoked & _ & _ & _ & _ & _).
  split; [exact Hbucket|]. split; [exact Hinvoked | exact Hissues].
Defined.

(** Witness of X1: a dot in a directory name plays no part. *)
Lemma language_of_final_element_witness :
  Ext "pkg.v2/main.py" = Ext "main.py"
  /\ LanguageFromFilePath "pkg.v2/main.py" = LanguageFromFilePath "main.py".
Proof.
  refine (language_of_final_element "pkg.v2" "main.py" _).
  simpl. intuition discriminate.
Defined.

(** Witness of X2: a file without extension in a directory whose name ends
    in .py. *)
Lemma language_unknown_without_dot_witness :
  Ext "README" = EmptyString
  /\ LanguageFromFilePath "README" = LangUnknown
  /\ LanguageFromFilePath "pkg.py/README" = LangUnknown
  /\ Grammar (LanguageFromFilePath "pkg.py/README") = None.
Proof.
  refine (language_unknown_without_dot "pkg.py" "README" _).
  simpl. intuition discriminate.
Defined.

(** Witness of X3: a supported path is read once, an unsupported one not at
    all. *)
Lemma parse_file_reads_iff_supported_witness :
  snd (ParseFile sample_MakeScopeTree sample_ParseCtx sample_ReadFile "present.py")
    = ["present.py"]
  /\ ParseFile sample_MakeScopeTree sample_ParseCtx sample_ReadFile "notes.txt"
     = ((None, Some (ErrorString "unsupported file type: notes.txt")), []).
Proof.
  split.
  - refine (proj1 (parse_file_reads_iff_supported sample_MakeScopeTree sample_ParseCtx
      sample_ReadFile "present.py") _).
    now left.
  - refine (proj1 (proj2 (parse_file_reads_iff_supported sample_MakeScopeTree
      sample_ParseCtx sample_ReadFile "notes.txt")) _).
    simpl. intuition discriminate.
Defined.

(** Witness of X5: the ParseResult of the readable sample file. *)
Lemma parse_file_result_describes_file_witness :
  snd (ParseFile sample_MakeScopeTree sample_ParseCtx sample_ReadFile "present.py")
    = ["present.py"]
  /\ sample_ReadFile "present.py" = inl [Byte.x70]
  /\ sample_ParseCtx [Byte.x70] (Some treeSitterPy) = inl sample_tree.
Proof.
  pose proof (parse_file_result_describes_file sample_MakeScopeTree sample_ParseCtx
    sample_ReadFile "present.py"
    {| Ast := sample_tree;
       Source := [Byte.x70];
       FilePath := "present.py";
       TsLanguage := Some treeSitterPy;
       ParseResult_Language := LangPy;
       ParseResult_ScopeTree := None |} eq_refl)
    as (_ & Hreads & _ & _ & _ & _ & _ & Hread & Hparse & _).
  split; [exact Hreads|]. split; [exact Hread | exact Hparse].
Defined.

(** Witness of X6: the readable sample file is parsed as Python. *)
Lemma parse_file_grammar_by_extension_witness :
  ParseFile sample_MakeScopeTree sample_ParseCtx sample_ReadFile "present.py"
  = (Parse sample_MakeScopeTree sample_ParseCtx "present.py" [Byte.x70] LangPy
       (Some treeSitterPy), ["present.py"]).
Proof.
  refine (proj1 (parse_file_grammar_by_extension sample_MakeScopeTree sample_ParseCtx
    sample_ReadFile "present" [Byte.x70]) _).
  reflexivity.
Defined.

(** Witness of X10: a node of type Z, for which no sample rule is
    registered. *)
Lemma dispatch_without_bucket_witness :
  OnEnterNode (NewAnalyzer sample_file [rule_x; rule_y]) (leaf "Z" 2)
    = (true, (NewAnalyzer sample_file [rule_x; rule_y], []))
  /\ OnLeaveNode (NewAnalyzer sample_file [rule_x; rule_y]) (leaf "Z" 2)
    = (NewAnalyzer sample_file [rule_x; rule_y], []).
Proof.
  split.
  - refine (proj1 (dispatch_without_bucket (NewAnalyzer sample_file [rule_x; rule_y])
      (leaf "Z" 2) sample_file) _).
    vm_compute. reflexivity.
  - refine (proj1 (proj2 (dispatch_without_bucket (NewAnalyzer sample_file [rule_x; rule_y])
      (leaf "Z" 2) sample_file)) _).
    vm_compute. reflexivity.
Defined.

(** Witness of X12: the sample rules on X and on Y, in both orders. *)
Lemma order_matters_within_a_type_only_witness :
  snd (execs [OpAnalyze] (NewAnalyzer sample_file [rule_x; rule_y]))
    = snd (execs [OpAnalyze] (NewAnalyzer sample_file [rule_y; rule_x]))
  /\ fst (Analyze (NewAnalyzer sample_file [rule_x; rule_y]))
     = fst (Analyze (NewAnalyzer sample_file [rule_y; rule_x])).
Proof.
  refine (proj2 (order_matters_within_a_type_only sample_file [] [] [] [] rule_x rule_y
    [OpAnalyze]) _).
  discriminate.
Defined.


(** Witness of X14: the sample rule around Y is left in post-order, and the
    walk applies the callbacks as [walk_events] lists them. *)
Lemma leave_dispatch_mirrors_enter_witness :
  invocations Leave (snd (snd (Analyze (NewAnalyzer sample_file [rule_x; rule_y]))))
  = visits Leave [rule_x; rule_y] (postorder (Ast sample_file))
  /\ snd (snd (Analyze (NewAnalyzer sample_file [rule_x; rule_y])))
     = walk_events [rule_x; rule_y]
         {| Exported_Language := LangPy; Exported_ParseResult := sample_file |} sample_tree
  /\ map fst (invocations Leave
       (walk_events [rule_x; rule_y]
          {| Exported_Language := LangPy; Exported_ParseResult := sample_file |} sample_tree))
     = [rule_y; rule_y].
Proof.
  assert (Hquiet : Forall reports_only [rule_x; rule_y])
    by (repeat constructor; apply sample_reports_only).
  pose proof (leave_dispatch_mirrors_enter sample_file [rule_x; rule_y] []
    (NewAnalyzer sample_file []) sample_tree)
    as (_ & _ & _ & _ & _ & _ & Horder & _ & _ & _ & _ & _ & _ & Hwalk).
  split; [exact (Horder Hquiet)|]. split; [exact (Hwalk Hquiet)|].
  vm_compute. reflexivity.
Defined.

(** Witness of X17: the analyzer of the readable sample file. *)
Lemma from_file_analyzer_describes_file_witness :
  rules (NewAnalyzer
           {| Ast := sample_tree;
              Source := [Byte.x70];
              FilePath := "present.py";
              TsLanguage := Some treeSitterPy;
              ParseResult_Language := LangPy;
              ParseResult_ScopeTree := sample_MakeScopeTree LangPy sample_tree [Byte.x70] |}
           [rule_x; rule_y])
  = [rule_x; rule_y].
Proof.
  pose proof (from_file_analyzer_describes_file sample_MakeScopeTree sample_ParseCtx
    sample_ReadFile "present.py" [rule_x; rule_y]
    (NewAnalyzer
       {| Ast := sample_tree;
          Source := [Byte.x70];
          FilePath := "present.py";
          TsLanguage := Some treeSitterPy;
          ParseResult_Language := LangPy;
          ParseResult_ScopeTree := sample_MakeScopeTree LangPy sample_tree [Byte.x70] |}
       [rule_x; rule_y])
    None ["present.py"] eq_refl) as (_ & _ & Hrules & _).
  exact Hrules.
Defined.

(** Witness of X18: an unsupported extension, a missing file, a file the
    engine rejects and a file it accepts. *)
Lemma from_file_failures_witness :
  FromFile sample_MakeScopeTree sample_ParseCtx sample_ReadFile "notes.txt" [rule_x]
    = Some ((None, Some (ErrorString "unsupported file type: notes.txt")), [])
  /\ FromFile sample_MakeScopeTree sample_ParseCtx sample_ReadFile "missing.py" [rule_x]
    = Some ((None, Some (ErrorString "no such file")), ["missing.py"])
  /\ FromFile sample_MakeScopeTree sample_ParseCtx sample_ReadFile "empty.py" [rule_x]
    = Some ((None, Some (ErrorString "failed to parse empty.py")), ["empty.py"])
  /\ exists ana,
       FromFile sample_MakeScopeTree sample_ParseCtx sample_ReadFile "present.py" [rule_x]
       = Some ((Some ana, None), ["present.py"])
       /\ Ast (Analyzer_ParseResult ana) = sample_tree.
Proof.
  split; [|split; [|split]].
  - refine (proj1 (from_file_failures sample_MakeScopeTree sample_ParseCtx sample_ReadFile
      "notes.txt" [rule_x] []) _).
    simpl. intuition discriminate.
  - refine (proj1 (proj2 (from_file_failures sample_MakeScopeTree sample_ParseCtx
      sample_ReadFile "missing.py" [rule_x] [])) _ (ErrorString "no such file") _).
    + now left.
    + reflexivity.
  - refine (proj1 (proj2 (proj2 (from_file_failures sample_MakeScopeTree sample_ParseCtx
      sample_ReadFile "empty.py" [rule_x] []))) _ [] (ErrorString "empty source") _ _).
    + now left.
    + reflexivity.
    + reflexivity.
  - refine (proj1 (proj2 (proj2 (proj2 (from_file_failures sample_MakeScopeTree
      sample_ParseCtx sample_ReadFile "present.py" [rule_x] [])))) _ [Byte.x70]
      sample_tree _ _).
    + now left.
    + reflexivity.
    + reflexivity.
Defined.

(** Witness of X19: the readable sample file, analysed with the sample
    rules. *)
Lemma from_file_then_analyze_witness :
  exists ana : Analyzer (ScopeTree := unit) (R := SampleRule),
    FromFile sample_MakeScopeTree sample_ParseCtx sample_ReadFile "present.py"
      [rule_x; rule_y]
    = Some ((Some ana, None), ["present.py"])
    /\ snd (snd (Analyze ana)) = walk_events [rule_x; rule_y] (exported ana) sample_tree
    /\ fst (Analyze ana) = reported (walk_events [rule_x; rule_y] (exported ana) sample_tree)
    /\ map Message (fst (Analyze ana))
       = ["on X"; "around Y"; "around Y"; "on X"; "on X"; "around Y"; "around Y"].
Proof.
  assert (Hquiet : Forall reports_only [rule_x; rule_y])
    by (repeat constructor; apply sample_reports_only).
  destruct (from_file_then_analyze sample_MakeScopeTree sample_ParseCtx sample_ReadFile
    "present.py" [rule_x; rule_y] [Byte.x70] sample_tree
    (or_introl eq_refl) eq_refl eq_refl)
    as (ana & Hfrom & _ & _ & _ & Hlang & Hast & Hwalk).
  exists ana. split; [exact Hfrom|].
  split; [exact (proj1 (Hwalk Hquiet))|]. split; [exact (proj2 (Hwalk Hquiet))|].
  injection Hfrom as <-. vm_compute. reflexivity.
Defined.

(** C10, the claim as stated fails.  The rule [flaky_x] answers an on-enter
    callback when [NewAnalyzer] registers it, so it is stored in the entry
    bucket of X; asked again by [OnEnterNode] on a node of type X it answers
    nil, and the loop takes the branch of its nil test.  The rule [hollow_x]
    answers a pointer that is not nil and points to the nil func: it is
    stored, the nil test passes, and the call faults. *)
Lemma nil_test_taken_after_registration :
  Stateful.built (fst (Stateful.NewAnalyzer sample_file [flaky_x] 0))
  /\ In flaky_x
       (index_get (entryRulesForNode (fst (Stateful.NewAnalyzer sample_file [flaky_x] 0))) "X")
  /\ snd (Stateful.NewAnalyzer sample_file [flaky_x] 0) = 1
  /\ snd (Stateful.OnEnterNode (fst (Stateful.NewAnalyzer sample_file [flaky_x] 0))
            (leaf "X" 0) 1)
     = Some ((fst (Stateful.NewAnalyzer sample_file [flaky_x] 0), 2),
             [Stateful.Skipped Enter flaky_x (leaf "X" 0)])
  /\ Stateful.guard_taken [Stateful.Skipped Enter flaky_x (leaf "X" 0)]
  /\ Stateful.built (fst (Stateful.NewAnalyzer sample_file [hollow_x] 0))
  /\ In hollow_x
       (index_get (entryRulesForNode (fst (Stateful.NewAnalyzer sample_file [hollow_x] 0))) "X")
  /\ Stateful.OnEnterNode (fst (Stateful.NewAnalyzer sample_file [hollow_x] 0))
       (leaf "X" 0) 0
     = (None, None).
Proof.
  split; [constructor|]. split; [vm_compute; now left|].
  split; [reflexivity|]. split; [vm_compute; reflexivity|].
  split; [exists Enter, flaky_x, (leaf "X" 0); now left|].
  split; [constructor|]. split; [vm_compute; now left|].
  vm_compute. reflexivity.
Qed.

(** Witness of C10: the sample rules, which answer the same at every call.
    Their buckets hold rules that answer a callback, the nil test is not
    taken, and the dispatch and the walk return. *)
Lemma stored_rules_answered_a_callback_witness :
  (forall run,
     snd (Stateful.OnEnterNode (H := without_state nat SampleRule_Rule)
            (fst (Stateful.NewAnalyzer (H := without_state nat SampleRule_Rule)
                    sample_file [rule_x; rule_y; rule_inert] 0))
            (leaf "X" 0) 0) = Some run ->
     ~ Stateful.guard_taken (snd run))
  /\ fst (Stateful.OnEnterNode (H := without_state nat SampleRule_Rule)
            (fst (Stateful.NewAnalyzer (H := without_state nat SampleRule_Rule)
                    sample_file [rule_x; rule_y; rule_inert] 0))
            (leaf "X" 0) 0) = Some true
  /\ Stateful.Analyze (H := without_state nat SampleRule_Rule)
       (fst (Stateful.NewAnalyzer (H := without_state nat SampleRule_Rule)
               sample_file [rule_x; rule_y; rule_inert] 0)) 0 <> None
  /\ option_map (fun run => length (snd run))
       (snd (Stateful.OnEnterNode (H := without_state nat SampleRule_Rule)
               (fst (Stateful.NewAnalyzer (H := without_state nat SampleRule_Rule)
                       sample_file [rule_x; rule_y; rule_inert] 0))
               (leaf "X" 0) 0)) = Some 2.
Proof.
  pose proof (stored_rules_answered_a_callback (RuleR := without_state nat SampleRule_Rule)
    (fst (Stateful.NewAnalyzer (H := without_state nat SampleRule_Rule)
            sample_file [rule_x; rule_y; rule_inert] 0))
    rule_x (leaf "X" 0) 0 "X") as (_ & _ & Hguard & Hreturns).
  assert (Hsteady : forall rule : SampleRule,
            Stateful.steady (H := without_state nat SampleRule_Rule) rule)
    by (intros rule; apply without_state_steady).
  assert (Hsound : forall rule : SampleRule,
            Stateful.sound (H := without_state nat SampleRule_Rule) rule)
    by (intros rule; apply without_state_sound).
  split; [|split; [|split]].
  - intros run Hrun.
    destruct (Hguard Hsteady (Stateful.built_NewAnalyzer _ _ _)) as (_ & _ & Henter & _).
    exact (proj1 (Henter run Hrun)).
  - exact (proj1 (Hreturns Hsteady Hsound (Stateful.built_NewAnalyzer _ _ _))).
  - exact (proj2 (proj2 (Hreturns Hsteady Hsound (Stateful.built_NewAnalyzer _ _ _)))).
  - vm_compute. reflexivity.
Defined.

(** C8, the claim as stated fails.  The rule [once_x] reports the first node
    its callback is called on and nothing after that.  Two analyzers built
    over the sample file from the list that holds this rule, one before and
    one after the rule has reported, are the same analyzer; [Analyze] on the
    first returns one issue and leaves the rule in the state where it has
    reported; [Analyze] on the second then returns no issue. *)
Lemma analyze_differs_for_a_rule_with_state :
  Stateful.NewAnalyzer sample_file [once_x] false
  = (fst (Stateful.NewAnalyzer sample_file [once_x] true), false)
  /\ option_map (fun out => (map Message (fst out), snd (fst (snd out))))
       (Stateful.Analyze (fst (Stateful.NewAnalyzer sample_file [once_x] false)) false)
     = Some (["first"], true)
  /\ option_map (fun out => map Message (fst out))
       (Stateful.Analyze (fst (Stateful.NewAnalyzer sample_file [once_x] true)) true)
     = Some []
  /\ option_map fst
       (Stateful.Analyze (fst (Stateful.NewAnalyzer sample_file [once_x] false)) false)
     <> option_map fst
          (Stateful.Analyze (fst (Stateful.NewAnalyzer sample_file [once_x] true)) true).
Proof.
  split; [vm_compute; reflexivity|]. split; [vm_compute; reflexivity|].
  split; [vm_compute; reflexivity|]. vm_compute. discriminate.
Qed.

(** Witness of C8: the sample rules keep no state.  Two analyzers built in
    different states of the program and run in different states return the
    same seven issues. *)
Lemma analyze_deterministic_without_state_witness :
  option_map fst
    (Stateful.Analyze (H := without_state nat SampleRule_Rule)
       (fst (Stateful.NewAnalyzer (H := without_state nat SampleRule_Rule)
               sample_file [rule_x; rule_y; rule_inert] 0)) 1)
  = option_map fst
      (Stateful.Analyze (H := without_state nat SampleRule_Rule)
         (fst (Stateful.NewAnalyzer (H := without_state nat SampleRule_Rule)
                 sample_file [rule_x; rule_y; rule_inert] 2)) 3)
  /\ option_map (fun out => map Message (fst out))
       (Stateful.Analyze (H := without_state nat SampleRule_Rule)
          (fst (Stateful.NewAnalyzer (H := without_state nat SampleRule_Rule)
                  sample_file [rule_x; rule_y; rule_inert] 0)) 1)
     = Some ["on X"; "around Y"; "around Y"; "on X"; "on X"; "around Y"; "around Y"].
Proof.
  pose proof (analyze_deterministic_without_state SampleRule_Rule
    (without_state nat SampleRule_Rule)
    (without_state_keeps_no_state nat SampleRule_Rule)
    sample_file [rule_x; rule_y; rule_inert] 0 1 2 3) as (_ & _ & _ & Hsame & _).
  split; [exact Hsame|]. vm_compute. reflexivity.
Defined.

(** Witness of X4: the readable sample file reaches [Parse] with the python
    grammar. *)
Lemma parse_result_xor_error_witness :
  exists g,
    Grammar (LanguageFromFilePath "present.py") = Some g
    /\ ParseFile sample_MakeScopeTree sample_ParseCtx sample_ReadFile "present.py"
       = (Parse sample_MakeScopeTree sample_ParseCtx "present.py" [Byte.x70]
            (LanguageFromFilePath "present.py") (Some g), ["present.py"]).
Proof.
  refine (proj1 (proj2 (proj2 (parse_result_xor_error sample_MakeScopeTree sample_ParseCtx
    sample_ReadFile "present.py" [Byte.x70] LangPy treeSitterPy))) _ _).
  - reflexivity.
  - discriminate.
Defined.
